(** * Buffer pool, clock replacer and linear-probe hash index

    A shallow embedding of the storage-engine core:
    - [Clock]  : src/buffer/clock_replacer.cpp
    - [BPM]    : src/buffer/buffer_pool_manager.cpp
    - [Block]  : src/storage/page/hash_table_block_page.cpp
    - [LPHT]   : src/container/hash/linear_probe_hash_table.cpp

    Conventions.  Signed C++ integers ([frame_id_t], [page_id_t], [int]) are
    modelled by [Z]; unsigned sizes that only ever index slots of a block page
    ([size_t], [slot_offset_t]) by [nat].  An access outside the bounds of a
    [std::vector] or of a C array is undefined behaviour in the source; the
    model makes it explicit: every operation that may perform such an access
    returns an [option], and [None] stands for "undefined".  Latches are not
    modelled: each operation is described by its sequential effect. *)

From Stdlib Require Import ZArith Lia Bool.
From stdpp Require Import base tactics option list gmap.

(** ** Arrays indexed by a machine integer *)

(** [v[i]] for a signed index [i]: a negative index converts to a huge
    unsigned one and is therefore out of bounds, like any [i >= size]. *)
Definition vec_read {A : Type} (v : list A) (i : Z) : option A :=
  if bool_decide (0 ≤ i)%Z then v !! Z.to_nat i else None.

Definition vec_write {A : Type} (v : list A) (i : Z) (x : A) : option (list A) :=
  if bool_decide (0 ≤ i < Z.of_nat (length v))%Z
  then Some (<[Z.to_nat i := x]> v) else None.

(** Conversion of an integer value to [int32_t] (two's complement wrap). *)
Definition int32_t (z : Z) : Z := ((z + 2 ^ 31) mod 2 ^ 32 - 2 ^ 31)%Z.

(** ** The clock replacer (src/buffer/clock_replacer.cpp) *)

Module Clock.
Local Open Scope Z_scope.

Record ClockReplacer : Type := Build {
  clock_hand : Z;
  buffer_size : Z;
  ref_f : list bool;
  in_f : list bool
}.

(** [ClockReplacer::ClockReplacer(num_pages)] *)
Definition create (num_pages : Z) : ClockReplacer :=
  {| clock_hand := 0;
     buffer_size := num_pages;
     ref_f := replicate (Z.to_nat num_pages) false;
     in_f := replicate (Z.to_nat num_pages) false |}.

(** The [for] loop of [Victim].  [n] counts the remaining iterations
    ([buffer_size - i]).  The result carries the replacer, the local [candi]
    and, when the loop left through [break], the chosen frame. *)
Fixpoint Victim_loop (n : nat) (i : Z) (candi : Z) (s : ClockReplacer)
  : option (ClockReplacer * Z * option Z) :=
  match n with
  | O => Some (s, candi, None)
  | S n' =>
    let index := int32_t ((clock_hand s + i) mod buffer_size s) in
    inb ← vec_read (in_f s) index;
    if inb : bool then
      refb ← vec_read (ref_f s) index;
      if negb refb : bool then
        in' ← vec_write (in_f s) index false;
        Some (Build ((index + 1) mod buffer_size s) (buffer_size s) (ref_f s) in',
              candi, Some index)
      else
        ref' ← vec_write (ref_f s) index false;
        Victim_loop n' (i + 1) (if candi =? -1 then index else candi)
          (Build (clock_hand s) (buffer_size s) ref' (in_f s))
    else Victim_loop n' (i + 1) candi s
  end.

(** [ClockReplacer::Victim]: the new state and the frame written to
    [*frame_id] ([None] when the function returns [false]). *)
Definition Victim (s : ClockReplacer) : option (ClockReplacer * option Z) :=
  '(s1, candi, found) ← Victim_loop (Z.to_nat (buffer_size s)) 0 (-1) s;
  match found with
  | Some f => Some (s1, Some f)
  | None =>
    if candi =? -1 then Some (s1, None)
    else
      in' ← vec_write (in_f s1) candi false;
      Some (Build ((candi + 1) mod buffer_size s1) (buffer_size s1) (ref_f s1) in',
            Some candi)
  end.

(** [ClockReplacer::Pin] *)
Definition Pin (frame_id : Z) (s : ClockReplacer) : option ClockReplacer :=
  if int32_t (buffer_size s) <=? frame_id then Some s
  else
    in' ← vec_write (in_f s) frame_id false;
    Some (Build (clock_hand s) (buffer_size s) (ref_f s) in').

(** [ClockReplacer::Unpin] *)
Definition Unpin (frame_id : Z) (s : ClockReplacer) : option ClockReplacer :=
  if int32_t (buffer_size s) <=? frame_id then Some s
  else
    in' ← vec_write (in_f s) frame_id true;
    ref' ← vec_write (ref_f s) frame_id true;
    Some (Build (clock_hand s) (buffer_size s) ref' in').

(** [ClockReplacer::Size] *)
Fixpoint Size_loop (n : nat) (i : Z) (counter : Z) (s : ClockReplacer) : option Z :=
  match n with
  | O => Some counter
  | S n' =>
    b ← vec_read (in_f s) i;
    Size_loop n' (i + 1) (if b : bool then counter + 1 else counter) s
  end.

Definition Size (s : ClockReplacer) : option Z :=
  Size_loop (Z.to_nat (buffer_size s)) 0 0 s.

(** Representation invariant: both bit vectors have [buffer_size] entries
    (the constructor sizes them and nothing resizes them), the size fits the
    [int32_t] it is compared with, and the hand is a position of the clock. *)
Record wf (s : ClockReplacer) : Prop := {
  wf_size : 0 ≤ buffer_size s < 2 ^ 31;
  wf_ref : Z.of_nat (length (ref_f s)) = buffer_size s;
  wf_in : Z.of_nat (length (in_f s)) = buffer_size s;
  wf_hand : 0 ≤ clock_hand s ∧ (buffer_size s = 0 ∨ clock_hand s < buffer_size s)
}.

(** Sequencing of replacer calls that return no value. *)
Definition run (ops : list (ClockReplacer → option ClockReplacer))
    (s : ClockReplacer) : option ClockReplacer :=
  foldl (λ acc op, acc ≫= op) (Some s) ops.

(** Frame [f] is a candidate for eviction. *)
Definition in_replacer (s : ClockReplacer) (f : Z) : Prop :=
  vec_read (in_f s) f = Some true.

(** The position the sweep of [Victim] visits at step [d]. *)
Definition sweep_pos (s : ClockReplacer) (d : Z) : Z :=
  (clock_hand s + d) mod buffer_size s.

(** [f] is the first candidate met when sweeping from [clock_hand]. *)
Definition first_in_sweep (s : ClockReplacer) (f : Z) : Prop :=
  ∃ d, 0 ≤ d < buffer_size s ∧ f = sweep_pos s d ∧ in_replacer s f ∧
       ∀ d', 0 ≤ d' < d → ¬ in_replacer s (sweep_pos s d').

(** The number of candidates for eviction. *)
Definition candidates (s : ClockReplacer) : Z :=
  Z.of_nat (length (filter Is_true (in_f s))).

(** Scenario S4 of the spec: capacity 3, [Unpin(0)], [Unpin(1)], [Unpin(2)],
    [Unpin(0)]. *)
Definition scenario_S4 : option ClockReplacer :=
  run [Unpin 0; Unpin 1; Unpin 2; Unpin 0] (create 3).

(** A replacer of capacity 4 in mid-life: the hand stands at 2, frames 0 and
    3 are candidates, and both have their reference bit set. *)
Definition sample : ClockReplacer :=
  {| clock_hand := 2; buffer_size := 4;
     ref_f := [true; false; false; true];
     in_f := [true; false; false; true] |}.

End Clock.


(** ** The buffer pool manager (src/buffer/buffer_pool_manager.cpp) *)

Module BPM.
Local Open Scope Z_scope.

Definition INVALID_PAGE_ID : Z := -1.

Section WithData.
(** The bytes of a page are kept abstract; [zero_data] is the all-zero page
    that [Page::ResetMemory] produces. *)
Context {Data : Type} (zero_data : Data).

(** A frame: [Page] of src/include/storage/page/page.h, whose fields the
    buffer pool manager accesses directly. *)
Record Page : Type := BuildPage {
  data_ : Data;
  page_id_ : Z;
  pin_count_ : Z;
  is_dirty_ : bool
}.

(** Modelled from the spec: a frame as the constructor of [Page] leaves it
    (page.h is not part of the sources): zeroed data, no resident page, no
    pin, clean (section 3, "Frame"). *)
Definition empty_page : Page :=
  {| data_ := zero_data; page_id_ := INVALID_PAGE_ID; pin_count_ := 0; is_dirty_ := false |}.

(** Modelled from the spec: the Disk Manager (section 6, "consumed"), whose
    code is not part of the sources.  [AllocatePage] hands out increasing ids,
    [WritePage] stores a page image, [ReadPage] returns the stored image (and
    leaves the buffer as it is for a page that was never written), and
    [DeallocatePage] has no effect on later allocations. *)
Record DiskManager : Type := BuildDisk {
  next_page_id_ : Z;
  stored : gmap Z Data
}.

(** Modelled from the spec: [DiskManager::AllocatePage], "monotonic, never
    reuses ids". *)
Definition AllocatePage (d : DiskManager) : DiskManager * Z :=
  (BuildDisk (next_page_id_ d + 1) (stored d), next_page_id_ d).

(** Modelled from the spec: [DiskManager::DeallocatePage], without effect on
    the ids handed out later. *)
Definition DeallocatePage (page_id : Z) (d : DiskManager) : DiskManager := d.

(** Modelled from the spec: [DiskManager::ReadPage] into the buffer [buf]. *)
Definition ReadPage (page_id : Z) (buf : Data) (d : DiskManager) : Data :=
  default buf (stored d !! page_id).

(** Modelled from the spec: [DiskManager::WritePage]. *)
Definition WritePage (page_id : Z) (buf : Data) (d : DiskManager) : DiskManager :=
  BuildDisk (next_page_id_ d) (<[page_id := buf]> (stored d)).

Record BufferPoolManager : Type := Build {
  pool_size_ : Z;
  pages_ : list Page;
  disk_manager_ : DiskManager;
  page_table_ : gmap Z Z;
  replacer_ : Clock.ClockReplacer;
  free_list_ : list Z
}.

(** [BufferPoolManager::BufferPoolManager]: every frame starts on the free
    list, in index order. *)
Definition create (pool_size : Z) (disk_manager : DiskManager) : BufferPoolManager :=
  {| pool_size_ := pool_size;
     pages_ := replicate (Z.to_nat pool_size) empty_page;
     disk_manager_ := disk_manager;
     page_table_ := ∅;
     replacer_ := Clock.create pool_size;
     free_list_ := Z.of_nat <$> seq 0 (Z.to_nat pool_size) |}.

Definition set_pages (ps : list Page) (s : BufferPoolManager) : BufferPoolManager :=
  Build (pool_size_ s) ps (disk_manager_ s) (page_table_ s) (replacer_ s) (free_list_ s).
Definition set_disk (d : DiskManager) (s : BufferPoolManager) : BufferPoolManager :=
  Build (pool_size_ s) (pages_ s) d (page_table_ s) (replacer_ s) (free_list_ s).
Definition set_page_table (pt : gmap Z Z) (s : BufferPoolManager) : BufferPoolManager :=
  Build (pool_size_ s) (pages_ s) (disk_manager_ s) pt (replacer_ s) (free_list_ s).
Definition set_replacer (r : Clock.ClockReplacer) (s : BufferPoolManager) : BufferPoolManager :=
  Build (pool_size_ s) (pages_ s) (disk_manager_ s) (page_table_ s) r (free_list_ s).
Definition set_free_list (fl : list Z) (s : BufferPoolManager) : BufferPoolManager :=
  Build (pool_size_ s) (pages_ s) (disk_manager_ s) (page_table_ s) (replacer_ s) fl.

(** [BufferPoolManager::FlushPageImpl] *)
Definition FlushPageImpl (page_id : Z) (s : BufferPoolManager)
  : option (BufferPoolManager * bool) :=
  match page_table_ s !! page_id with
  | None => Some (s, false)
  | Some frame =>
    pg ← vec_read (pages_ s) frame;
    if negb (is_dirty_ pg) then Some (s, true)
    else
      let d := WritePage page_id (data_ pg) (disk_manager_ s) in
      ps ← vec_write (pages_ s) frame
             (BuildPage (data_ pg) (page_id_ pg) (pin_count_ pg) false);
      Some (set_pages ps (set_disk d s), true)
  end.

(** The tail shared by the two miss paths of [FetchPageImpl]: pin [target],
    rebind it to [page_id] and read the page in.  [evicted] is the page id
    erased from the page table on the replacer path. *)
Definition load_into (target page_id : Z) (evicted : option Z) (s : BufferPoolManager)
  : option (BufferPoolManager * option Z) :=
  r ← Clock.Pin target (replacer_ s);
  pg ← vec_read (pages_ s) target;
  let pt := match evicted with
            | Some evict_page => delete evict_page (page_table_ s)
            | None => page_table_ s
            end in
  ps ← vec_write (pages_ s) target
         (BuildPage (ReadPage page_id (data_ pg) (disk_manager_ s)) page_id
                    (pin_count_ pg + 1) false);
  Some (set_pages ps (set_page_table (<[page_id := target]> pt) (set_replacer r s)),
        Some target).

(** [BufferPoolManager::FetchPageImpl]: the new state and the frame whose
    address is returned ([None] for [nullptr]). *)
Definition FetchPageImpl (page_id : Z) (s : BufferPoolManager)
  : option (BufferPoolManager * option Z) :=
  match page_table_ s !! page_id with
  | Some target =>
    r ← Clock.Pin target (replacer_ s);
    pg ← vec_read (pages_ s) target;
    ps ← vec_write (pages_ s) target
           (BuildPage (data_ pg) (page_id_ pg) (pin_count_ pg + 1) (is_dirty_ pg));
    Some (set_pages ps (set_replacer r s), Some target)
  | None =>
    match free_list_ s with
    | target :: rest => load_into target page_id None (set_free_list rest s)
    | [] =>
      '(r, victim) ← Clock.Victim (replacer_ s);
      let s1 := set_replacer r s in
      match victim with
      | None => Some (s1, None)
      | Some target =>
        pg ← vec_read (pages_ s1) target;
        let evict_page := page_id_ pg in
        '(s2, flu_suc) ← (if is_dirty_ pg then FlushPageImpl evict_page s1
                          else Some (s1, true));
        if negb flu_suc then Some (s2, None)
        else load_into target page_id (Some evict_page) s2
      end
    end
  end.

(** [BufferPoolManager::UnpinPageImpl] *)
Definition UnpinPageImpl (page_id : Z) (is_dirty : bool) (s : BufferPoolManager)
  : option (BufferPoolManager * bool) :=
  match page_table_ s !! page_id with
  | None => Some (s, true)
  | Some frame =>
    pg ← vec_read (pages_ s) frame;
    if pin_count_ pg <=? 0 then Some (s, false)
    else
      let pg' := BuildPage (data_ pg) (page_id_ pg) (pin_count_ pg - 1)
                           (is_dirty_ pg || is_dirty) in
      ps ← vec_write (pages_ s) frame pg';
      r ← (if pin_count_ pg' =? 0 then Clock.Unpin frame (replacer_ s)
           else Some (replacer_ s));
      Some (set_pages ps (set_replacer r s), true)
  end.

(** The tail shared by the two paths of [NewPageImpl]: allocate an id, zero
    the frame and install it. *)
Definition install_new (frame : Z) (evicted : option Z) (s : BufferPoolManager)
  : option (BufferPoolManager * option (Z * Z)) :=
  let pt := match evicted with
            | Some evict_page => delete evict_page (page_table_ s)
            | None => page_table_ s
            end in
  let '(d, page_id) := AllocatePage (disk_manager_ s) in
  ps ← vec_write (pages_ s) frame (BuildPage zero_data page_id 1 false);
  r ← Clock.Pin frame (replacer_ s);
  Some (set_pages ps (set_disk d (set_page_table (<[page_id := frame]> pt)
          (set_replacer r s))),
        Some (page_id, frame)).

(** [BufferPoolManager::NewPageImpl]: the new state and, on success, the id
    written to [*page_id] together with the frame returned. *)
Definition NewPageImpl (s : BufferPoolManager)
  : option (BufferPoolManager * option (Z * Z)) :=
  match free_list_ s with
  | free :: rest => install_new free None (set_free_list rest s)
  | [] =>
    '(r, victim) ← Clock.Victim (replacer_ s);
    let s1 := set_replacer r s in
    match victim with
    | None => Some (s1, None)
    | Some candi =>
      pg ← vec_read (pages_ s1) candi;
      let evict_page := page_id_ pg in
      '(s2, flu_suc) ← (if is_dirty_ pg then FlushPageImpl evict_page s1
                        else Some (s1, true));
      if negb flu_suc then Some (s2, None)
      else install_new candi (Some evict_page) s2
    end
  end.

(** [BufferPoolManager::DeletePageImpl] *)
Definition DeletePageImpl (page_id : Z) (s : BufferPoolManager)
  : option (BufferPoolManager * bool) :=
  if page_id =? INVALID_PAGE_ID then Some (s, true)
  else
    match page_table_ s !! page_id with
    | None => Some (s, true)
    | Some target =>
      pg ← vec_read (pages_ s) target;
      if negb (pin_count_ pg =? 0) then Some (s, false)
      else
        let d := DeallocatePage page_id (disk_manager_ s) in
        ps ← vec_write (pages_ s) target
               (BuildPage (data_ pg) INVALID_PAGE_ID (pin_count_ pg) false);
        Some (Build (pool_size_ s) ps d (delete page_id (page_table_ s))
                    (replacer_ s) (free_list_ s ++ [target]),
              true)
    end.

(** [BufferPoolManager::FlushAllPagesImpl] *)
Fixpoint FlushAll_loop (n : nat) (i : Z) (s : BufferPoolManager)
  : option BufferPoolManager :=
  match n with
  | O => Some s
  | S n' =>
    pg ← vec_read (pages_ s) i;
    s' ← (if is_dirty_ pg then fst <$> FlushPageImpl (page_id_ pg) s else Some s);
    FlushAll_loop n' (i + 1) s'
  end.

Definition FlushAllPagesImpl (s : BufferPoolManager) : option BufferPoolManager :=
  FlushAll_loop (Z.to_nat (pool_size_ s)) 0 s.

(** Page [page_id] is resident in frame [frame], whose metadata is [pg], and
    the frame and the replacer agree: the frame is a candidate for eviction
    exactly when nobody pins it. *)
Record resident (s : BufferPoolManager) (page_id frame : Z) (pg : Page) : Prop := {
  res_table : page_table_ s !! page_id = Some frame;
  res_frame : vec_read (pages_ s) frame = Some pg;
  res_capacity : frame < Clock.buffer_size (replacer_ s);
  res_pins : 0 ≤ pin_count_ pg;
  res_candidate : Clock.in_replacer (replacer_ s) frame ↔ pin_count_ pg = 0
}.

(** The invariant of the buffer pool that its operations maintain. *)
Record inv (s : BufferPoolManager) : Prop := {
  inv_replacer : Clock.wf (replacer_ s);
  inv_capacity : Clock.buffer_size (replacer_ s) = pool_size_ s;
  inv_pages : Z.of_nat (length (pages_ s)) = pool_size_ s;
  inv_resident : ∀ p f, page_table_ s !! p = Some f →
    ∃ pg, resident s p f pg ∧ page_id_ pg = p;
  inv_free : ∀ f, f ∈ free_list_ s →
    (∃ pg, vec_read (pages_ s) f = Some pg ∧ pin_count_ pg = 0) ∧
    ∀ p, page_table_ s !! p ≠ Some f;
  inv_free_nodup : NoDup (free_list_ s);
  inv_candidate : ∀ f, Clock.in_replacer (replacer_ s) f →
    f ∈ free_list_ s ∨ ∃ p, page_table_ s !! p = Some f;
  inv_allocated : ∀ p f, page_table_ s !! p = Some f →
    p < next_page_id_ (disk_manager_ s)
}.

(** One call of the public interface that runs to completion.  [FetchPage]
    is called on ids the disk manager has allocated. *)
Inductive step (s : BufferPoolManager) : BufferPoolManager → Prop :=
  | step_Fetch p s' r :
      p < next_page_id_ (disk_manager_ s) →
      FetchPageImpl p s = Some (s', r) → step s s'
  | step_Unpin p d s' r : UnpinPageImpl p d s = Some (s', r) → step s s'
  | step_Flush p s' r : FlushPageImpl p s = Some (s', r) → step s s'
  | step_New s' r : NewPageImpl s = Some (s', r) → step s s'
  | step_Delete p s' r : DeletePageImpl p s = Some (s', r) → step s s'
  | step_FlushAll s' : FlushAllPagesImpl s = Some s' → step s s'.

(** The states of a pool: the constructor, on a capacity that fits a frame
    id, followed by calls of the public interface. *)
Inductive reachable : BufferPoolManager → Prop :=
  | reach_new_pool n d : 0 ≤ n < 2 ^ 31 → reachable (create n d)
  | reach_call s s' : reachable s → step s s' → reachable s'.

(** Every frame is on the free list or holds a resident page. *)
Definition covered (s : BufferPoolManager) : Prop :=
  ∀ f, 0 ≤ f < pool_size_ s → f ∈ free_list_ s ∨ ∃ p, page_table_ s !! p = Some f.

(** Every frame of the pool is pinned. *)
Definition all_pinned (s : BufferPoolManager) : Prop :=
  ∀ f, 0 ≤ f < pool_size_ s → ∃ pg, vec_read (pages_ s) f = Some pg ∧ 0 < pin_count_ pg.

(** [s'] differs from [s] by write-backs only: dirty flags may have been
    cleared, and the bytes of the resident pages whose flag was cleared are
    on disk. *)
Definition flushed (s s' : BufferPoolManager) : Prop :=
  page_table_ s' = page_table_ s ∧ free_list_ s' = free_list_ s ∧
  replacer_ s' = replacer_ s ∧ pool_size_ s' = pool_size_ s ∧
  next_page_id_ (disk_manager_ s') = next_page_id_ (disk_manager_ s) ∧
  (∀ f pg, vec_read (pages_ s) f = Some pg →
     ∃ pg', vec_read (pages_ s') f = Some pg' ∧ data_ pg' = data_ pg ∧
            page_id_ pg' = page_id_ pg ∧ pin_count_ pg' = pin_count_ pg ∧
            (is_dirty_ pg' = true → is_dirty_ pg = true)) ∧
  (∀ p f pg pg', page_table_ s !! p = Some f →
     vec_read (pages_ s) f = Some pg → vec_read (pages_ s') f = Some pg' →
     stored (disk_manager_ s') !! p =
       if is_dirty_ pg && negb (is_dirty_ pg') then Some (data_ pg)
       else stored (disk_manager_ s) !! p) ∧
  (∀ q, page_table_ s !! q = None →
        stored (disk_manager_ s') !! q = stored (disk_manager_ s) !! q).

End WithData.

Arguments Page : clear implicits.
Arguments DiskManager : clear implicits.
Arguments BufferPoolManager : clear implicits.

(** *** Two concrete runs (pages of eight zero bytes, an empty disk) *)

Definition zero_page : list Z := replicate 8 0.
Definition disk0 : DiskManager (list Z) := BuildDisk 0 ∅.

(** A pool of one frame: [NewPage] (page 0, frame 0), then
    [UnpinPage(0, false)]: page 0 is resident with pin count 0. *)
Definition unpinned_page : option (BufferPoolManager (list Z)) :=
  '(s1, _) ← NewPageImpl zero_page (create zero_page 1 disk0);
  '(s2, _) ← UnpinPageImpl 0 false s1;
  Some s2.

(** A pool of two frames: pages 0 and 1 are created and unpinned, then a
    third [NewPage] evicts page 0; the sweep of that eviction has cleared the
    reference bit of frame 1, where page 1 stays resident and unpinned. *)
Definition swept_page : option (BufferPoolManager (list Z)) :=
  '(s1, _) ← NewPageImpl zero_page (create zero_page 2 disk0);
  '(s2, _) ← NewPageImpl zero_page s1;
  '(s3, _) ← UnpinPageImpl 0 false s2;
  '(s4, _) ← UnpinPageImpl 1 false s3;
  '(s5, _) ← NewPageImpl zero_page s4;
  Some s5.

Definition swept_state : BufferPoolManager (list Z) :=
  default (create zero_page 2 disk0) swept_page.

(** The metadata of frame 1 in [swept_state]: page 1, clean, unpinned. *)
Definition swept_frame : Page (list Z) :=
  {| data_ := zero_page; page_id_ := 1; pin_count_ := 0; is_dirty_ := false |}.

(** A third run, on a pool of two frames: pages 0 and 1 are created
    ([pool2], every frame pinned); page 0 is unpinned dirty ([pool3]); a
    third [NewPage] evicts it ([pool4]); page 1 is unpinned ([pool5]). *)
Definition state_after {A : Type} (s0 : BufferPoolManager (list Z))
    (r : option (BufferPoolManager (list Z) * A)) : BufferPoolManager (list Z) :=
  match r with Some (s, _) => s | None => s0 end.

Definition pool0 : BufferPoolManager (list Z) := create zero_page 2 disk0.
Definition pool1 : BufferPoolManager (list Z) :=
  state_after pool0 (NewPageImpl zero_page pool0).
Definition pool2 : BufferPoolManager (list Z) :=
  state_after pool1 (NewPageImpl zero_page pool1).
Definition pool3 : BufferPoolManager (list Z) :=
  state_after pool2 (UnpinPageImpl 0 true pool2).
Definition pool4 : BufferPoolManager (list Z) :=
  state_after pool3 (NewPageImpl zero_page pool3).
Definition pool5 : BufferPoolManager (list Z) :=
  state_after pool4 (UnpinPageImpl 1 false pool4).

(** Two frames of [pool3]: frame 0 holds page 0, unpinned and dirty, and
    frame 1 holds page 1, pinned. *)
Definition dirty_frame : Page (list Z) :=
  {| data_ := zero_page; page_id_ := 0; pin_count_ := 0; is_dirty_ := true |}.
Definition pinned_frame : Page (list Z) :=
  {| data_ := zero_page; page_id_ := 1; pin_count_ := 1; is_dirty_ := false |}.

End BPM.

(** ** Hash table block pages (src/storage/page/hash_table_block_page.cpp) *)

Module Block.

(** Truncation of an [int] result to the 8 bits of a [char]. *)
Definition to_char (z : Z) : Z := (z mod 256)%Z.

(** [1 << bit] *)
Definition mask (bit : nat) : Z := Z.shiftl 1 (Z.of_nat bit).

(** A write through [array_ + i] or [bitmap[i]]: outside the array it is
    undefined. *)
Definition arr_write {A : Type} (l : list A) (i : nat) (x : A) : option (list A) :=
  if bool_decide (i < length l) then Some (<[i := x]> l) else None.

Section WithTypes.
(** [BLOCK_ARRAY_SIZE] is a macro of hash_table_page_defs.h, which is not part
    of the sources: the number of slots of a block page. *)
Context {K V : Type} (BLOCK_ARRAY_SIZE : nat).

(** The page layout of hash_table_block_page.h: two bitmaps of
    [(BLOCK_ARRAY_SIZE - 1) / 8 + 1] chars (each char is kept as its 8-bit
    pattern, a number below 256) and the slot array. *)
Record BlockPage : Type := Build {
  occupied_ : list Z;
  readable_ : list Z;
  array_ : list (K * V)
}.

(** Modelled from the spec: [sizeof(occupied_) / sizeof(std::atomic_char)],
    the declared length of either bitmap (hash_table_block_page.h is not part
    of the sources; section 6 gives [ceil(SLOTS / 8)] bytes). *)
Definition bitmap_size : nat := (BLOCK_ARRAY_SIZE - 1) / 8 + 1.

Record wf (b : BlockPage) : Prop := {
  wf_occupied : length (occupied_ b) = bitmap_size;
  wf_readable : length (readable_ b) = bitmap_size;
  wf_array : length (array_ b) = BLOCK_ARRAY_SIZE
}.

(** The image of a zeroed page ([Page::ResetMemory]) read as a block page;
    [zero_entry] is the key/value pair whose bytes are all zero. *)
Definition empty (zero_entry : K * V) : BlockPage :=
  {| occupied_ := replicate bitmap_size 0%Z;
     readable_ := replicate bitmap_size 0%Z;
     array_ := replicate BLOCK_ARRAY_SIZE zero_entry |}.

(** [HashTableBlockPage::KeyAt] *)
Definition KeyAt (b : BlockPage) (bucket_ind : nat) : option K :=
  fst <$> array_ b !! bucket_ind.

(** [HashTableBlockPage::ValueAt] *)
Definition ValueAt (b : BlockPage) (bucket_ind : nat) : option V :=
  snd <$> array_ b !! bucket_ind.

(** [bitmap[idx] & (1 << bit)] converted to [bool], behind the guard on
    [idx] that [IsOccupied] and [IsReadable] share. *)
Definition test_bit (bitmap : list Z) (bucket_ind : nat) : bool :=
  let idx := bucket_ind / 8 in
  let bit := bucket_ind mod 8 in
  if bool_decide (bitmap_size ≤ idx) then false
  else negb (Z.land (default 0%Z (bitmap !! idx)) (mask bit) =? 0)%Z.

(** [HashTableBlockPage::IsOccupied] *)
Definition IsOccupied (b : BlockPage) (bucket_ind : nat) : bool :=
  test_bit (occupied_ b) bucket_ind.

(** [HashTableBlockPage::IsReadable] *)
Definition IsReadable (b : BlockPage) (bucket_ind : nat) : bool :=
  test_bit (readable_ b) bucket_ind.

(** [bitmap[idx] |= (1 << bit)] *)
Definition set_bit (bitmap : list Z) (idx bit : nat) : option (list Z) :=
  c ← bitmap !! idx;
  arr_write bitmap idx (to_char (Z.lor c (mask bit))).

(** [HashTableBlockPage::Insert] *)
Definition Insert (b : BlockPage) (bucket_ind : nat) (key : K) (value : V)
  : option (BlockPage * bool) :=
  if IsOccupied b bucket_ind then Some (b, false)
  else
    let idx := bucket_ind / 8 in
    let bit := bucket_ind mod 8 in
    occ ← set_bit (occupied_ b) idx bit;
    rd ← set_bit (readable_ b) idx bit;
    arr ← arr_write (array_ b) bucket_ind (key, value);
    Some (Build occ rd arr, true).

(** [HashTableBlockPage::Remove] *)
Definition Remove (b : BlockPage) (bucket_ind : nat) : BlockPage :=
  let idx := bucket_ind / 8 in
  let bit := bucket_ind mod 8 in
  if bool_decide (bitmap_size ≤ idx) then b
  else
    let c := default 0%Z (readable_ b !! idx) in
    Build (occupied_ b)
          (<[idx := to_char (Z.land c (Z.lnot (mask bit)))]> (readable_ b))
          (array_ b).

(** The two mutators, for statements about sequences of block operations. *)
Inductive op : Type :=
  | OpInsert (bucket_ind : nat) (key : K) (value : V)
  | OpRemove (bucket_ind : nat).

Definition op_index (o : op) : nat :=
  match o with OpInsert i _ _ => i | OpRemove i => i end.

Definition apply (b : BlockPage) (o : op) : option BlockPage :=
  match o with
  | OpInsert i k v => fst <$> Insert b i k v
  | OpRemove i => Some (Remove b i)
  end.

Fixpoint run (ops : list op) (b : BlockPage) : option BlockPage :=
  match ops with
  | [] => Some b
  | o :: ops' => b' ← apply b o; run ops' b'
  end.

(** Invariant 5 of the spec: [readable[i] ⇒ occupied[i]]. *)
Definition readable_occupied (b : BlockPage) : Prop :=
  ∀ i, i < BLOCK_ARRAY_SIZE → IsReadable b i = true → IsOccupied b i = true.

End WithTypes.

Arguments BlockPage : clear implicits.

(** A run on a block of 12 slots, for the examples. *)
Definition sample_ops : list (op (K:=Z) (V:=Z)) :=
  [OpInsert 3 5%Z 7%Z; OpInsert 9 1%Z 2%Z; OpRemove 3; OpInsert 3 8%Z 8%Z].

(** The block of 12 slots after the first two operations of [sample_ops],
    the operations that follow, and the block they end in. *)
Definition sample_block : BlockPage Z Z :=
  default (empty 12 (0, 0)%Z) (run 12 (take 2 sample_ops) (empty 12 (0, 0)%Z)).
Definition sample_tail : list (op (K:=Z) (V:=Z)) := drop 2 sample_ops.
Definition sample_final : BlockPage Z Z :=
  default sample_block (run 12 sample_tail sample_block).

End Block.

(** ** The linear-probe hash table
       (src/container/hash/linear_probe_hash_table.cpp) *)

Module LPHT.

(** The hash table reaches its pages through the buffer pool only.  At this
    level the pool is a store of page images, and every call the table makes
    to it is recorded, in order.  [FetchPage] and [NewPage] are taken to
    succeed (a pool with a free or evictable frame); the bookkeeping of the
    pool itself is the subject of [BPM]. *)
Inductive call : Type :=
  | FetchPage (page_id : Z)
  | NewPage (page_id : Z)
  | UnpinPage (page_id : Z) (is_dirty : bool).

(** Pins taken on, and released from, page [p] by a sequence of calls. *)
Definition takes (p : Z) (c : call) : bool :=
  match c with
  | FetchPage q | NewPage q => bool_decide (q = p)
  | UnpinPage _ _ => false
  end.

Definition releases (p : Z) (c : call) : bool :=
  match c with
  | UnpinPage q _ => bool_decide (q = p)
  | _ => false
  end.

Fixpoint count (f : call → bool) (tr : list call) : nat :=
  match tr with
  | [] => 0
  | c :: tr' => (if f c then 1 else 0) + count f tr'
  end.

Definition pins_taken (p : Z) (tr : list call) : nat := count (takes p) tr.

Definition pins_released (p : Z) (tr : list call) : nat := count (releases p) tr.

(** Every successful [FetchPage]/[NewPage] is matched by one [UnpinPage] of
    the same page. *)
Definition balanced (tr : list call) : Prop :=
  ∀ p, pins_taken p tr = pins_released p tr.

(** Modelled from the spec: the hash header page (section 3: [page_id],
    [size] and the ordered sequence [block_page_ids]), whose code
    (hash_table_header_page.cpp) is not part of the sources.
    [GetBlockPageId] answers [INVALID_PAGE_ID] for an index that has no block
    yet, the case [GetValue] and [Remove] test for. *)
Record HeaderPage : Type := BuildHeader {
  page_id_ : Z;
  size_ : nat;
  block_page_ids_ : list Z
}.

(** Modelled from the spec: [HashTableHeaderPage::GetSize], the number of
    buckets fixed at construction. *)
Definition GetSize_header (h : HeaderPage) : nat := size_ h.

(** Modelled from the spec: [HashTableHeaderPage::NumBlocks], the number of
    block pages registered so far. *)
Definition NumBlocks (h : HeaderPage) : nat := length (block_page_ids_ h).

(** Modelled from the spec: [HashTableHeaderPage::GetBlockPageId]. *)
Definition GetBlockPageId (h : HeaderPage) (index : nat) : Z :=
  default BPM.INVALID_PAGE_ID (block_page_ids_ h !! index).

(** Modelled from the spec: [HashTableHeaderPage::AddBlockPageId], which
    appends to the sequence. *)
Definition AddBlockPageId (h : HeaderPage) (page_id : Z) : HeaderPage :=
  BuildHeader (page_id_ h) (size_ h) (block_page_ids_ h ++ [page_id]).

Section WithTypes.
(** The template parameters [KeyType], [ValueType] (with its [==]) and
    [KeyComparator], the hash function, and the macro [BLOCK_ARRAY_SIZE]. *)
Context {K V : Type} `{EqDecision V}.
Context (BLOCK_ARRAY_SIZE : nat) (zero_entry : K * V).
Context (comparator_ : K → K → Z) (hash_fn_ : K → nat).

Local Abbreviation BlockPage := (Block.BlockPage K V).

(** The table: the id of its header page, and the pages it owns as the
    buffer pool presents them; [next_page_id_] is the id the next [NewPage]
    hands out. *)
Record HashTable : Type := Build {
  header_page_id_ : Z;
  header : HeaderPage;
  blocks : gmap Z BlockPage;
  next_page_id_ : Z
}.

(** [LinearProbeHashTable::LinearProbeHashTable] *)
Definition create (num_buckets : nat) (next_page_id : Z) : HashTable * list call :=
  ({| header_page_id_ := next_page_id;
      header := BuildHeader next_page_id num_buckets [];
      blocks := ∅;
      next_page_id_ := (next_page_id + 1)%Z |},
   [NewPage next_page_id; UnpinPage next_page_id true]).

(** [bucket->IsReadable(i) && comparator_(bucket->KeyAt(i), key) == 0] *)
Definition key_matches (bucket : BlockPage) (i : nat) (key : K) : option bool :=
  if Block.IsReadable BLOCK_ARRAY_SIZE bucket i then
    k ← Block.KeyAt bucket i;
    Some (comparator_ k key =? 0)%Z
  else Some false.

(** [... && bucket->ValueAt(i) == value] *)
Definition pair_matches (bucket : BlockPage) (i : nat) (key : K) (value : V)
  : option bool :=
  m ← key_matches bucket i key;
  if m : bool then
    v ← Block.ValueAt bucket i;
    Some (bool_decide (v = value))
  else Some false.

(** The [while (iter < BLOCK_ARRAY_SIZE)] loop of [GetValue]; [n] counts the
    remaining iterations, [BLOCK_ARRAY_SIZE - iter]. *)
Fixpoint GetValue_loop (n : nat) (iter : nat) (bucket : BlockPage) (key : K)
    (result : list V) (rtn : bool) : option (list V * bool) :=
  match n with
  | O => Some (result, rtn)
  | S n' =>
    m ← key_matches bucket iter key;
    if m : bool then
      v ← Block.ValueAt bucket iter;
      GetValue_loop n' (S iter) bucket key (result ++ [v]) true
    else GetValue_loop n' (S iter) bucket key result rtn
  end.

(** [LinearProbeHashTable::GetValue]: the final contents of [*result], the
    value returned and the buffer pool calls made.  [result] is the vector
    the caller passes in. *)
Definition GetValue (t : HashTable) (key : K) (result : list V)
  : option (list V * bool * list call) :=
  let num_buckets := GetSize_header (header t) in
  let hashVal := hash_fn_ key in
  if bool_decide (num_buckets = 0) then None
  else
    let idx := hashVal mod num_buckets in
    let offset := hashVal mod BLOCK_ARRAY_SIZE in
    let bucket_id := GetBlockPageId (header t) idx in
    if bool_decide (bucket_id ≠ BPM.INVALID_PAGE_ID) then
      bucket ← blocks t !! bucket_id;
      '(result', rtn) ← GetValue_loop (BLOCK_ARRAY_SIZE - offset) offset bucket key
                          result false;
      Some (result', rtn,
            [FetchPage (header_page_id_ t); FetchPage bucket_id;
             UnpinPage bucket_id false; UnpinPage (header_page_id_ t) false])
    else
      Some (result, false,
            [FetchPage (header_page_id_ t); UnpinPage (header_page_id_ t) false]).

(** The [while (header->NumBlocks() <= idx)] loop of [Insert]; [n] counts the
    remaining iterations, [idx + 1 - NumBlocks]. *)
Fixpoint grow (n : nat) (t : HashTable) (tr : list call) : HashTable * list call :=
  match n with
  | O => (t, tr)
  | S n' =>
    let tmp := next_page_id_ t in
    grow n'
      (Build (header_page_id_ t) (AddBlockPageId (header t) tmp)
             (<[tmp := Block.empty BLOCK_ARRAY_SIZE zero_entry]> (blocks t))
             (tmp + 1)%Z)
      (tr ++ [NewPage tmp; UnpinPage tmp false])
  end.

(** The probing loop of [Insert],
    [while (iter < BLOCK_ARRAY_SIZE && !ins_suc)]. *)
Fixpoint Insert_loop (n : nat) (iter : nat) (bucket : BlockPage) (key : K) (value : V)
  : option (BlockPage * bool) :=
  match n with
  | O => Some (bucket, false)
  | S n' =>
    '(bucket', ins_suc) ← Block.Insert BLOCK_ARRAY_SIZE bucket iter key value;
    brk ← pair_matches bucket' iter key value;
    if brk : bool then Some (bucket', ins_suc)
    else if ins_suc : bool then Some (bucket', true)
    else Insert_loop n' (S iter) bucket' key value
  end.

(** [LinearProbeHashTable::Insert] *)
Definition Insert (t : HashTable) (key : K) (value : V)
  : option (HashTable * bool * list call) :=
  let num_buckets := GetSize_header (header t) in
  let hashVal := hash_fn_ key in
  if bool_decide (num_buckets = 0) then None
  else
    let idx := hashVal mod num_buckets in
    let offset := hashVal mod BLOCK_ARRAY_SIZE in
    let '(t1, tr) := grow (idx + 1 - NumBlocks (header t)) t
                       [FetchPage (header_page_id_ t)] in
    let bucket_id := GetBlockPageId (header t1) idx in
    bucket ← blocks t1 !! bucket_id;
    '(bucket', ins_suc) ← Insert_loop (BLOCK_ARRAY_SIZE - offset) offset bucket key value;
    Some (Build (header_page_id_ t1) (header t1)
                (<[bucket_id := bucket']> (blocks t1)) (next_page_id_ t1),
          ins_suc,
          tr ++ [FetchPage bucket_id; UnpinPage bucket_id true;
                 UnpinPage (header_page_id_ t) true]).

(** The [while (offset < BLOCK_ARRAY_SIZE)] loop of [Remove]: the block and
    the value of [offset] when the loop is left. *)
Fixpoint Remove_loop (n : nat) (offset : nat) (bucket : BlockPage) (key : K) (value : V)
  : option (BlockPage * nat) :=
  match n with
  | O => Some (bucket, offset)
  | S n' =>
    m ← pair_matches bucket offset key value;
    if m : bool then Some (Block.Remove BLOCK_ARRAY_SIZE bucket offset, offset)
    else Remove_loop n' (S offset) bucket key value
  end.

(** [LinearProbeHashTable::Remove] *)
Definition Remove (t : HashTable) (key : K) (value : V)
  : option (HashTable * bool * list call) :=
  let num_buckets := GetSize_header (header t) in
  let hashVal := hash_fn_ key in
  if bool_decide (num_buckets = 0) then None
  else
    let idx := hashVal mod num_buckets in
    let offset := hashVal mod BLOCK_ARRAY_SIZE in
    let bucket_id := GetBlockPageId (header t) idx in
    if bool_decide (bucket_id = BPM.INVALID_PAGE_ID) then
      Some (t, false, [FetchPage (header_page_id_ t); FetchPage bucket_id])
    else
      bucket ← blocks t !! bucket_id;
      '(bucket', offset') ← Remove_loop (BLOCK_ARRAY_SIZE - offset) offset bucket key value;
      Some (Build (header_page_id_ t) (header t)
                  (<[bucket_id := bucket']> (blocks t)) (next_page_id_ t),
            bool_decide (offset' < BLOCK_ARRAY_SIZE),
            [FetchPage (header_page_id_ t); FetchPage bucket_id;
             UnpinPage bucket_id true; UnpinPage (header_page_id_ t) false]).

(** [LinearProbeHashTable::GetSize] *)
Definition GetSize (t : HashTable) : nat * list call :=
  (NumBlocks (header t),
   [FetchPage (header_page_id_ t); UnpinPage (header_page_id_ t) false]).

(** *** Notions used to state the properties of the table *)

(** The start of the probe region of [key] inside its block. *)
Definition offset_of (key : K) : nat := hash_fn_ key mod BLOCK_ARRAY_SIZE.

(** Slot [i] of [bucket] is live and holds [value] under a key that the
    comparator finds equal to [key]. *)
Definition holds (bucket : BlockPage) (i : nat) (key : K) (value : V) : Prop :=
  Block.IsReadable BLOCK_ARRAY_SIZE bucket i = true ∧
  ∃ k, Block.array_ bucket !! i = Some (k, value) ∧ comparator_ k key = 0%Z.

(** The block page that [hash(key)] selects, when the header lists one. *)
Record has_bucket (t : HashTable) (key : K) (bucket_id : Z) (bucket : BlockPage)
  : Prop := {
  hb_size : size_ (header t) ≠ 0;
  hb_listed : block_page_ids_ (header t) !! (hash_fn_ key mod size_ (header t))
              = Some bucket_id;
  hb_valid : bucket_id ≠ BPM.INVALID_PAGE_ID;
  hb_page : blocks t !! bucket_id = Some bucket;
  hb_wf : Block.wf BLOCK_ARRAY_SIZE bucket
}.

(** What [GetValue] is meant to collect, in the words of the spec: the value
    of every live slot at a position at or after [offset] whose key equals
    [key], in slot order. *)
Definition slot_value (bucket : BlockPage) (key : K) (i : nat) : option V :=
  if Block.IsReadable BLOCK_ARRAY_SIZE bucket i then
    match Block.array_ bucket !! i with
    | Some (k, v) => if (comparator_ k key =? 0)%Z then Some v else None
    | None => None
    end
  else None.

Definition matching_values (bucket : BlockPage) (key : K) (offset : nat) : list V :=
  omap (slot_value bucket key) (seq offset (BLOCK_ARRAY_SIZE - offset)).

(** The shape of a block that insertions and removals maintain: a live slot
    lies in the probe region of its key, every slot between the start of
    that region and the live slot has been occupied at some time, and no
    pair is live twice. *)
Record bucket_inv (b : BlockPage) : Prop := {
  b_wf : Block.wf BLOCK_ARRAY_SIZE b;
  b_readable : Block.readable_occupied BLOCK_ARRAY_SIZE b;
  b_chain : ∀ j k v, j < BLOCK_ARRAY_SIZE →
    Block.IsReadable BLOCK_ARRAY_SIZE b j = true →
    Block.array_ b !! j = Some (k, v) →
    offset_of k ≤ j ∧
    ∀ i, offset_of k ≤ i < j → Block.IsOccupied BLOCK_ARRAY_SIZE b i = true;
  b_unique : ∀ i j kv, i < BLOCK_ARRAY_SIZE → j < BLOCK_ARRAY_SIZE →
    Block.IsReadable BLOCK_ARRAY_SIZE b i = true →
    Block.IsReadable BLOCK_ARRAY_SIZE b j = true →
    Block.array_ b !! i = Some kv → Block.array_ b !! j = Some kv → i = j
}.

Record table_inv (t : HashTable) : Prop := {
  t_size : size_ (header t) ≠ 0;
  t_next : (0 ≤ next_page_id_ t)%Z;
  t_blocks : ∀ idx bucket_id, block_page_ids_ (header t) !! idx = Some bucket_id →
    bucket_id ≠ BPM.INVALID_PAGE_ID ∧
    ∃ b, blocks t !! bucket_id = Some b ∧ bucket_inv b
}.

(** The states of a table: what the constructor builds (with a positive
    number of buckets, on page ids handed out from a non-negative counter)
    and what [Insert] and [Remove] make of a state.  [GetValue] and
    [GetSize] leave the table as it is. *)
Inductive reachable : HashTable → Prop :=
  | reach_create num_buckets next_page_id :
      num_buckets ≠ 0 → (0 ≤ next_page_id)%Z →
      reachable (create num_buckets next_page_id).1
  | reach_Insert t key value t' r tr :
      reachable t → Insert t key value = Some (t', r, tr) → reachable t'
  | reach_Remove t key value t' r tr :
      reachable t → Remove t key value = Some (t', r, tr) → reachable t'.

(** *** Notions used to state further properties of the table *)

(** The pair [(key, value)] is stored in the table: some slot of the block
    page that [hash(key)] selects is live and holds it. *)
Definition stored (t : HashTable) (key : K) (value : V) : Prop :=
  ∃ bucket_id bucket j,
    block_page_ids_ (header t) !! (hash_fn_ key mod size_ (header t)) = Some bucket_id ∧
    blocks t !! bucket_id = Some bucket ∧
    j < BLOCK_ARRAY_SIZE ∧ holds bucket j key value.

(** The probe region of [key] has no free slot left: every slot from its
    offset to the end of its block has been occupied at some time. *)
Definition region_full (t : HashTable) (key : K) : Prop :=
  ∃ bucket_id bucket,
    block_page_ids_ (header t) !! (hash_fn_ key mod size_ (header t)) = Some bucket_id ∧
    blocks t !! bucket_id = Some bucket ∧
    ∀ j, offset_of key ≤ j < BLOCK_ARRAY_SIZE →
         Block.IsOccupied BLOCK_ARRAY_SIZE bucket j = true.

(** The block pages listed in the header were handed out by earlier
    [NewPage] calls: their ids lie below the next id. *)
Definition ids_below (t : HashTable) : Prop :=
  ∀ idx bucket_id, block_page_ids_ (header t) !! idx = Some bucket_id →
    (bucket_id < next_page_id_ t)%Z.

End WithTypes.

Arguments HashTable : clear implicits.

End LPHT.

(** ** An instance for the examples: [LinearProbeHashTable<int, int, IntComparator>] *)

Module IntTable.

(** Modelled from the spec: an [IntComparator] (the comparators are outside
    the sources), answering -1, 1 or 0. *)
Definition IntComparator (lhs rhs : Z) : Z :=
  if (lhs <? rhs)%Z then (-1)%Z else if (rhs <? lhs)%Z then 1%Z else 0%Z.

(** The examples use blocks of 8 slots and hash a non-negative key to
    itself; the theorems hold for every block size and hash function. *)
Definition SLOTS : nat := 8.
Definition hash (key : Z) : nat := Z.to_nat key.
Definition zero_entry : Z * Z := (0%Z, 0%Z).

Definition Insert := LPHT.Insert (V:=Z) SLOTS zero_entry IntComparator hash.
Definition GetValue := LPHT.GetValue (V:=Z) SLOTS IntComparator hash.
Definition Remove := LPHT.Remove (V:=Z) SLOTS IntComparator hash.

(** A table of two buckets whose header is page 0. *)
Definition fresh : LPHT.HashTable Z Z := (LPHT.create 2 0).1.

Definition state_of (r : option (LPHT.HashTable Z Z * bool * list LPHT.call))
  : LPHT.HashTable Z Z :=
  match r with Some (t, _, _) => t | None => fresh end.

(** Scenario S5 of the spec: keys 5, 9 and 14 are inserted. *)
Definition table1 : LPHT.HashTable Z Z := state_of (Insert fresh 5 50)%Z.
Definition table2 : LPHT.HashTable Z Z := state_of (Insert table1 9 90)%Z.
Definition table3 : LPHT.HashTable Z Z := state_of (Insert table2 14 140)%Z.
(** A second value under key 5, stored further along the probe region. *)
Definition table4 : LPHT.HashTable Z Z := state_of (Insert table3 5 51)%Z.

(** Block page 2 of those tables, where keys 5 and 9 live. *)
Definition bucket3 : Block.BlockPage Z Z :=
  default (Block.empty SLOTS zero_entry) (LPHT.blocks table3 !! 2%Z).
Definition bucket4 : Block.BlockPage Z Z :=
  default (Block.empty SLOTS zero_entry) (LPHT.blocks table4 !! 2%Z).

Definition flag_of (r : option (LPHT.HashTable Z Z * bool * list LPHT.call)) : bool :=
  match r with Some (_, b, _) => b | None => false end.
Definition trace_of (r : option (LPHT.HashTable Z Z * bool * list LPHT.call))
  : list LPHT.call :=
  match r with Some (_, _, tr) => tr | None => [] end.

(** A block of 8 slots whose only live slot is slot 6, holding [(2, 20)];
    slots 2 to 5, where the probe region of key 2 starts, were never
    occupied. *)
Definition gap_block : Block.BlockPage Z Z :=
  {| Block.occupied_ := [64%Z]; Block.readable_ := [64%Z];
     Block.array_ := <[6 := (2%Z, 20%Z)]> (replicate 8 zero_entry) |}.

Definition gap_table : LPHT.HashTable Z Z :=
  {| LPHT.header_page_id_ := 0;
     LPHT.header := LPHT.BuildHeader 0 1 [1%Z];
     LPHT.blocks := {[ 1%Z := gap_block ]};
     LPHT.next_page_id_ := 2 |}.

End IntTable.

(** * Properties *)

(** ** Machine integers and arrays *)

Lemma int32_t_small z : (- 2 ^ 31 ≤ z < 2 ^ 31)%Z → int32_t z = z.
Proof.
  intros Hz. unfold int32_t.
  rewrite Z.mod_small; lia.
Qed.

Lemma vec_read_Some {A} (v : list A) i x :
  vec_read v i = Some x ↔ (0 ≤ i)%Z ∧ v !! Z.to_nat i = Some x.
Proof.
  unfold vec_read. case_bool_decide as Hi.
  - split; [by intros ?|by intros [_ ?]].
  - split; [done|]. intros [? _]. lia.
Qed.

Lemma vec_read_in_range {A} (v : list A) i :
  (0 ≤ i < Z.of_nat (length v))%Z → ∃ x, vec_read v i = Some x.
Proof.
  intros Hi. unfold vec_read. rewrite bool_decide_eq_true_2 by lia.
  destruct (lookup_lt_is_Some_2 v (Z.to_nat i)) as [x Hx]; [lia|]. eauto.
Qed.

Lemma vec_write_in_range {A} (v : list A) i x :
  (0 ≤ i < Z.of_nat (length v))%Z →
  vec_write v i x = Some (<[Z.to_nat i := x]> v).
Proof. intros Hi. unfold vec_write. by rewrite bool_decide_eq_true_2. Qed.

Lemma vec_write_negative {A} (v : list A) i x :
  (i < 0)%Z → vec_write v i x = None.
Proof. intros Hi. unfold vec_write. rewrite bool_decide_eq_false_2; [done|lia]. Qed.

Lemma vec_write_length {A} (v v' : list A) i x :
  vec_write v i x = Some v' → length v' = length v.
Proof.
  unfold vec_write. case_bool_decide; intros ?; simplify_eq.
  apply length_insert.
Qed.

Lemma vec_read_write_eq {A} (v v' : list A) i x :
  vec_write v i x = Some v' → vec_read v' i = Some x.
Proof.
  unfold vec_write, vec_read. case_bool_decide; intros ?; simplify_eq.
  rewrite bool_decide_eq_true_2 by lia.
  apply list_lookup_insert_eq. lia.
Qed.

Lemma vec_read_write_ne {A} (v v' : list A) i j x :
  vec_write v i x = Some v' → i ≠ j → vec_read v' j = vec_read v j.
Proof.
  unfold vec_write, vec_read. case_bool_decide; intros ? Hne; simplify_eq.
  case_bool_decide; [|done].
  apply list_lookup_insert_ne. lia.
Qed.

(** ** The clock replacer *)

Module ClockProps.
Import Clock.
Local Open Scope Z_scope.

Lemma wf_create n : 0 ≤ n < 2 ^ 31 → wf (create n).
Proof.
  intros Hn. split; simpl; rewrite ?length_replicate; lia.
Qed.

Lemma sweep_pos_range s d :
  0 < buffer_size s → 0 ≤ sweep_pos s d < buffer_size s.
Proof. intros HN. unfold sweep_pos. apply Z.mod_pos_bound. lia. Qed.

Lemma sweep_index s d :
  wf s → 0 < buffer_size s →
  int32_t ((clock_hand s + d) mod buffer_size s) = sweep_pos s d.
Proof.
  intros Hwf HN. pose proof (sweep_pos_range s d HN) as Hr.
  pose proof (wf_size s Hwf). unfold sweep_pos in *.
  apply int32_t_small. lia.
Qed.

(** Distinct steps of one sweep visit distinct positions. *)
Lemma sweep_pos_inj s d1 d2 :
  0 ≤ d1 < buffer_size s → 0 ≤ d2 < buffer_size s →
  sweep_pos s d1 = sweep_pos s d2 → d1 = d2.
Proof.
  intros H1 H2 Heq. unfold sweep_pos in Heq.
  assert (HN : buffer_size s ≠ 0) by lia.
  pose proof (Z.div_mod (clock_hand s + d1) (buffer_size s) HN) as E1.
  pose proof (Z.div_mod (clock_hand s + d2) (buffer_size s) HN) as E2.
  rewrite Heq in E1.
  set (q1 := (clock_hand s + d1) / buffer_size s) in *.
  set (q2 := (clock_hand s + d2) / buffer_size s) in *.
  assert (q1 = q2) by nia. subst q1. nia.
Qed.

(** Every frame of the clock is visited by a sweep. *)
Lemma sweep_pos_surj s f :
  0 ≤ f < buffer_size s →
  ∃ d, 0 ≤ d < buffer_size s ∧ sweep_pos s d = f.
Proof.
  intros Hf. exists ((f - clock_hand s) mod buffer_size s). split.
  - apply Z.mod_pos_bound. lia.
  - unfold sweep_pos. rewrite Zplus_mod_idemp_r.
    replace (clock_hand s + (f - clock_hand s)) with f by lia.
    apply Z.mod_small. lia.
Qed.

Lemma in_replacer_range s f : wf s → in_replacer s f → 0 ≤ f < buffer_size s.
Proof.
  intros Hwf Hin. apply vec_read_Some in Hin as [? Hl].
  apply lookup_lt_Some in Hl. pose proof (wf_in s Hwf). lia.
Qed.

(** What one run of the sweep loop of [Victim] does, from step [i] on. *)
Lemma Victim_loop_spec n : ∀ i candi s,
  wf s → 0 ≤ i → i + Z.of_nat n = buffer_size s →
  ∃ s' candi' found,
    Victim_loop n i candi s = Some (s', candi', found) ∧
    wf s' ∧ buffer_size s' = buffer_size s ∧
    match found with
    | Some f =>
      (∃ d, i ≤ d < buffer_size s ∧ f = sweep_pos s d) ∧
      in_replacer s f ∧ in_f s' = <[Z.to_nat f := false]> (in_f s)
    | None =>
      in_f s' = in_f s ∧ clock_hand s' = clock_hand s ∧
      ((candi ≠ -1 ∧ candi' = candi) ∨
       (candi = -1 ∧ candi' = -1 ∧
        ∀ d, i ≤ d < buffer_size s → ¬ in_replacer s (sweep_pos s d)) ∨
       (candi = -1 ∧ ∃ d, i ≤ d < buffer_size s ∧ candi' = sweep_pos s d ∧
          in_replacer s candi' ∧
          ∀ d', i ≤ d' < d → ¬ in_replacer s (sweep_pos s d')))
    end.
Proof.
  induction n as [|n IH]; intros i candi s Hwf Hi Hn.
  - simpl. exists s, candi, None. split; [done|]. split; [done|]. split; [done|].
    split; [done|]. split; [done|].
    destruct (decide (candi = -1)) as [->|Hc]; [right; left|left; done].
    split; [done|]. split; [done|]. intros d Hd. lia.
  - assert (HN : 0 < buffer_size s) by lia.
    pose proof (sweep_pos_range s i HN) as Hr.
    pose proof (wf_in s Hwf) as Hlin. pose proof (wf_ref s Hwf) as Hlref.
    destruct (vec_read_in_range (in_f s) (sweep_pos s i)) as [inb Hinb]; [lia|].
    destruct (vec_read_in_range (ref_f s) (sweep_pos s i)) as [refb Hrefb]; [lia|].
    cbn [Victim_loop]. rewrite sweep_index by done. rewrite Hinb. cbn [mbind option_bind].
    destruct inb.
    + rewrite Hrefb. cbn [mbind option_bind]. destruct refb; cbn [negb].
      * rewrite vec_write_in_range by lia. cbn [mbind option_bind].
        set (s1 := Build (clock_hand s) (buffer_size s) _ (in_f s)).
        assert (Hwf1 : wf s1).
        { destruct Hwf. split; simpl; rewrite ?length_insert; done. }
        destruct (IH (i + 1) (if candi =? -1 then sweep_pos s i else candi) s1 Hwf1)
          as (s' & candi' & found & Hrun & Hwf' & Hsz & Hfound); [lia|simpl; lia|].
        exists s', candi', found. split; [done|]. split; [done|]. split; [done|].
        destruct found as [f|].
        -- destruct Hfound as ((d & Hd & ->) & Hf & Hf'). simpl in Hd.
           split; [exists d; split; [lia|done]|]. split; done.
        -- destruct Hfound as (Hin & Hh & Hc). simpl in Hin, Hh.
           split; [done|]. split; [done|].
           destruct (Z.eqb_spec candi (-1)) as [->|Hne].
           ++ right; right. split; [done|]. exists i.
              destruct Hc as [[_ ->]|[[Heq _]|[Heq _]]]; [|lia..].
              split; [lia|]. split; [done|]. split; [done|]. intros d' Hd'; lia.
           ++ left. destruct Hc as [[_ ->]|[[Heq _]|[Heq _]]]; done.
      * rewrite vec_write_in_range by lia. cbn [mbind option_bind].
        eexists _, candi, (Some (sweep_pos s i)). split; [done|].
        split.
        { destruct Hwf. split; simpl; rewrite ?length_insert; try done.
          pose proof (Z.mod_pos_bound (sweep_pos s i + 1) (buffer_size s) HN). lia. }
        split; [done|]. split; [exists i; split; [lia|done]|]. split; done.
    + destruct (IH (i + 1) candi s Hwf) as (s' & candi' & found & Hrun & Hwf' & Hsz & Hfound);
        [lia|lia|].
      exists s', candi', found. split; [done|]. split; [done|]. split; [done|].
      destruct found as [f|].
      * destruct Hfound as ((d & Hd & ->) & Hf & Hf').
        split; [exists d; split; [lia|done]|]. split; done.
      * destruct Hfound as (Hin & Hh & Hc). split; [done|]. split; [done|].
        assert (Hni : ¬ in_replacer s (sweep_pos s i)).
        { unfold in_replacer. rewrite Hinb. done. }
        destruct Hc as [Hc|[(Hc1 & Hc2 & Hall)|(Hc1 & d & Hd & Hc2 & Hc3 & Hall)]].
        -- left; done.
        -- right; left. split; [done|]. split; [done|]. intros d Hd.
           destruct (decide (d = i)) as [->|]; [done|]. apply Hall. lia.
        -- right; right. split; [done|]. exists d. split; [lia|]. split; [done|].
           split; [done|]. intros d' Hd'.
           destruct (decide (d' = i)) as [->|]; [done|]. apply Hall. lia.
Qed.

(** When every candidate still ahead in the sweep has its reference bit set,
    the loop clears bits and never leaves through [break]. *)
Lemma Victim_loop_all_ref n : ∀ i candi s s' candi' found,
  wf s → 0 ≤ i → i + Z.of_nat n = buffer_size s →
  (∀ d, i ≤ d < buffer_size s → in_replacer s (sweep_pos s d) →
        vec_read (ref_f s) (sweep_pos s d) = Some true) →
  Victim_loop n i candi s = Some (s', candi', found) → found = None.
Proof.
  induction n as [|n IH]; intros i candi s s' candi' found Hwf Hi Hn Href Hrun.
  - simpl in Hrun. by simplify_eq.
  - assert (HN : 0 < buffer_size s) by lia.
    pose proof (sweep_pos_range s i HN) as Hr.
    pose proof (wf_ref s Hwf) as Hlref.
    cbn [Victim_loop] in Hrun. rewrite sweep_index in Hrun by done.
    destruct (vec_read (in_f s) (sweep_pos s i)) as [inb|] eqn:Hinb; [|done].
    cbn [mbind option_bind] in Hrun. destruct inb.
    + rewrite (Href i) in Hrun by (done || lia).
      cbn [mbind option_bind negb] in Hrun.
      rewrite vec_write_in_range in Hrun by lia.
      cbn [mbind option_bind] in Hrun.
      eapply IH in Hrun; [done| |lia|simpl; lia|].
      { destruct Hwf. split; simpl; rewrite ?length_insert; done. }
      intros d Hd Hin. simpl in Hd.
      change (vec_read (<[Z.to_nat (sweep_pos s i) := false]> (ref_f s)) (sweep_pos s d)
              = Some true).
      rewrite <- (Href d) by (done || lia).
      unfold vec_read. pose proof (sweep_pos_range s d HN).
      rewrite !bool_decide_eq_true_2 by lia.
      apply list_lookup_insert_ne.
      intros Heq. assert (sweep_pos s i = sweep_pos s d) as Hpos by lia.
      apply sweep_pos_inj in Hpos; lia.
    + eapply IH in Hrun; [done|done|lia|lia|].
      intros d Hd. apply Href. lia.
Qed.

(** [Size] counts the candidates: it is positive exactly when there is one. *)
Lemma Size_loop_spec s n : ∀ i counter,
  wf s → 0 ≤ i → i + Z.of_nat n ≤ buffer_size s →
  ∃ c, Size_loop n i counter s = Some c ∧ counter ≤ c ∧
       (counter < c ↔ ∃ f, i ≤ f < i + Z.of_nat n ∧ in_replacer s f).
Proof.
  induction n as [|n IH]; intros i counter Hwf Hi Hn.
  - exists counter. split; [done|]. split; [lia|]. split; [lia|]. intros (f & ? & _). lia.
  - pose proof (wf_in s Hwf) as Hlin.
    destruct (vec_read_in_range (in_f s) i) as [b Hb]; [lia|].
    cbn [Size_loop]. rewrite Hb. cbn [mbind option_bind].
    destruct (IH (i + 1) (if b then counter + 1 else counter) Hwf) as (c & Hc & Hle & Hiff);
      [lia|lia|].
    exists c. split; [done|]. destruct b.
    + split; [lia|]. split; [|lia]. intros _. exists i. split; [lia|done].
    + split; [lia|]. rewrite Hiff. split.
      * intros (f & Hf & Hin). exists f. split; [lia|done].
      * intros (f & Hf & Hin). exists f. split; [|done].
        destruct (decide (f = i)) as [->|]; [|lia].
        unfold in_replacer in Hin. congruence.
Qed.

Lemma Size_positive s :
  wf s → ∃ c, Size s = Some c ∧ 0 ≤ c ∧ (0 < c ↔ ∃ f, in_replacer s f).
Proof.
  intros Hwf. pose proof (wf_size s Hwf).
  destruct (Size_loop_spec s (Z.to_nat (buffer_size s)) 0 0 Hwf) as (c & Hc & Hle & Hiff);
    [lia|lia|].
  exists c. split; [done|]. split; [done|]. rewrite Hiff. split.
  - intros (f & _ & Hin). eauto.
  - intros (f & Hin). exists f. split; [|done].
    apply in_replacer_range in Hin; [|done]. lia.
Qed.

(** The effect of [Victim] on a well-formed replacer. *)
Lemma Victim_effect s :
  wf s →
  ∃ s' r, Victim s = Some (s', r) ∧ wf s' ∧ buffer_size s' = buffer_size s ∧
    match r with
    | Some f =>
      in_replacer s f ∧ in_f s' = <[Z.to_nat f := false]> (in_f s) ∧
      ((∀ f', in_replacer s f' → vec_read (ref_f s) f' = Some true) → first_in_sweep s f)
    | None => s' = s ∧ ∀ f, ¬ in_replacer s f
    end.
Proof.
  intros Hwf. pose proof (wf_size s Hwf) as HNr.
  destruct (Victim_loop_spec (Z.to_nat (buffer_size s)) 0 (-1) s Hwf)
    as (s1 & candi & found & Hrun & Hwf1 & Hsz & Hfound); [lia|lia|].
  unfold Victim. rewrite Hrun. cbn [mbind option_bind].
  destruct found as [f|].
  - destruct Hfound as ((d & Hd & ->) & Hin & Hout).
    eexists _, _. split; [done|]. split; [done|]. split; [done|].
    split; [done|]. split; [done|].
    intros Href. eapply Victim_loop_all_ref in Hrun; [done|done|lia|lia|].
    intros d' _. apply Href.
  - destruct Hfound as (Hin & Hh & [[Hc _]|[(_ & -> & Hall)|(_ & d & Hd & -> & Hcand & Hfirst)]]);
      [done| |].
    + assert (Hnone : ∀ f, ¬ in_replacer s f).
      { intros f Hf. pose proof (in_replacer_range s f Hwf Hf) as Hfr.
        destruct (sweep_pos_surj s f Hfr) as (d & Hd & <-).
        by apply (Hall d). }
      cbn. eexists _, _. split; [done|]. split; [done|]. split; [done|].
      split; [|done].
      (* no candidate: the loop wrote nothing *)
      clear -Hrun Hnone Hwf HNr.
      assert (Hgen : ∀ n i c s1 c1, 0 ≤ i → i + Z.of_nat n = buffer_size s →
                Victim_loop n i c s = Some (s1, c1, None) → s1 = s).
      { induction n as [|n IH]; intros i c s1' c1 Hi Hn Hr.
        - simpl in Hr. by simplify_eq.
        - assert (HN : 0 < buffer_size s) by lia.
          cbn [Victim_loop] in Hr. rewrite sweep_index in Hr by done.
          destruct (vec_read (in_f s) (sweep_pos s i)) as [[]|] eqn:Hb; [| |done].
          + by apply Hnone in Hb.
          + cbn [mbind option_bind] in Hr. eapply (IH (i + 1)); [lia|lia|done]. }
      eapply (Hgen (Z.to_nat (buffer_size s)) 0); [lia|lia|done].
    + assert (HN : 0 < buffer_size s) by lia.
      pose proof (sweep_pos_range s d HN) as Hr.
      pose proof (wf_in s Hwf) as Hlin.
      destruct (Z.eqb_spec (sweep_pos s d) (-1)) as [?|_]; [lia|].
      rewrite Hin, vec_write_in_range by lia. cbn [mbind option_bind].
      eexists _, _. split; [done|]. split.
      { destruct Hwf1 as [? ? ? ?]. split; simpl; rewrite ?length_insert; try done; try lia.
        rewrite Hsz.
        pose proof (Z.mod_pos_bound (sweep_pos s d + 1) (buffer_size s) HN). lia. }
      split; [done|]. split; [done|]. split; [done|].
      intros _. exists d. split; [lia|]. done.
Qed.

(** C5.  On every well-formed replacer [Victim] runs to completion; it
    returns a frame whenever some frame is a candidate (equivalently whenever
    [Size() > 0]) and returns none exactly when there is no candidate; the
    frame returned was a candidate and no longer is one; and when every
    candidate has its reference bit set (the fallback path), the frame
    returned is the first candidate in sweep order from [clock_hand]. *)
Theorem Victim_succeeds_iff_candidate s :
  wf s →
  ∃ s' r, Victim s = Some (s', r) ∧ wf s' ∧
    ((∃ f, in_replacer s f) → ∃ f, r = Some f) ∧
    (∃ c, Size s = Some c ∧ (0 < c → ∃ f, r = Some f)) ∧
    (r = None ↔ ∀ f, ¬ in_replacer s f) ∧
    (∀ f, r = Some f → in_replacer s f ∧ vec_read (in_f s') f = Some false) ∧
    ((∀ f, in_replacer s f → vec_read (ref_f s) f = Some true) →
     ∀ f, r = Some f → first_in_sweep s f).
Proof.
  intros Hwf.
  destruct (Victim_effect s Hwf) as (s' & r & HV & Hwf' & Hsz & Hr).
  exists s', r. split; [done|]. split; [done|].
  assert (Hnone : r = None ↔ ∀ f, ¬ in_replacer s f).
  { destruct r as [f|].
    - split; [done|]. intros Hall. destruct Hr as [Hin _]. by apply Hall in Hin.
    - split; [|done]. intros _. apply Hr. }
  assert (Hex : (∃ f, in_replacer s f) → ∃ f, r = Some f).
  { intros (f & Hf). destruct r as [f'|]; [eauto|].
    destruct Hnone as [Hnone _]. by apply (Hnone eq_refl) in Hf. }
  split; [done|]. split.
  { destruct (Size_positive s Hwf) as (c & Hc & _ & Hiff).
    exists c. split; [done|]. intros Hpos. apply Hex, Hiff, Hpos. }
  split; [done|]. split.
  - intros f ->. destruct Hr as (Hin & Hout & _). split; [done|]. rewrite Hout.
    pose proof (in_replacer_range s _ Hwf Hin). pose proof (wf_in s Hwf).
    unfold vec_read. rewrite bool_decide_eq_true_2 by lia.
    apply list_lookup_insert_eq. lia.
  - intros Href f ->. destruct Hr as (_ & _ & Hfirst). by apply Hfirst.
Qed.

Lemma Victim_succeeds_iff_candidate_witness :
  wf sample ∧
  ∃ s' r, Victim sample = Some (s', r) ∧ wf s' ∧
    ((∃ f, in_replacer sample f) → ∃ f, r = Some f) ∧
    (∃ c, Size sample = Some c ∧ (0 < c → ∃ f, r = Some f)) ∧
    (r = None ↔ ∀ f, ¬ in_replacer sample f) ∧
    (∀ f, r = Some f → in_replacer sample f ∧ vec_read (in_f s') f = Some false) ∧
    ((∀ f, in_replacer sample f → vec_read (ref_f sample) f = Some true) →
     ∀ f, r = Some f → first_in_sweep sample f).
Proof.
  assert (Hwf : wf sample) by (split; simpl; lia).
  split; [exact Hwf|]. exact (Victim_succeeds_iff_candidate sample Hwf).
Defined.

(** *** Scenario S4 *)

(** C4, as stated, fails: the first [Victim] of scenario S4 does not return
    frame 1. *)
Lemma S4_first_victim_is_not_frame_1 :
  ¬ ∃ s s', scenario_S4 = Some s ∧ Victim s = Some (s', Some 1).
Proof.
  intros (s & s' & Hs & Hv). vm_compute in Hs. injection Hs as <-.
  vm_compute in Hv. discriminate Hv.
Qed.

(** C4, amended.  [Unpin] sets the reference bit at every call, so in
    scenario S4 all three frames are candidates with the bit set.  The first
    [Victim] clears the three bits, finds no candidate without one, and
    falls back on the first candidate it met: it returns frame 0 and leaves
    the hand on position 1. *)
Theorem S4_first_victim_is_frame_0 :
  scenario_S4 ≫= Victim =
  Some ({| clock_hand := 1; buffer_size := 3;
           ref_f := [false; false; false];
           in_f := [false; true; true] |}, Some 0).
Proof. vm_compute. reflexivity. Qed.

(** *** Pin and Unpin *)

Lemma int32_t_capacity s : wf s → int32_t (buffer_size s) = buffer_size s.
Proof. intros Hwf. pose proof (wf_size s Hwf). apply int32_t_small. lia. Qed.

Lemma Pin_in_range s f :
  wf s → 0 ≤ f < buffer_size s →
  Pin f s = Some (Build (clock_hand s) (buffer_size s) (ref_f s)
                        (<[Z.to_nat f := false]> (in_f s))).
Proof.
  intros Hwf Hf. unfold Pin. rewrite int32_t_capacity by done.
  destruct (Z.leb_spec (buffer_size s) f); [lia|].
  pose proof (wf_in s Hwf). by rewrite vec_write_in_range by lia.
Qed.

Lemma Unpin_in_range s f :
  wf s → 0 ≤ f < buffer_size s →
  Unpin f s = Some (Build (clock_hand s) (buffer_size s)
                          (<[Z.to_nat f := true]> (ref_f s))
                          (<[Z.to_nat f := true]> (in_f s))).
Proof.
  intros Hwf Hf. unfold Unpin. rewrite int32_t_capacity by done.
  destruct (Z.leb_spec (buffer_size s) f); [lia|].
  pose proof (wf_in s Hwf). pose proof (wf_ref s Hwf).
  by rewrite !vec_write_in_range by lia.
Qed.

(** Ids at or above the capacity are ignored. *)
Lemma Pin_above_capacity s f : wf s → buffer_size s ≤ f → Pin f s = Some s.
Proof.
  intros Hwf Hf. unfold Pin. rewrite int32_t_capacity by done.
  destruct (Z.leb_spec (buffer_size s) f); [done|lia].
Qed.

Lemma Unpin_above_capacity s f : wf s → buffer_size s ≤ f → Unpin f s = Some s.
Proof.
  intros Hwf Hf. unfold Unpin. rewrite int32_t_capacity by done.
  destruct (Z.leb_spec (buffer_size s) f); [done|lia].
Qed.

(** Negative ids pass the guard and reach the vectors. *)
Lemma Pin_negative s f : wf s → f < 0 → Pin f s = None.
Proof.
  intros Hwf Hf. unfold Pin. rewrite int32_t_capacity by done.
  pose proof (wf_size s Hwf).
  destruct (Z.leb_spec (buffer_size s) f); [lia|].
  by rewrite vec_write_negative.
Qed.

Lemma Unpin_negative s f : wf s → f < 0 → Unpin f s = None.
Proof.
  intros Hwf Hf. unfold Unpin. rewrite int32_t_capacity by done.
  pose proof (wf_size s Hwf).
  destruct (Z.leb_spec (buffer_size s) f); [lia|].
  by rewrite (vec_write_negative (in_f s)).
Qed.

Lemma Pin_wf s s' f : wf s → Pin f s = Some s' → wf s'.
Proof.
  intros Hwf. unfold Pin. destruct (_ <=? _); [by intros [= <-]|].
  destruct (vec_write _ _ _) as [v|] eqn:Hv; [|done]. intros [= <-].
  apply vec_write_length in Hv. destruct Hwf. split; simpl; try done. lia.
Qed.

Lemma Unpin_wf s s' f : wf s → Unpin f s = Some s' → wf s'.
Proof.
  intros Hwf. unfold Unpin. destruct (_ <=? _); [by intros [= <-]|].
  destruct (vec_write (in_f s) _ _) as [v|] eqn:Hv; [|done].
  destruct (vec_write (ref_f s) _ _) as [w|] eqn:Hw; [|done]. intros [= <-].
  apply vec_write_length in Hv, Hw. destruct Hwf. split; simpl; try done; lia.
Qed.

(** On frames of the clock both calls are idempotent. *)
Lemma Pin_idempotent s f :
  wf s → 0 ≤ f < buffer_size s →
  ∃ s1, Pin f s = Some s1 ∧ Pin f s1 = Some s1.
Proof.
  intros Hwf Hf. eexists. split; [by apply Pin_in_range|].
  rewrite Pin_in_range; simpl; [|by eapply Pin_wf, Pin_in_range|done].
  by rewrite list_insert_insert_eq.
Qed.

Lemma Unpin_idempotent s f :
  wf s → 0 ≤ f < buffer_size s →
  ∃ s1, Unpin f s = Some s1 ∧ Unpin f s1 = Some s1.
Proof.
  intros Hwf Hf. eexists. split; [by apply Unpin_in_range|].
  rewrite Unpin_in_range; simpl; [|by eapply Unpin_wf, Unpin_in_range|done].
  by rewrite !list_insert_insert_eq.
Qed.

(** *** Counting the candidates *)

Lemma Size_loop_count s n : ∀ i counter,
  0 ≤ i → i + Z.of_nat n ≤ Z.of_nat (length (in_f s)) →
  Size_loop n i counter s =
    Some (counter + Z.of_nat (length (filter Is_true (take n (drop (Z.to_nat i) (in_f s)))))).
Proof.
  induction n as [|n IH]; intros i counter Hi Hn.
  - simpl. f_equal. lia.
  - destruct (lookup_lt_is_Some_2 (in_f s) (Z.to_nat i)) as [b Hb]; [lia|].
    cbn [Size_loop]. unfold vec_read. rewrite bool_decide_eq_true_2 by lia.
    rewrite Hb. cbn [mbind option_bind]. rewrite IH by lia.
    rewrite (drop_S _ _ _ Hb). replace (Z.to_nat (i + 1)) with (S (Z.to_nat i)) by lia.
    cbn [take]. f_equal. destruct b.
    + rewrite filter_cons_True by done. simpl. lia.
    + rewrite filter_cons_False by (by intros []). done.
Qed.

Lemma Size_candidates s : wf s → Size s = Some (candidates s).
Proof.
  intros Hwf. pose proof (wf_in s Hwf) as Hlen. pose proof (wf_size s Hwf).
  unfold Size. rewrite Size_loop_count by lia. simpl.
  rewrite drop_0, firstn_all2 by lia. done.
Qed.

(** Writing one bit changes the count by the difference of the two bits. *)
Lemma count_insert (l : list bool) (i : nat) (b0 b : bool) :
  l !! i = Some b0 →
  (Z.of_nat (length (filter Is_true (<[i := b]> l))) + (if b0 then 1 else 0) =
   Z.of_nat (length (filter Is_true l)) + (if b then 1 else 0))%Z.
Proof.
  intros Hl. pose proof (lookup_lt_Some _ _ _ Hl) as Hi.
  rewrite insert_take_drop by done.
  rewrite <- (take_drop_middle l i b0 Hl) at 3.
  rewrite !filter_app, !length_app.
  assert (Hc : ∀ (c : bool) t,
            Z.of_nat (length (filter Is_true (c :: t))) =
            ((if c then 1 else 0) + Z.of_nat (length (filter Is_true t)))%Z).
  { intros [] t.
    - rewrite filter_cons_True by done. simpl. lia.
    - rewrite filter_cons_False by (by intros []). lia. }
  rewrite !Nat2Z.inj_add, !Hc. lia.
Qed.

Lemma candidates_bound s : wf s → 0 ≤ candidates s ≤ buffer_size s.
Proof.
  intros Hwf. unfold candidates. pose proof (wf_in s Hwf).
  pose proof (length_filter Is_true (in_f s)). lia.
Qed.

Lemma in_replacer_bit s f :
  wf s → 0 ≤ f < buffer_size s →
  ∃ b, in_f s !! Z.to_nat f = Some b ∧ (in_replacer s f ↔ b = true).
Proof.
  intros Hwf Hf. pose proof (wf_in s Hwf).
  destruct (lookup_lt_is_Some_2 (in_f s) (Z.to_nat f)) as [b Hb]; [lia|].
  exists b. split; [done|]. unfold in_replacer, vec_read.
  rewrite bool_decide_eq_true_2 by lia. rewrite Hb.
  split; [by intros [= ->]|by intros ->].
Qed.

(** X11.  [Size] is the number of candidates, a number between 0 and the
    capacity, and the three mutators keep it up to date: [Pin] of a frame
    lowers it by one if the frame was a candidate and leaves it otherwise,
    [Unpin] raises it by one unless the frame was a candidate already, and
    [Victim] lowers it by one exactly when it returns a frame. *)
Theorem Size_counts_candidates s :
  wf s →
  Size s = Some (candidates s) ∧ 0 ≤ candidates s ≤ buffer_size s ∧
  (∀ f, 0 ≤ f < buffer_size s →
     ∃ s1 s2, Pin f s = Some s1 ∧ Unpin f s = Some s2 ∧
       (in_replacer s f →
        Size s1 = Some (candidates s - 1) ∧ Size s2 = Some (candidates s)) ∧
       (¬ in_replacer s f →
        Size s1 = Some (candidates s) ∧ Size s2 = Some (candidates s + 1))) ∧
  ∃ s' r, Victim s = Some (s', r) ∧
    Size s' = Some (if r is Some _ then candidates s - 1 else candidates s).
Proof.
  intros Hwf. split; [by apply Size_candidates|]. split; [by apply candidates_bound|].
  split.
  - intros f Hf.
    pose proof (Pin_in_range s f Hwf Hf) as HP.
    pose proof (Unpin_in_range s f Hwf Hf) as HU.
    eexists _, _. split; [exact HP|]. split; [exact HU|].
    rewrite (Size_candidates _ (Pin_wf _ _ _ Hwf HP)).
    rewrite (Size_candidates _ (Unpin_wf _ _ _ Hwf HU)).
    unfold candidates. simpl.
    destruct (in_replacer_bit s f Hwf Hf) as (b & Hb & Hiff).
    pose proof (count_insert (in_f s) (Z.to_nat f) b false Hb) as Hc0.
    pose proof (count_insert (in_f s) (Z.to_nat f) b true Hb) as Hc1.
    split.
    + intros Hin. apply Hiff in Hin. subst b. cbv iota in Hc0, Hc1. split; f_equal; lia.
    + intros Hin. destruct b; [by destruct Hin; apply Hiff|].
      cbv iota in Hc0, Hc1. split; f_equal; lia.
  - destruct (Victim_effect s Hwf) as (s' & r & HV & Hwf' & Hsz & Hr).
    exists s', r. split; [done|]. rewrite Size_candidates by done.
    destruct r as [f|]; [|by destruct Hr as [-> _]].
    destruct Hr as (Hin & Hinf & _). unfold candidates. rewrite Hinf.
    pose proof (in_replacer_range s f Hwf Hin) as Hf.
    destruct (in_replacer_bit s f Hwf Hf) as (b & Hb & Hiff).
    apply Hiff in Hin. subst b.
    pose proof (count_insert (in_f s) (Z.to_nat f) true false Hb) as Hc.
    cbv iota in Hc. f_equal. lia.
Qed.

Lemma Size_counts_candidates_witness :
  wf sample ∧
  Size sample = Some (candidates sample) ∧ 0 ≤ candidates sample ≤ buffer_size sample ∧
  (∀ f, 0 ≤ f < buffer_size sample →
     ∃ s1 s2, Pin f sample = Some s1 ∧ Unpin f sample = Some s2 ∧
       (in_replacer sample f →
        Size s1 = Some (candidates sample - 1) ∧ Size s2 = Some (candidates sample)) ∧
       (¬ in_replacer sample f →
        Size s1 = Some (candidates sample) ∧ Size s2 = Some (candidates sample + 1))) ∧
  ∃ s' r, Victim sample = Some (s', r) ∧
    Size s' = Some (if r is Some _ then candidates sample - 1 else candidates sample).
Proof.
  assert (Hwf : wf sample) by (split; simpl; lia).
  split; [exact Hwf|]. exact (Size_counts_candidates sample Hwf).
Defined.

(** *** The reference bits *)

(** Reading a position of the sweep after the bit of another one was
    cleared. *)
Lemma sweep_read_insert s (l : list bool) i d b :
  0 < buffer_size s → 0 ≤ i < buffer_size s → 0 ≤ d < buffer_size s → d ≠ i →
  vec_read (<[Z.to_nat (sweep_pos s i) := b]> l) (sweep_pos s d) = vec_read l (sweep_pos s d).
Proof.
  intros HN Hi Hd Hne. pose proof (sweep_pos_range s i HN). pose proof (sweep_pos_range s d HN).
  unfold vec_read. rewrite !bool_decide_eq_true_2 by lia.
  apply list_lookup_insert_ne. intros Heq.
  assert (sweep_pos s i = sweep_pos s d) as Hpos by lia.
  apply sweep_pos_inj in Hpos; lia.
Qed.

(** What the sweep loop of [Victim] does to the reference bits.  [e] is the
    step at which the loop stops. *)
Lemma Victim_loop_ref n : ∀ i candi s s' candi' found,
  wf s → 0 ≤ i → i + Z.of_nat n = buffer_size s →
  Victim_loop n i candi s = Some (s', candi', found) →
  ∃ e, i ≤ e ≤ buffer_size s ∧
    (∀ d, i ≤ d < e → in_replacer s (sweep_pos s d) →
          vec_read (ref_f s) (sweep_pos s d) = Some true ∧
          vec_read (ref_f s') (sweep_pos s d) = Some false) ∧
    (∀ d, 0 ≤ d < buffer_size s → ¬ (i ≤ d < e ∧ in_replacer s (sweep_pos s d)) →
          vec_read (ref_f s') (sweep_pos s d) = vec_read (ref_f s) (sweep_pos s d)) ∧
    match found with
    | Some f => e < buffer_size s ∧ f = sweep_pos s e ∧ in_replacer s f ∧
                vec_read (ref_f s) f = Some false ∧
                clock_hand s' = (f + 1) mod buffer_size s
    | None => e = buffer_size s
    end.
Proof.
  induction n as [|n IH]; intros i candi s s' candi' found Hwf Hi Hn Hrun.
  - simpl in Hrun. simplify_eq. exists i. split; [lia|]. split; [intros; lia|].
    split; [done|lia].
  - assert (HN : 0 < buffer_size s) by lia.
    pose proof (sweep_pos_range s i HN) as Hr.
    pose proof (wf_in s Hwf) as Hlin. pose proof (wf_ref s Hwf) as Hlref.
    cbn [Victim_loop] in Hrun. rewrite sweep_index in Hrun by done.
    destruct (vec_read (in_f s) (sweep_pos s i)) as [inb|] eqn:Hinb; [|done].
    cbn [mbind option_bind] in Hrun. destruct inb.
    + destruct (vec_read (ref_f s) (sweep_pos s i)) as [refb|] eqn:Hrefb; [|done].
      cbn [mbind option_bind] in Hrun. destruct refb; cbn [negb] in Hrun.
      * rewrite vec_write_in_range in Hrun by lia. cbn [mbind option_bind] in Hrun.
        set (s1 := Build (clock_hand s) (buffer_size s)
                     (<[Z.to_nat (sweep_pos s i) := false]> (ref_f s)) (in_f s)) in *.
        assert (Hwf1 : wf s1).
        { destruct Hwf. split; simpl; rewrite ?length_insert; done. }
        destruct (IH (i + 1) (if candi =? -1 then sweep_pos s i else candi) s1 s' candi' found
                    Hwf1) as (e & He & Hset & Hkeep & Hfound); [lia|simpl; lia|done|].
        change (buffer_size s1) with (buffer_size s) in *.
        assert (Hs1 : ∀ d, 0 ≤ d < buffer_size s → d ≠ i →
                  vec_read (ref_f s1) (sweep_pos s d) = vec_read (ref_f s) (sweep_pos s d)).
        { intros d Hd Hne. unfold s1. simpl. apply sweep_read_insert; (done || lia). }
        assert (Hi1 : vec_read (ref_f s1) (sweep_pos s i) = Some false).
        { unfold s1. simpl. unfold vec_read. rewrite bool_decide_eq_true_2 by lia.
          apply list_lookup_insert_eq. lia. }
        exists e. split; [lia|]. split; [|split].
        -- intros d Hd Hin. destruct (decide (d = i)) as [->|Hne].
           ++ split; [done|]. rewrite <- Hi1. apply (Hkeep i); [lia|]. intros [? _]. lia.
           ++ destruct (Hset d) as [H1 H2]; [lia|done|].
              split; [|done]. rewrite <- H1. symmetry. apply Hs1; lia.
        -- intros d Hd Hnot. destruct (decide (d = i)) as [->|Hne].
           ++ destruct Hnot. split; [lia|done].
           ++ rewrite <- Hs1 by done. apply (Hkeep d); [done|].
              intros [? Hin]. apply Hnot. split; [lia|done].
        -- destruct found as [f|]; [|done].
           destruct Hfound as (He' & Hf & Hin & Href & Hh).
           split; [done|]. split; [done|]. split; [done|]. split; [|done].
           rewrite <- Href. subst f. symmetry. apply Hs1; lia.
      * rewrite vec_write_in_range in Hrun by lia. cbn [mbind option_bind] in Hrun.
        simplify_eq. exists i. split; [lia|]. split; [intros; lia|]. split; [done|].
        split; [lia|]. done.
    + destruct (IH (i + 1) candi s s' candi' found Hwf) as (e & He & Hset & Hkeep & Hfound);
        [lia|lia|done|].
      assert (Hni : ¬ in_replacer s (sweep_pos s i)).
      { unfold in_replacer. rewrite Hinb. done. }
      exists e. split; [lia|]. split; [|split; [|done]].
      * intros d Hd Hin. destruct (decide (d = i)) as [->|Hne]; [done|].
        apply Hset; [lia|done].
      * intros d Hd Hnot. apply Hkeep; [done|]. intros [? Hin]. apply Hnot. split; [lia|done].
Qed.

(** X10.  The second chance.  When [Victim] returns frame [f], the hand is
    left just behind [f], and [f] is chosen as follows.  Either [f] is the
    first candidate in sweep order whose reference bit is clear: the
    candidates the sweep passed before it all had their bit set and have
    lost it, and no other reference bit has changed.  Or every candidate had
    its reference bit set: all of them have lost it, and [f] is the first
    candidate in sweep order.  The reference bits of frames that are not
    candidates are never written. *)
Theorem Victim_gives_second_chance s s' f :
  wf s → Victim s = Some (s', Some f) →
  clock_hand s' = (f + 1) mod buffer_size s ∧
  ∃ e, 0 ≤ e < buffer_size s ∧ f = sweep_pos s e ∧ in_replacer s f ∧
    ((vec_read (ref_f s) f = Some false ∧
      (∀ d, 0 ≤ d < e → in_replacer s (sweep_pos s d) →
            vec_read (ref_f s) (sweep_pos s d) = Some true ∧
            vec_read (ref_f s') (sweep_pos s d) = Some false) ∧
      (∀ d, 0 ≤ d < buffer_size s → ¬ (d < e ∧ in_replacer s (sweep_pos s d)) →
            vec_read (ref_f s') (sweep_pos s d) = vec_read (ref_f s) (sweep_pos s d)))
     ∨
     (vec_read (ref_f s) f = Some true ∧
      (∀ d, 0 ≤ d < e → ¬ in_replacer s (sweep_pos s d)) ∧
      (∀ g, in_replacer s g →
            vec_read (ref_f s) g = Some true ∧ vec_read (ref_f s') g = Some false) ∧
      (∀ g, 0 ≤ g < buffer_size s → ¬ in_replacer s g →
            vec_read (ref_f s') g = vec_read (ref_f s) g))).
Proof.
  intros Hwf HV. pose proof (wf_size s Hwf) as HNr.
  destruct (Victim_loop_spec (Z.to_nat (buffer_size s)) 0 (-1) s Hwf)
    as (s1 & candi & found & Hrun & Hwf1 & Hsz & Hfound); [lia|lia|].
  destruct (Victim_loop_ref (Z.to_nat (buffer_size s)) 0 (-1) s s1 candi found Hwf)
    as (e & He & Hset & Hkeep & Href); [lia|lia|done|].
  unfold Victim in HV. rewrite Hrun in HV. cbn [mbind option_bind] in HV.
  destruct found as [f'|].
  - simplify_eq. destruct Href as (He' & -> & Hin & Hrf & Hh).
    split; [done|]. exists e. split; [lia|]. split; [done|]. split; [done|]. left.
    split; [done|]. split.
    + intros d Hd. apply Hset. lia.
    + intros d Hd Hnot. apply Hkeep; [done|]. intros [? ?]. apply Hnot. split; [lia|done].
  - subst e.
    destruct Hfound as (Hin & Hh & [[Hc _]|[(_ & -> & Hall)|(_ & d & Hd & -> & Hcand & Hfirst)]]);
      [done|by simplify_eq/=|].
    assert (HN : 0 < buffer_size s) by lia.
    pose proof (sweep_pos_range s d HN) as Hr.
    destruct (Z.eqb_spec (sweep_pos s d) (-1)) as [?|_]; [lia|].
    destruct (vec_write (in_f s1) (sweep_pos s d) false) as [in'|]; [|done].
    cbn [mbind option_bind] in HV. simplify_eq. simpl.
    split; [by rewrite Hsz|]. exists d. split; [lia|]. split; [done|]. split; [done|]. right.
    split; [by apply (Hset d)|]. split; [intros d' Hd'; apply Hfirst; lia|]. split.
    + intros g Hg. pose proof (in_replacer_range s g Hwf Hg) as Hgr.
      destruct (sweep_pos_surj s g Hgr) as (dg & Hdg & <-). by apply Hset.
    + intros g Hgr Hg. destruct (sweep_pos_surj s g Hgr) as (dg & Hdg & <-).
      apply Hkeep; [done|]. by intros [_ ?].
Qed.

Lemma Victim_gives_second_chance_witness :
  wf sample ∧
  Victim sample =
    Some ({| clock_hand := 0; buffer_size := 4;
             ref_f := [false; false; false; false];
             in_f := [true; false; false; false] |}, Some 3) ∧
  clock_hand {| clock_hand := 0; buffer_size := 4;
                ref_f := [false; false; false; false];
                in_f := [true; false; false; false] |} = (3 + 1) mod buffer_size sample ∧
  ∃ e, 0 ≤ e < buffer_size sample ∧ 3 = sweep_pos sample e ∧ in_replacer sample 3 ∧
    ((vec_read (ref_f sample) 3 = Some false ∧
      (∀ d, 0 ≤ d < e → in_replacer sample (sweep_pos sample d) →
            vec_read (ref_f sample) (sweep_pos sample d) = Some true ∧
            vec_read [false; false; false; false] (sweep_pos sample d) = Some false) ∧
      (∀ d, 0 ≤ d < buffer_size sample →
            ¬ (d < e ∧ in_replacer sample (sweep_pos sample d)) →
            vec_read [false; false; false; false] (sweep_pos sample d)
            = vec_read (ref_f sample) (sweep_pos sample d)))
     ∨
     (vec_read (ref_f sample) 3 = Some true ∧
      (∀ d, 0 ≤ d < e → ¬ in_replacer sample (sweep_pos sample d)) ∧
      (∀ g, in_replacer sample g →
            vec_read (ref_f sample) g = Some true ∧
            vec_read [false; false; false; false] g = Some false) ∧
      (∀ g, 0 ≤ g < buffer_size sample → ¬ in_replacer sample g →
            vec_read [false; false; false; false] g = vec_read (ref_f sample) g))).
Proof.
  assert (Hwf : wf sample) by (split; simpl; lia).
  assert (HV : Victim sample =
    Some ({| clock_hand := 0; buffer_size := 4;
             ref_f := [false; false; false; false];
             in_f := [true; false; false; false] |}, Some 3))
    by (vm_compute; reflexivity).
  split; [exact Hwf|]. split; [exact HV|].
  exact (Victim_gives_second_chance sample _ 3 Hwf HV).
Defined.

(** *** Pin, Unpin and the next Victim *)

(** X12.  [Pin] of a frame of the clock takes exactly that frame out of the
    candidates, whether or not it was one, and touches neither the reference
    bits nor the hand; the next [Victim] does not return the frame, and the
    frame is still not a candidate afterwards. *)
Theorem Pin_keeps_frame_from_Victim s f :
  wf s → 0 ≤ f < buffer_size s →
  ∃ s1, Pin f s = Some s1 ∧ wf s1 ∧
    ¬ in_replacer s1 f ∧
    (∀ g, g ≠ f → in_replacer s1 g ↔ in_replacer s g) ∧
    ref_f s1 = ref_f s ∧ clock_hand s1 = clock_hand s ∧ buffer_size s1 = buffer_size s ∧
    ∃ s2 r, Victim s1 = Some (s2, r) ∧ r ≠ Some f ∧ ¬ in_replacer s2 f.
Proof.
  intros Hwf Hf. pose proof (Pin_in_range s f Hwf Hf) as HP.
  pose proof (Pin_wf _ _ _ Hwf HP) as Hwf1. pose proof (wf_in s Hwf) as Hlin.
  eexists. split; [exact HP|]. split; [done|].
  set (s1 := Build _ _ _ _) in *.
  assert (Hout : ¬ in_replacer s1 f).
  { unfold in_replacer, s1, vec_read. simpl. rewrite bool_decide_eq_true_2 by lia.
    rewrite list_lookup_insert_eq by lia. done. }
  split; [done|]. split.
  { intros g Hne. unfold in_replacer, s1, vec_read. simpl.
    case_bool_decide; [|done]. rewrite list_lookup_insert_ne by lia. done. }
  do 3 (split; [done|]).
  destruct (Victim_effect s1 Hwf1) as (s2 & r & HV & Hwf2 & Hsz & Hr).
  exists s2, r. split; [done|]. destruct r as [g|].
  - destruct Hr as (Hin & Hinf & _).
    assert (Hne : g ≠ f) by (by intros ->). split; [congruence|].
    pose proof (in_replacer_range s1 g Hwf1 Hin) as Hg.
    intros Hin2. apply Hout. revert Hin2. unfold in_replacer, vec_read.
    rewrite Hinf. case_bool_decide; [|done]. rewrite list_lookup_insert_ne by lia. done.
  - destruct Hr as [-> _]. done.
Qed.

(** X13.  [Unpin] of a frame of the clock makes that frame a candidate with
    its reference bit set and changes no other frame, so that the next
    [Victim] returns some frame; if the replacer held no candidate, it
    returns this very frame and the replacer is empty again. *)
Theorem Unpin_offers_frame_to_Victim s f :
  wf s → 0 ≤ f < buffer_size s →
  ∃ s1, Unpin f s = Some s1 ∧ wf s1 ∧
    in_replacer s1 f ∧ vec_read (ref_f s1) f = Some true ∧
    (∀ g, g ≠ f → (in_replacer s1 g ↔ in_replacer s g) ∧
                  vec_read (ref_f s1) g = vec_read (ref_f s) g) ∧
    clock_hand s1 = clock_hand s ∧ buffer_size s1 = buffer_size s ∧
    ∃ s2 v, Victim s1 = Some (s2, Some v) ∧ in_replacer s1 v ∧
      ((∀ g, ¬ in_replacer s g) → v = f ∧ ∀ g, ¬ in_replacer s2 g).
Proof.
  intros Hwf Hf. pose proof (Unpin_in_range s f Hwf Hf) as HU.
  pose proof (Unpin_wf _ _ _ Hwf HU) as Hwf1.
  pose proof (wf_in s Hwf) as Hlin. pose proof (wf_ref s Hwf) as Hlref.
  eexists. split; [exact HU|]. split; [done|].
  set (s1 := Build _ _ _ _) in *.
  assert (Hin1 : in_replacer s1 f).
  { unfold in_replacer, s1, vec_read. simpl. rewrite bool_decide_eq_true_2 by lia.
    apply list_lookup_insert_eq. lia. }
  assert (Hother : ∀ g, g ≠ f → in_replacer s1 g ↔ in_replacer s g).
  { intros g Hne. unfold in_replacer, s1, vec_read. simpl.
    case_bool_decide; [|done]. rewrite list_lookup_insert_ne by lia. done. }
  split; [done|]. split.
  { unfold s1, vec_read. simpl. rewrite bool_decide_eq_true_2 by lia.
    apply list_lookup_insert_eq. lia. }
  split.
  { intros g Hne. split; [by apply Hother|]. unfold s1, vec_read. simpl.
    case_bool_decide; [|done]. rewrite list_lookup_insert_ne by lia. done. }
  do 2 (split; [done|]).
  destruct (Victim_effect s1 Hwf1) as (s2 & r & HV & Hwf2 & Hsz & Hr).
  destruct r as [v|]; [|by destruct Hr as [_ Hnone]; destruct (Hnone f)].
  destruct Hr as (Hin & Hinf & _).
  exists s2, v. split; [done|]. split; [done|]. intros Hnone.
  assert (Hv : v = f).
  { destruct (decide (v = f)) as [|Hne]; [done|].
    apply Hother in Hin; [|done]. by destruct (Hnone v). }
  split; [done|]. subst v. intros g Hg.
  assert (Hgr : 0 ≤ g < buffer_size s).
  { apply (in_replacer_range s2 g Hwf2) in Hg. simpl in Hsz. lia. }
  revert Hg. unfold in_replacer, vec_read. rewrite Hinf. rewrite bool_decide_eq_true_2 by lia.
  destruct (decide (g = f)) as [->|Hne].
  - rewrite list_lookup_insert_eq; [done|]. unfold s1. simpl. rewrite length_insert. lia.
  - rewrite list_lookup_insert_ne by lia. intros Hg.
    apply (Hnone g), Hother; [done|]. unfold in_replacer, vec_read.
    by rewrite bool_decide_eq_true_2 by lia.
Qed.

Lemma Pin_keeps_frame_from_Victim_witness :
  wf sample ∧ 0 ≤ 3 < buffer_size sample ∧
  ∃ s1, Pin 3 sample = Some s1 ∧ wf s1 ∧
    ¬ in_replacer s1 3 ∧
    (∀ g, g ≠ 3 → in_replacer s1 g ↔ in_replacer sample g) ∧
    ref_f s1 = ref_f sample ∧ clock_hand s1 = clock_hand sample ∧
    buffer_size s1 = buffer_size sample ∧
    ∃ s2 r, Victim s1 = Some (s2, r) ∧ r ≠ Some 3 ∧ ¬ in_replacer s2 3.
Proof.
  assert (Hwf : wf sample) by (split; simpl; lia).
  assert (Hf : 0 ≤ 3 < buffer_size sample) by (simpl; lia).
  split; [exact Hwf|]. split; [exact Hf|].
  exact (Pin_keeps_frame_from_Victim sample 3 Hwf Hf).
Defined.

Lemma Unpin_offers_frame_to_Victim_witness :
  wf (create 3) ∧ 0 ≤ 1 < buffer_size (create 3) ∧
  ∃ s1, Unpin 1 (create 3) = Some s1 ∧ wf s1 ∧
    in_replacer s1 1 ∧ vec_read (ref_f s1) 1 = Some true ∧
    (∀ g, g ≠ 1 → (in_replacer s1 g ↔ in_replacer (create 3) g) ∧
                  vec_read (ref_f s1) g = vec_read (ref_f (create 3)) g) ∧
    clock_hand s1 = clock_hand (create 3) ∧ buffer_size s1 = buffer_size (create 3) ∧
    ∃ s2 v, Victim s1 = Some (s2, Some v) ∧ in_replacer s1 v ∧
      ((∀ g, ¬ in_replacer (create 3) g) → v = 1 ∧ ∀ g, ¬ in_replacer s2 g).
Proof.
  assert (Hwf : wf (create 3)) by (split; simpl; lia).
  assert (Hf : 0 ≤ 1 < buffer_size (create 3)) by (simpl; lia).
  split; [exact Hwf|]. split; [exact Hf|].
  exact (Unpin_offers_frame_to_Victim (create 3) 1 Hwf Hf).
Defined.

(** C9 at a failing input.  With capacity 3, [Pin(-1)] and [Unpin(-1)] are
    not ignored: the guard [frame_id >= int32_t(buffer_size)] lets the
    negative id through and the body indexes the bit vectors with it, an
    access outside their bounds. *)
Theorem Pin_Unpin_negative_frame_out_of_bounds :
  Pin (-1) (create 3) = None ∧ Unpin (-1) (create 3) = None ∧
  Pin (-1) (create 3) ≠ Some (create 3) ∧ Unpin (-1) (create 3) ≠ Some (create 3).
Proof. vm_compute. done. Qed.

End ClockProps.

(** ** The buffer pool manager *)

Module BPMProps.
Import BPM.
Local Open Scope Z_scope.

Section WithData.
Context {Data : Type} (zero_data : Data).
Local Abbreviation BufferPoolManager := (BPM.BufferPoolManager Data).

(** [DeletePageImpl] never calls the replacer. *)
Lemma DeletePageImpl_replacer (s s' : BufferPoolManager) p b :
  DeletePageImpl p s = Some (s', b) → replacer_ s' = replacer_ s.
Proof.
  unfold DeletePageImpl. intros H.
  destruct (p =? INVALID_PAGE_ID); [by simplify_eq|].
  destruct (page_table_ s !! p); [|by simplify_eq].
  destruct (vec_read _ _) as [pg|]; [|done]. cbn [mbind option_bind] in H.
  destruct (negb _); [by simplify_eq|].
  destruct (vec_write _ _ _); [|done]. cbn [mbind option_bind] in H.
  by simplify_eq.
Qed.

(** Deleting a resident, unpinned page succeeds and puts its frame at the
    back of the free list, with the replacer as it was. *)
Lemma DeletePageImpl_unpinned (s : BufferPoolManager) p f pg :
  p ≠ INVALID_PAGE_ID → page_table_ s !! p = Some f →
  vec_read (pages_ s) f = Some pg → pin_count_ pg = 0 →
  ∃ s', DeletePageImpl p s = Some (s', true) ∧
        free_list_ s' = free_list_ s ++ [f] ∧
        replacer_ s' = replacer_ s ∧
        page_table_ s' = delete p (page_table_ s).
Proof.
  intros Hp Hpt Hpg Hpin. unfold DeletePageImpl.
  destruct (Z.eqb_spec p INVALID_PAGE_ID); [done|].
  rewrite Hpt, Hpg. cbn [mbind option_bind]. rewrite Hpin. cbn [Z.eqb negb].
  apply vec_read_Some in Hpg as [Hf Hl]. apply lookup_lt_Some in Hl.
  rewrite vec_write_in_range by lia. cbn [mbind option_bind].
  eexists. split; [done|]. done.
Qed.

(** *** The invariant of the pool *)

Lemma vec_read_insert_eq {A} (l : list A) f x :
  0 ≤ f < Z.of_nat (length l) → vec_read (<[Z.to_nat f := x]> l) f = Some x.
Proof.
  intros Hf. unfold vec_read. rewrite bool_decide_eq_true_2 by lia.
  apply list_lookup_insert_eq. lia.
Qed.

Lemma vec_read_insert_ne {A} (l : list A) f g x :
  0 ≤ f → f ≠ g → vec_read (<[Z.to_nat f := x]> l) g = vec_read l g.
Proof.
  intros Hf Hne. unfold vec_read. case_bool_decide; [|done].
  apply list_lookup_insert_ne. lia.
Qed.

Lemma vec_read_range {A} (l : list A) f x :
  vec_read l f = Some x → 0 ≤ f < Z.of_nat (length l).
Proof.
  intros [Hf Hl]%vec_read_Some. apply lookup_lt_Some in Hl. lia.
Qed.

Lemma inv_create n (d : DiskManager Data) :
  0 ≤ n < 2 ^ 31 → inv (create zero_data n d).
Proof.
  intros Hn. split; simpl.
  - by apply ClockProps.wf_create.
  - done.
  - rewrite length_replicate. lia.
  - intros p f Hp. by rewrite lookup_empty in Hp.
  - intros f Hf. apply list_elem_of_fmap in Hf as (i & -> & Hi).
    apply elem_of_seq in Hi. split.
    + exists (empty_page zero_data). split; [|done].
      unfold vec_read. rewrite bool_decide_eq_true_2 by lia.
      rewrite Nat2Z.id. apply lookup_replicate_2. lia.
    + intros p Hp. by rewrite lookup_empty in Hp.
  - apply NoDup_fmap_2; [apply _|apply NoDup_seq].
  - intros f Hf. unfold Clock.in_replacer in Hf. simpl in Hf.
    apply vec_read_Some in Hf as [_ Hf]. by apply lookup_replicate in Hf as [? _].
  - intros p f Hp. by rewrite lookup_empty in Hp.
Qed.

(** Every operation rewrites the metadata of one frame [f] and the replacer
    bit of that frame, and moves [f] between the page table and the free
    list.  The invariant survives such a step under the side conditions
    below, which each operation is then checked against. *)
Lemma inv_update_frame (s s' : BufferPoolManager) f pg' b :
  inv s →
  0 ≤ f < pool_size_ s →
  pool_size_ s' = pool_size_ s →
  pages_ s' = <[Z.to_nat f := pg']> (pages_ s) →
  Clock.wf (replacer_ s') →
  Clock.buffer_size (replacer_ s') = Clock.buffer_size (replacer_ s) →
  Clock.in_f (replacer_ s') = <[Z.to_nat f := b]> (Clock.in_f (replacer_ s)) →
  next_page_id_ (disk_manager_ s) ≤ next_page_id_ (disk_manager_ s') →
  (∀ p g, g ≠ f → page_table_ s' !! p = Some g ↔ page_table_ s !! p = Some g) →
  (∀ p, page_table_ s' !! p = Some f →
        page_id_ pg' = p ∧ 0 ≤ pin_count_ pg' ∧ (b = true ↔ pin_count_ pg' = 0) ∧
        p < next_page_id_ (disk_manager_ s')) →
  (∀ g, g ≠ f → g ∈ free_list_ s' ↔ g ∈ free_list_ s) →
  (f ∈ free_list_ s' → pin_count_ pg' = 0 ∧ ∀ p, page_table_ s' !! p ≠ Some f) →
  NoDup (free_list_ s') →
  (b = true → f ∈ free_list_ s' ∨ ∃ p, page_table_ s' !! p = Some f) →
  inv s'.
Proof.
  intros [Hwf Hcap Hlen Hres Hfree Hnd Hcand Halloc]
         Hf Hpool Hpages Hwf' Hsize Hin Hnext Hother Hthis Hfl Hflf Hnd' Hb.
  pose proof (Clock.wf_in _ Hwf) as Hlin.
  assert (Hbit : ∀ g, g ≠ f →
            Clock.in_replacer (replacer_ s') g ↔ Clock.in_replacer (replacer_ s) g).
  { intros g Hg. unfold Clock.in_replacer. rewrite Hin.
    by rewrite vec_read_insert_ne by lia. }
  assert (Hbitf : Clock.in_replacer (replacer_ s') f ↔ b = true).
  { unfold Clock.in_replacer. rewrite Hin, vec_read_insert_eq by lia.
    split; [by intros [= ->]|by intros ->]. }
  assert (Hpg : ∀ g, g ≠ f → vec_read (pages_ s') g = vec_read (pages_ s) g).
  { intros g Hg. rewrite Hpages. apply vec_read_insert_ne; lia. }
  assert (Hpgf : vec_read (pages_ s') f = Some pg').
  { rewrite Hpages. apply vec_read_insert_eq. lia. }
  split.
  - done.
  - congruence.
  - rewrite Hpages, length_insert. congruence.
  - intros p g Hp. destruct (decide (g = f)) as [->|Hg].
    + destruct (Hthis p Hp) as (Hid & Hpin & Hiff & _).
      exists pg'. split; [|done]. split; try done; [lia|].
      rewrite Hbitf. done.
    + apply Hother in Hp; [|done].
      destruct (Hres p g Hp) as (pg & [Ht Hfr Hc Hpin Hiff] & Hid).
      exists pg. split; [|done]. split; try done.
      * by apply Hother.
      * by rewrite Hpg.
      * congruence.
      * by rewrite Hbit.
  - intros g Hg. destruct (decide (g = f)) as [->|Hne].
    + destruct (Hflf Hg) as [Hpin Hnot]. split; [|done]. by exists pg'.
    + apply Hfl in Hg; [|done]. destruct (Hfree g Hg) as ((pg & Hpgg & Hpin) & Hnot).
      split; [exists pg; by rewrite Hpg|].
      intros p Hp. apply Hother in Hp; [|done]. by apply (Hnot p).
  - done.
  - intros g Hg. destruct (decide (g = f)) as [->|Hne].
    + apply Hb. by apply Hbitf.
    + apply Hbit in Hg; [|done]. destruct (Hcand g Hg) as [Hgf|[p Hp]].
      * left. by apply Hfl.
      * right. exists p. by apply Hother.
  - intros p g Hp. destruct (decide (g = f)) as [->|Hg].
    + by destruct (Hthis p Hp) as (_ & _ & _ & ?).
    + apply Hother in Hp; [|done]. specialize (Halloc p g Hp). lia.
Qed.

Lemma inv_frame_range (s : BufferPoolManager) f pg :
  inv s → vec_read (pages_ s) f = Some pg →
  0 ≤ f < pool_size_ s ∧ 0 ≤ f < Clock.buffer_size (replacer_ s).
Proof.
  intros Hinv Hpg%vec_read_range.
  pose proof (inv_pages _ Hinv). pose proof (inv_capacity _ Hinv). lia.
Qed.

(** What the replacer path of [FetchPageImpl] and [NewPageImpl] does before
    it rebinds the frame: pick a victim and write it back if dirty. *)
Lemma evict_prelude (s : BufferPoolManager) :
  inv s → free_list_ s = [] →
  ∃ r1 v, Clock.Victim (replacer_ s) = Some (r1, v) ∧
    match v with
    | None => r1 = replacer_ s
    | Some t =>
      ∃ p0 pg, resident s p0 t pg ∧ page_id_ pg = p0 ∧ pin_count_ pg = 0 ∧
        Clock.wf r1 ∧
        Clock.buffer_size r1 = Clock.buffer_size (replacer_ s) ∧
        Clock.in_f r1 = <[Z.to_nat t := false]> (Clock.in_f (replacer_ s)) ∧
        vec_read (pages_ (set_replacer r1 s)) t = Some pg ∧
        ∃ s2 pg2,
          (if is_dirty_ pg then FlushPageImpl p0 (set_replacer r1 s)
           else Some (set_replacer r1 s, true)) = Some (s2, true) ∧
          vec_read (pages_ s2) t = Some pg2 ∧
          pages_ s2 = <[Z.to_nat t := pg2]> (pages_ s) ∧
          pin_count_ pg2 = 0 ∧
          replacer_ s2 = r1 ∧ page_table_ s2 = page_table_ s ∧
          free_list_ s2 = [] ∧ pool_size_ s2 = pool_size_ s ∧
          next_page_id_ (disk_manager_ s2) = next_page_id_ (disk_manager_ s)
    end.
Proof.
  intros Hinv Hfl.
  destruct (ClockProps.Victim_effect _ (inv_replacer _ Hinv)) as (r1 & v & HV & Hwf1 & Hsz & Hv).
  exists r1, v. split; [done|]. destruct v as [t|]; [|by destruct Hv].
  destruct Hv as (Hin & Hinf & _).
  destruct (inv_candidate _ Hinv t Hin) as [Hfree|[p0 Hp0]].
  { rewrite Hfl in Hfree. by apply elem_of_nil in Hfree. }
  destruct (inv_resident _ Hinv p0 t Hp0) as (pg & Hres & Hid).
  pose proof Hres as [_ Hfr _ _ Hiff].
  destruct (inv_frame_range s t pg Hinv Hfr) as [Ht _].
  pose proof (inv_pages _ Hinv) as Hlen.
  exists p0, pg. split; [done|]. split; [done|]. split; [by apply Hiff|].
  split; [done|]. split; [done|]. split; [done|]. split; [done|].
  destruct (is_dirty_ pg) eqn:Hdirty.
  - unfold FlushPageImpl. simpl. rewrite Hp0, Hfr. cbn [mbind option_bind].
    rewrite Hdirty. cbn [negb]. rewrite vec_write_in_range by lia.
    cbn [mbind option_bind]. eexists _, _. split; [done|]. simpl.
    split; [apply vec_read_insert_eq; lia|]. split; [done|]. simpl.
    split; [by apply Hiff|]. done.
  - exists (set_replacer r1 s), pg. split; [done|]. simpl. split; [done|].
    split; [symmetry; apply list_insert_id; by apply vec_read_Some in Hfr as [_ ?]|].
    split; [by apply Hiff|]. done.
Qed.

Lemma FetchPageImpl_inv (s s' : BufferPoolManager) p r :
  inv s → p < next_page_id_ (disk_manager_ s) →
  FetchPageImpl p s = Some (s', r) → inv s'.
Proof.
  intros Hinv Hp. unfold FetchPageImpl.
  destruct (page_table_ s !! p) as [f|] eqn:Hpt.
  - (* hit *)
    destruct (inv_resident _ Hinv p f Hpt) as (pg & [_ Hfr Hc Hpin Hiff] & Hid).
    destruct (inv_frame_range s f pg Hinv Hfr) as [Hf Hf'].
    pose proof (inv_pages _ Hinv) as Hlen.
    rewrite ClockProps.Pin_in_range by (done || apply Hinv). cbn [mbind option_bind].
    rewrite Hfr. cbn [mbind option_bind]. rewrite vec_write_in_range by lia.
    cbn [mbind option_bind]. intros [= <- <-].
    apply (inv_update_frame s _ f
             (BuildPage (data_ pg) (page_id_ pg) (pin_count_ pg + 1) (is_dirty_ pg)) false);
      simpl; try done.
    + eapply ClockProps.Pin_wf; [apply Hinv|]. apply ClockProps.Pin_in_range; [apply Hinv|done].
    + intros p' Hp'. split; [|split; [lia|split; [split; [done|lia]|]]].
      * destruct (inv_resident _ Hinv p' f Hp') as (pg1 & [_ Hfr1 _ _ _] & Hid1). congruence.
      * by apply (inv_allocated _ Hinv p' f).
    + intros Hfree. by destruct (inv_free _ Hinv f Hfree) as [_ Hnot]; destruct (Hnot p).
    + apply Hinv.
  - destruct (free_list_ s) as [|f rest] eqn:Hfl.
    + (* replacer path *)
      destruct (evict_prelude s Hinv Hfl) as (r1 & v & HV & Hv). rewrite HV.
      cbn [mbind option_bind]. destruct v as [t|].
      2:{ subst r1. intros [= <- <-]. by destruct s. }
      destruct Hv as (p0 & pg & Hres & Hid & Hpin & Hwf1 & Hsz1 & Hin1 & Hfr1 & s2 & pg2
                      & Hflush & Hfr2 & Hpages2 & Hpin2 & Hr2 & Hpt2 & Hfl2 & Hpool2 & Hnext2).
      rewrite Hfr1. cbn [mbind option_bind]. rewrite Hid, Hflush. cbn [mbind option_bind negb].
      pose proof Hres as [Hp0 Hfr _ _ _].
      destruct (inv_frame_range s t pg Hinv Hfr) as [Ht Ht'].
      pose proof (inv_pages _ Hinv) as Hlen.
      unfold load_into. rewrite Hr2.
      rewrite ClockProps.Pin_in_range by (done || lia). cbn [mbind option_bind].
      rewrite Hfr2. cbn [mbind option_bind].
      rewrite vec_write_in_range by (rewrite Hpages2, length_insert; lia).
      cbn [mbind option_bind]. intros [= <- <-].
      apply (inv_update_frame s _ t
               (BuildPage (ReadPage p (data_ pg2) (disk_manager_ s2)) p (pin_count_ pg2 + 1) false)
               false); simpl; try done.
      * by rewrite Hpages2, list_insert_insert_eq.
      * split; simpl; rewrite ?length_insert; apply Hwf1.
      * by rewrite Hin1, list_insert_insert_eq.
      * lia.
      * intros p' g Hg. rewrite Hpt2. split.
        -- intros [[-> ?]|[Hne Hd]]%lookup_insert_Some; [done|].
           by apply lookup_delete_Some in Hd as [_ ?].
        -- intros Hp'. rewrite lookup_insert_ne by congruence.
           apply lookup_delete_Some. split; [congruence|done].
      * intros p'. rewrite Hpt2.
        intros [[<- _]|[Hne Hd]]%lookup_insert_Some.
        -- split; [done|]. split; [lia|]. split; [split; [done|lia]|lia].
        -- apply lookup_delete_Some in Hd as [Hne' Hd].
           destruct (inv_resident _ Hinv p' t Hd) as (pg1 & [_ Hfr' _ _ _] & Hid1). congruence.
      * by rewrite Hfl2, Hfl.
      * rewrite Hfl2. intros Hel. by apply elem_of_nil in Hel.
      * rewrite Hfl2. apply NoDup_nil_2.
    + (* free list path *)
      unfold load_into. simpl.
      assert (Hfin : f ∈ free_list_ s) by (rewrite Hfl; apply list_elem_of_here).
      destruct (inv_free _ Hinv f Hfin) as ((pg & Hfr & Hpin) & Hnot).
      destruct (inv_frame_range s f pg Hinv Hfr) as [Hf Hf'].
      pose proof (inv_pages _ Hinv) as Hlen.
      pose proof (inv_free_nodup _ Hinv) as Hnd. rewrite Hfl in Hnd.
      apply NoDup_cons in Hnd as [Hnotin Hnd].
      rewrite ClockProps.Pin_in_range by (done || apply Hinv). cbn [mbind option_bind].
      rewrite Hfr. cbn [mbind option_bind]. rewrite vec_write_in_range by lia.
      cbn [mbind option_bind]. intros [= <- <-].
      apply (inv_update_frame s _ f
               (BuildPage (ReadPage p (data_ pg) (disk_manager_ s)) p (pin_count_ pg + 1) false)
               false); simpl; try done.
      * eapply ClockProps.Pin_wf; [apply Hinv|]. apply ClockProps.Pin_in_range; [apply Hinv|done].
      * intros p' g Hg. split.
        -- intros [[-> ?]|[Hne Hd]]%lookup_insert_Some; done.
        -- intros Hp'. rewrite lookup_insert_ne by congruence. done.
      * intros p'. intros [[<- _]|[Hne Hd]]%lookup_insert_Some.
        -- split; [done|]. split; [lia|]. split; [split; [done|lia]|lia].
        -- by destruct (Hnot p').
      * intros g Hg. rewrite Hfl. split; [apply list_elem_of_further|].
        intros [?|?]%elem_of_cons; done.
Qed.

(** A frame that is not a candidate has its bit cleared. *)
Lemma not_candidate_bit (r : Clock.ClockReplacer) f :
  Clock.wf r → 0 ≤ f < Clock.buffer_size r → ¬ Clock.in_replacer r f →
  Clock.in_f r !! Z.to_nat f = Some false.
Proof.
  intros Hwf Hf Hnot. pose proof (Clock.wf_in _ Hwf).
  destruct (lookup_lt_is_Some_2 (Clock.in_f r) (Z.to_nat f)) as [b Hb]; [lia|].
  destruct b; [|done]. exfalso. apply Hnot.
  unfold Clock.in_replacer, vec_read. by rewrite bool_decide_eq_true_2 by lia.
Qed.

Lemma UnpinPageImpl_inv (s s' : BufferPoolManager) p d r :
  inv s → UnpinPageImpl p d s = Some (s', r) → inv s'.
Proof.
  intros Hinv. unfold UnpinPageImpl.
  destruct (page_table_ s !! p) as [f|] eqn:Hpt; [|by intros [= <- <-]].
  destruct (inv_resident _ Hinv p f Hpt) as (pg & [_ Hfr Hc Hpin Hiff] & Hid).
  destruct (inv_frame_range s f pg Hinv Hfr) as [Hf Hf'].
  pose proof (inv_pages _ Hinv) as Hlen.
  rewrite Hfr. cbn [mbind option_bind].
  destruct (Z.leb_spec (pin_count_ pg) 0); [by intros [= <- <-]|].
  rewrite vec_write_in_range by lia. cbn [mbind option_bind pin_count_].
  assert (Hthis : ∀ b p', page_table_ s !! p' = Some f →
            (b = true ↔ pin_count_ pg - 1 = 0) →
            page_id_ pg = p' ∧ 0 ≤ pin_count_ pg - 1 ∧ (b = true ↔ pin_count_ pg - 1 = 0)
            ∧ p' < next_page_id_ (disk_manager_ s)).
  { intros b p' Hp' Hb.
    destruct (inv_resident _ Hinv p' f Hp') as (pg1 & [_ Hfr1 _ _ _] & Hid1).
    split; [congruence|]. split; [lia|]. split; [done|].
    by apply (inv_allocated _ Hinv p' f). }
  assert (Hnotfree : f ∈ free_list_ s → pin_count_ pg - 1 = 0 ∧
                     ∀ p', page_table_ s !! p' ≠ Some f).
  { intros Hfree. by destruct (inv_free _ Hinv f Hfree) as [_ Hnot]; destruct (Hnot p). }
  destruct (Z.eqb_spec (pin_count_ pg - 1) 0) as [Hz|Hnz].
  - rewrite ClockProps.Unpin_in_range by (done || apply Hinv). cbn [mbind option_bind].
    intros [= <- <-].
    apply (inv_update_frame s _ f
             (BuildPage (data_ pg) (page_id_ pg) (pin_count_ pg - 1) (is_dirty_ pg || d)) true);
      simpl; try done.
    + eapply ClockProps.Unpin_wf; [apply Hinv|].
      apply ClockProps.Unpin_in_range; [apply Hinv|done].
    + intros p' Hp'. by apply Hthis.
    + apply Hinv.
    + intros _. right. by exists p.
  - cbn [mbind option_bind]. intros [= <- <-].
    apply (inv_update_frame s _ f
             (BuildPage (data_ pg) (page_id_ pg) (pin_count_ pg - 1) (is_dirty_ pg || d)) false);
      simpl; try done.
    + apply Hinv.
    + symmetry. apply list_insert_id. apply not_candidate_bit; [apply Hinv|done|].
      rewrite Hiff. lia.
    + intros p' Hp'. apply Hthis; [done|]. split; [done|lia].
    + apply Hinv.
Qed.

Lemma FlushPageImpl_inv (s s' : BufferPoolManager) p r :
  inv s → FlushPageImpl p s = Some (s', r) → inv s'.
Proof.
  intros Hinv. unfold FlushPageImpl.
  destruct (page_table_ s !! p) as [f|] eqn:Hpt; [|by intros [= <- <-]].
  destruct (inv_resident _ Hinv p f Hpt) as (pg & [_ Hfr Hc Hpin Hiff] & Hid).
  destruct (inv_frame_range s f pg Hinv Hfr) as [Hf Hf'].
  pose proof (inv_pages _ Hinv) as Hlen.
  rewrite Hfr. cbn [mbind option_bind].
  destruct (is_dirty_ pg); cbn [negb]; [|by intros [= <- <-]].
  rewrite vec_write_in_range by lia. cbn [mbind option_bind]. intros [= <- <-].
  destruct (decide (pin_count_ pg = 0)) as [Hz|Hnz].
  - assert (Hb : Clock.in_replacer (replacer_ s) f) by by apply Hiff.
    apply (inv_update_frame s _ f
             (BuildPage (data_ pg) (page_id_ pg) (pin_count_ pg) false) true);
      simpl; try done; try apply Hinv.
    + symmetry. apply list_insert_id. by apply vec_read_Some in Hb as [_ ?].
    + intros p' Hp'.
      destruct (inv_resident _ Hinv p' f Hp') as (pg1 & [_ Hfr1 _ _ _] & Hid1).
      split; [congruence|]. split; [done|]. split; [by rewrite <- Hiff|].
      by apply (inv_allocated _ Hinv p' f).
    + intros Hfree. by destruct (inv_free _ Hinv f Hfree) as [_ Hnot]; destruct (Hnot p).
    + intros _. right. by exists p.
  - assert (Hb : ¬ Clock.in_replacer (replacer_ s) f) by by rewrite Hiff.
    apply (inv_update_frame s _ f
             (BuildPage (data_ pg) (page_id_ pg) (pin_count_ pg) false) false);
      simpl; try done; try apply Hinv.
    + symmetry. apply list_insert_id. apply not_candidate_bit; [apply Hinv|done|done].
    + intros p' Hp'.
      destruct (inv_resident _ Hinv p' f Hp') as (pg1 & [_ Hfr1 _ _ _] & Hid1).
      split; [congruence|]. split; [done|]. split; [|by apply (inv_allocated _ Hinv p' f)].
      rewrite <- Hiff. split; [done|]. intros Hin. by destruct Hb.
    + intros Hfree. by destruct (inv_free _ Hinv f Hfree) as [_ Hnot]; destruct (Hnot p).
Qed.

Lemma NewPageImpl_inv (s s' : BufferPoolManager) r :
  inv s → NewPageImpl zero_data s = Some (s', r) → inv s'.
Proof.
  intros Hinv. unfold NewPageImpl.
  assert (Hfresh : ∀ g, page_table_ s !! next_page_id_ (disk_manager_ s) ≠ Some g).
  { intros g Hg. pose proof (inv_allocated _ Hinv _ _ Hg). lia. }
  destruct (free_list_ s) as [|f rest] eqn:Hfl.
  - (* replacer path *)
    destruct (evict_prelude s Hinv Hfl) as (r1 & v & HV & Hv). rewrite HV.
    cbn [mbind option_bind]. destruct v as [t|].
    2:{ subst r1. intros [= <- <-]. by destruct s. }
    destruct Hv as (p0 & pg & Hres & Hid & Hpin & Hwf1 & Hsz1 & Hin1 & Hfr1 & s2 & pg2
                    & Hflush & Hfr2 & Hpages2 & Hpin2 & Hr2 & Hpt2 & Hfl2 & Hpool2 & Hnext2).
    rewrite Hfr1. cbn [mbind option_bind]. rewrite Hid, Hflush. cbn [mbind option_bind negb].
    pose proof Hres as [Hp0 Hfr _ _ _].
    destruct (inv_frame_range s t pg Hinv Hfr) as [Ht Ht'].
    pose proof (inv_pages _ Hinv) as Hlen.
    unfold install_new, AllocatePage. rewrite Hr2.
    rewrite vec_write_in_range by (rewrite Hpages2, length_insert; lia).
    cbn [mbind option_bind].
    rewrite ClockProps.Pin_in_range by (done || lia). cbn [mbind option_bind].
    intros [= <- <-].
    apply (inv_update_frame s _ t
             (BuildPage zero_data (next_page_id_ (disk_manager_ s2)) 1 false) false);
      simpl; try done.
    + by rewrite Hpages2, list_insert_insert_eq.
    + split; simpl; rewrite ?length_insert; apply Hwf1.
    + by rewrite Hin1, list_insert_insert_eq.
    + lia.
    + intros p' g Hg. rewrite Hpt2, Hnext2. split.
      * intros [[_ ?]|[Hne Hd]]%lookup_insert_Some; [congruence|].
        by apply lookup_delete_Some in Hd as [_ ?].
      * intros Hp'. rewrite lookup_insert_ne
          by (intros Heq; rewrite <- Heq in Hp'; by destruct (Hfresh g)).
        apply lookup_delete_Some. split; [congruence|done].
    + intros p'. rewrite Hpt2.
      intros [[<- _]|[Hne Hd]]%lookup_insert_Some.
      * split; [done|]. split; [lia|]. split; [split; [done|lia]|lia].
      * apply lookup_delete_Some in Hd as [Hne' Hd].
        destruct (inv_resident _ Hinv p' t Hd) as (pg1 & [_ Hfr' _ _ _] & Hid1). congruence.
    + by rewrite Hfl2, Hfl.
    + rewrite Hfl2. intros Hel. by apply elem_of_nil in Hel.
    + rewrite Hfl2. apply NoDup_nil_2.
  - (* free list path *)
    unfold install_new, AllocatePage. simpl.
    assert (Hfin : f ∈ free_list_ s) by (rewrite Hfl; apply list_elem_of_here).
    destruct (inv_free _ Hinv f Hfin) as ((pg & Hfr & Hpin) & Hnot).
    destruct (inv_frame_range s f pg Hinv Hfr) as [Hf Hf'].
    pose proof (inv_pages _ Hinv) as Hlen.
    pose proof (inv_free_nodup _ Hinv) as Hnd. rewrite Hfl in Hnd.
    apply NoDup_cons in Hnd as [Hnotin Hnd].
    rewrite vec_write_in_range by lia. cbn [mbind option_bind].
    rewrite ClockProps.Pin_in_range by (done || apply Hinv). cbn [mbind option_bind].
    intros [= <- <-].
    apply (inv_update_frame s _ f
             (BuildPage zero_data (next_page_id_ (disk_manager_ s)) 1 false) false);
      simpl; try done.
    + eapply ClockProps.Pin_wf; [apply Hinv|]. apply ClockProps.Pin_in_range; [apply Hinv|done].
    + lia.
    + intros p' g Hg. split.
      * intros [[_ ?]|[Hne Hd]]%lookup_insert_Some; [congruence|done].
      * intros Hp'. rewrite lookup_insert_ne
          by (intros Heq; rewrite <- Heq in Hp'; by destruct (Hfresh g)). done.
    + intros p'. intros [[<- _]|[Hne Hd]]%lookup_insert_Some.
      * split; [done|]. split; [lia|]. split; [split; [done|lia]|lia].
      * by destruct (Hnot p').
    + intros g Hg. rewrite Hfl. split; [apply list_elem_of_further|].
      intros [?|?]%elem_of_cons; done.
Qed.

Lemma DeletePageImpl_inv (s s' : BufferPoolManager) p r :
  inv s → DeletePageImpl p s = Some (s', r) → inv s'.
Proof.
  intros Hinv. unfold DeletePageImpl.
  destruct (p =? INVALID_PAGE_ID); [by intros [= <- <-]|].
  destruct (page_table_ s !! p) as [f|] eqn:Hpt; [|by intros [= <- <-]].
  destruct (inv_resident _ Hinv p f Hpt) as (pg & [_ Hfr Hc Hpin Hiff] & Hid).
  destruct (inv_frame_range s f pg Hinv Hfr) as [Hf Hf'].
  pose proof (inv_pages _ Hinv) as Hlen.
  rewrite Hfr. cbn [mbind option_bind].
  destruct (Z.eqb_spec (pin_count_ pg) 0) as [Hz|Hnz]; cbn [negb]; [|by intros [= <- <-]].
  rewrite vec_write_in_range by lia. cbn [mbind option_bind]. intros [= <- <-].
  assert (Hnotfree : f ∉ free_list_ s).
  { intros Hfree. by destruct (inv_free _ Hinv f Hfree) as [_ Hnot]; destruct (Hnot p). }
  assert (Hgone : ∀ p', delete p (page_table_ s) !! p' ≠ Some f).
  { intros p' [Hne Hp']%lookup_delete_Some.
    destruct (inv_resident _ Hinv p' f Hp') as (pg1 & [_ Hfr1 _ _ _] & Hid1). congruence. }
  apply (inv_update_frame s _ f
           (BuildPage (data_ pg) INVALID_PAGE_ID (pin_count_ pg) false) true);
    simpl; try done; try apply Hinv.
  - symmetry. apply list_insert_id. apply Hiff in Hz. by apply vec_read_Some in Hz as [_ ?].
  - intros p' g Hg. split.
    + by intros [_ ?]%lookup_delete_Some.
    + intros Hp'. apply lookup_delete_Some. split; [congruence|done].
  - intros p' Hp'. by destruct (Hgone p').
  - intros g Hg. rewrite elem_of_app, list_elem_of_singleton.
    split; [intros [?|?]; [done|congruence]|intros ?; by left].
  - apply NoDup_app. split; [apply Hinv|]. split; [|apply NoDup_singleton].
    intros g Hg ->%list_elem_of_singleton. done.
  - intros _. left. apply elem_of_app. right. by apply list_elem_of_singleton.
Qed.

Lemma FlushAll_loop_inv n : ∀ i (s s' : BufferPoolManager),
  inv s → FlushAll_loop n i s = Some s' → inv s'.
Proof.
  induction n as [|n IH]; intros i s s' Hinv; [by intros [= <-]|].
  cbn [FlushAll_loop]. destruct (vec_read (pages_ s) i) as [pg|]; [|done].
  cbn [mbind option_bind]. destruct (is_dirty_ pg).
  - destruct (FlushPageImpl (page_id_ pg) s) as [[s1 b]|] eqn:Hfl; [|done].
    cbn [fmap option_fmap option_map mbind option_bind fst].
    apply IH. by eapply FlushPageImpl_inv.
  - cbn [mbind option_bind]. by apply IH.
Qed.

(** In a state that satisfies the invariant, every entry of the page table
    is a resident page in the sense of [resident]. *)
Lemma inv_resident_frame (s : BufferPoolManager) p f :
  inv s → page_table_ s !! p = Some f →
  Clock.wf (replacer_ s) ∧ ∃ pg, resident s p f pg.
Proof.
  intros Hinv Hp. split; [apply Hinv|].
  destruct (inv_resident _ Hinv p f Hp) as (pg & Hres & _). eauto.
Qed.

(** The invariant holds in every state of the pool: [inv_create] gives it
    for the constructor, and every call keeps it. *)
Theorem step_inv (s s' : BufferPoolManager) : inv s → step zero_data s s' → inv s'.
Proof.
  intros Hinv Hstep.
  destruct Hstep as [p s' r Hp H|p d s' r H|p s' r H|s' r H|p s' r H|s' H].
  - by eapply FetchPageImpl_inv.
  - by eapply UnpinPageImpl_inv.
  - by eapply FlushPageImpl_inv.
  - by eapply NewPageImpl_inv.
  - by eapply DeletePageImpl_inv.
  - by eapply FlushAll_loop_inv.
Qed.

(** *** The operations, path by path *)

Lemma set_replacer_id (s : BufferPoolManager) : set_replacer (replacer_ s) s = s.
Proof. by destruct s. Qed.

(** The replacer path of [FetchPageImpl] and [NewPageImpl], with the state
    it reaches before the frame is rebound: the victim holds an unpinned
    resident page, which has been written to disk if it was dirty. *)
Lemma evict_spec (s : BufferPoolManager) :
  inv s → free_list_ s = [] →
  ∃ r1 v, Clock.Victim (replacer_ s) = Some (r1, v) ∧
    match v with
    | None => r1 = replacer_ s ∧ ∀ f, ¬ Clock.in_replacer (replacer_ s) f
    | Some t =>
      ∃ p0 pg, resident s p0 t pg ∧ page_id_ pg = p0 ∧ pin_count_ pg = 0 ∧
        0 ≤ t < pool_size_ s ∧
        Clock.wf r1 ∧
        Clock.buffer_size r1 = Clock.buffer_size (replacer_ s) ∧
        Clock.in_f r1 = <[Z.to_nat t := false]> (Clock.in_f (replacer_ s)) ∧
        (if is_dirty_ pg then FlushPageImpl p0 (set_replacer r1 s)
         else Some (set_replacer r1 s, true)) =
        Some (Build (pool_size_ s)
                (<[Z.to_nat t := BuildPage (data_ pg) p0 0 false]> (pages_ s))
                (if is_dirty_ pg then WritePage p0 (data_ pg) (disk_manager_ s)
                 else disk_manager_ s)
                (page_table_ s) r1 [], true)
    end.
Proof.
  intros Hinv Hfl.
  destruct (ClockProps.Victim_effect _ (inv_replacer _ Hinv)) as (r1 & v & HV & Hwf1 & Hsz & Hv).
  exists r1, v. split; [done|]. destruct v as [t|]; [|done].
  destruct Hv as (Hin & Hinf & _).
  destruct (inv_candidate _ Hinv t Hin) as [Hfree|[p0 Hp0]].
  { rewrite Hfl in Hfree. by apply elem_of_nil in Hfree. }
  destruct (inv_resident _ Hinv p0 t Hp0) as (pg & Hres & Hid).
  pose proof Hres as [_ Hfr _ _ Hiff].
  destruct (inv_frame_range s t pg Hinv Hfr) as [Ht _].
  pose proof (inv_pages _ Hinv) as Hlen.
  assert (Hpin : pin_count_ pg = 0) by by apply Hiff.
  exists p0, pg. do 7 (split; [done|]).
  destruct (is_dirty_ pg) eqn:Hdirty.
  - unfold FlushPageImpl. simpl. rewrite Hp0, Hfr. cbn [mbind option_bind].
    rewrite Hdirty. cbn [negb]. rewrite vec_write_in_range by lia.
    cbn [mbind option_bind]. unfold set_pages, set_disk, set_replacer. simpl.
    by rewrite Hid, Hpin, Hfl.
  - f_equal. f_equal. unfold set_replacer. rewrite Hfl. f_equal.
    symmetry. apply list_insert_id. apply vec_read_Some in Hfr as [_ ->].
    f_equal. destruct pg; simpl in *; congruence.
Qed.

(** [Pin] of the victim leaves the replacer as [Victim] left it. *)
Lemma Pin_after_Victim (r1 : Clock.ClockReplacer) (l : list bool) t :
  Clock.wf r1 → 0 ≤ t < Clock.buffer_size r1 →
  Clock.in_f r1 = <[Z.to_nat t := false]> l →
  Clock.Pin t r1 = Some r1.
Proof.
  intros Hwf Ht Hin. rewrite ClockProps.Pin_in_range by done.
  rewrite Hin, list_insert_insert_eq, <- Hin. by destruct r1.
Qed.

(** [FetchPageImpl] on a page that is not resident. *)
Lemma FetchPageImpl_miss (s : BufferPoolManager) p :
  inv s → page_table_ s !! p = None →
  match free_list_ s with
  | t :: rest =>
    ∃ pg, vec_read (pages_ s) t = Some pg ∧ pin_count_ pg = 0 ∧ 0 ≤ t < pool_size_ s ∧
      FetchPageImpl p s =
      Some (Build (pool_size_ s)
              (<[Z.to_nat t := BuildPage (ReadPage p (data_ pg) (disk_manager_ s)) p 1 false]>
                 (pages_ s))
              (disk_manager_ s) (<[p := t]> (page_table_ s))
              (Clock.Build (Clock.clock_hand (replacer_ s)) (Clock.buffer_size (replacer_ s))
                 (Clock.ref_f (replacer_ s))
                 (<[Z.to_nat t := false]> (Clock.in_f (replacer_ s))))
              rest, Some t)
  | [] =>
    ∃ r1 v, Clock.Victim (replacer_ s) = Some (r1, v) ∧
      match v with
      | None => (∀ f, ¬ Clock.in_replacer (replacer_ s) f) ∧
                FetchPageImpl p s = Some (s, None)
      | Some t =>
        ∃ p0 pg, resident s p0 t pg ∧ page_id_ pg = p0 ∧ pin_count_ pg = 0 ∧
          0 ≤ t < pool_size_ s ∧ Clock.wf r1 ∧
          Clock.buffer_size r1 = Clock.buffer_size (replacer_ s) ∧
          Clock.in_f r1 = <[Z.to_nat t := false]> (Clock.in_f (replacer_ s)) ∧
          FetchPageImpl p s =
          Some (Build (pool_size_ s)
                  (<[Z.to_nat t :=
                       BuildPage (ReadPage p (data_ pg)
                                    (if is_dirty_ pg
                                     then WritePage p0 (data_ pg) (disk_manager_ s)
                                     else disk_manager_ s)) p 1 false]> (pages_ s))
                  (if is_dirty_ pg then WritePage p0 (data_ pg) (disk_manager_ s)
                   else disk_manager_ s)
                  (<[p := t]> (delete p0 (page_table_ s))) r1 [], Some t)
      end
  end.
Proof.
  intros Hinv Hpt. pose proof (inv_pages _ Hinv) as Hlen.
  pose proof (inv_capacity _ Hinv) as Hcap.
  destruct (free_list_ s) as [|t rest] eqn:Hfl.
  - destruct (evict_spec s Hinv Hfl) as (r1 & v & HV & Hv).
    exists r1, v. split; [done|]. unfold FetchPageImpl. rewrite Hpt, Hfl, HV.
    cbn [mbind option_bind]. destruct v as [t|].
    + destruct Hv as (p0 & pg & Hres & Hid & Hpin & Ht & Hwf1 & Hsz1 & Hin1 & Hflush).
      exists p0, pg. do 7 (split; [done|]).
      pose proof Hres as [_ Hfr _ _ _]. simpl. rewrite Hfr. cbn [mbind option_bind].
      rewrite Hid, Hflush. cbn [mbind option_bind negb]. unfold load_into. simpl.
      rewrite (Pin_after_Victim r1 _ t Hwf1) by (done || lia). cbn [mbind option_bind].
      rewrite vec_read_insert_eq by lia. cbn [mbind option_bind].
      rewrite vec_write_in_range by (rewrite length_insert; lia).
      cbn [mbind option_bind]. by rewrite list_insert_insert_eq.
    + destruct Hv as [-> Hnone]. split; [done|]. by rewrite set_replacer_id.
  - assert (Hfin : t ∈ free_list_ s) by (rewrite Hfl; apply list_elem_of_here).
    destruct (inv_free _ Hinv t Hfin) as ((pg & Hfr & Hpin) & Hnot).
    destruct (inv_frame_range s t pg Hinv Hfr) as [Ht Ht'].
    exists pg. do 3 (split; [done|]).
    unfold FetchPageImpl. rewrite Hpt, Hfl. unfold load_into. simpl.
    rewrite ClockProps.Pin_in_range by (done || apply Hinv). cbn [mbind option_bind].
    rewrite Hfr. cbn [mbind option_bind]. rewrite vec_write_in_range by lia.
    cbn [mbind option_bind]. by rewrite Hpin.
Qed.

(** [NewPageImpl], on its two paths. *)
Lemma NewPageImpl_paths (s : BufferPoolManager) :
  inv s →
  match free_list_ s with
  | t :: rest =>
    ∃ pg, vec_read (pages_ s) t = Some pg ∧ pin_count_ pg = 0 ∧ 0 ≤ t < pool_size_ s ∧
      NewPageImpl zero_data s =
      Some (Build (pool_size_ s)
              (<[Z.to_nat t := BuildPage zero_data (next_page_id_ (disk_manager_ s)) 1 false]>
                 (pages_ s))
              (BuildDisk (next_page_id_ (disk_manager_ s) + 1) (stored (disk_manager_ s)))
              (<[next_page_id_ (disk_manager_ s) := t]> (page_table_ s))
              (Clock.Build (Clock.clock_hand (replacer_ s)) (Clock.buffer_size (replacer_ s))
                 (Clock.ref_f (replacer_ s))
                 (<[Z.to_nat t := false]> (Clock.in_f (replacer_ s))))
              rest, Some (next_page_id_ (disk_manager_ s), t))
  | [] =>
    ∃ r1 v, Clock.Victim (replacer_ s) = Some (r1, v) ∧
      match v with
      | None => (∀ f, ¬ Clock.in_replacer (replacer_ s) f) ∧
                NewPageImpl zero_data s = Some (s, None)
      | Some t =>
        ∃ p0 pg, resident s p0 t pg ∧ page_id_ pg = p0 ∧ pin_count_ pg = 0 ∧
          0 ≤ t < pool_size_ s ∧ Clock.wf r1 ∧
          Clock.buffer_size r1 = Clock.buffer_size (replacer_ s) ∧
          Clock.in_f r1 = <[Z.to_nat t := false]> (Clock.in_f (replacer_ s)) ∧
          NewPageImpl zero_data s =
          Some (Build (pool_size_ s)
                  (<[Z.to_nat t :=
                       BuildPage zero_data (next_page_id_ (disk_manager_ s)) 1 false]> (pages_ s))
                  (BuildDisk (next_page_id_ (disk_manager_ s) + 1)
                     (if is_dirty_ pg then <[p0 := data_ pg]> (stored (disk_manager_ s))
                      else stored (disk_manager_ s)))
                  (<[next_page_id_ (disk_manager_ s) := t]> (delete p0 (page_table_ s))) r1 [],
                Some (next_page_id_ (disk_manager_ s), t))
      end
  end.
Proof.
  intros Hinv. pose proof (inv_pages _ Hinv) as Hlen.
  pose proof (inv_capacity _ Hinv) as Hcap.
  destruct (free_list_ s) as [|t rest] eqn:Hfl.
  - destruct (evict_spec s Hinv Hfl) as (r1 & v & HV & Hv).
    exists r1, v. split; [done|]. unfold NewPageImpl. rewrite Hfl, HV.
    cbn [mbind option_bind]. destruct v as [t|].
    + destruct Hv as (p0 & pg & Hres & Hid & Hpin & Ht & Hwf1 & Hsz1 & Hin1 & Hflush).
      exists p0, pg. do 7 (split; [done|]).
      pose proof Hres as [_ Hfr _ _ _]. simpl. rewrite Hfr. cbn [mbind option_bind].
      rewrite Hid, Hflush. cbn [mbind option_bind negb].
      unfold install_new, AllocatePage. simpl.
      rewrite vec_write_in_range by (rewrite length_insert; lia).
      cbn [mbind option_bind].
      rewrite (Pin_after_Victim r1 _ t Hwf1) by (done || lia). cbn [mbind option_bind].
      rewrite list_insert_insert_eq. unfold set_pages, set_disk, set_page_table, set_replacer.
      simpl. by destruct (is_dirty_ pg).
    + destruct Hv as [-> Hnone]. split; [done|]. by rewrite set_replacer_id.
  - assert (Hfin : t ∈ free_list_ s) by (rewrite Hfl; apply list_elem_of_here).
    destruct (inv_free _ Hinv t Hfin) as ((pg & Hfr & Hpin) & Hnot).
    destruct (inv_frame_range s t pg Hinv Hfr) as [Ht Ht'].
    exists pg. do 3 (split; [done|]).
    unfold NewPageImpl. rewrite Hfl. unfold install_new, AllocatePage. simpl.
    rewrite vec_write_in_range by lia. cbn [mbind option_bind].
    rewrite ClockProps.Pin_in_range by (done || apply Hinv). by cbn [mbind option_bind].
Qed.

(** No two pages share a frame. *)
Lemma inv_table_inj (s : BufferPoolManager) p q f :
  inv s → page_table_ s !! p = Some f → page_table_ s !! q = Some f → p = q.
Proof.
  intros Hinv Hp Hq.
  destruct (inv_resident _ Hinv p f Hp) as (pg1 & [_ Hfr1 _ _ _] & Hid1).
  destruct (inv_resident _ Hinv q f Hq) as (pg2 & [_ Hfr2 _ _ _] & Hid2).
  congruence.
Qed.

(** The candidate bits after bit [t] was cleared. *)
Lemma in_replacer_cleared (r r' : Clock.ClockReplacer) t :
  Clock.in_f r' = <[Z.to_nat t := false]> (Clock.in_f r) → 0 ≤ t →
  ¬ Clock.in_replacer r' t ∧
  ∀ g, g ≠ t → Clock.in_replacer r' g ↔ Clock.in_replacer r g.
Proof.
  intros Hin Ht. unfold Clock.in_replacer. rewrite Hin. split.
  - intros [_ Hl]%vec_read_Some.
    destruct (decide (Z.to_nat t < length (Clock.in_f r))%nat) as [Hlt|Hge].
    + by rewrite list_lookup_insert_eq in Hl.
    + apply lookup_lt_Some in Hl. rewrite length_insert in Hl. lia.
  - intros g Hne. by rewrite vec_read_insert_ne by done.
Qed.

(** What both miss paths do to the frame they take and to the page table. *)
Lemma frame_taken (s s' : BufferPoolManager) p t pg' :
  inv s → 0 ≤ t < pool_size_ s → page_table_ s !! p = None →
  pages_ s' = <[Z.to_nat t := pg']> (pages_ s) →
  Clock.in_f (replacer_ s') = <[Z.to_nat t := false]> (Clock.in_f (replacer_ s)) →
  ((∀ q, page_table_ s !! q ≠ Some t) ∧ page_table_ s' = <[p := t]> (page_table_ s) ∨
   ∃ p0, page_table_ s !! p0 = Some t ∧
         page_table_ s' = <[p := t]> (delete p0 (page_table_ s))) →
  vec_read (pages_ s') t = Some pg' ∧
  (∀ g, g ≠ t → vec_read (pages_ s') g = vec_read (pages_ s) g) ∧
  page_table_ s' !! p = Some t ∧
  (∀ q g, q ≠ p →
          page_table_ s' !! q = Some g ↔ page_table_ s !! q = Some g ∧ g ≠ t) ∧
  ¬ Clock.in_replacer (replacer_ s') t ∧
  (∀ g, g ≠ t → Clock.in_replacer (replacer_ s') g ↔ Clock.in_replacer (replacer_ s) g).
Proof.
  intros Hinv Ht Hp Hpages Hin Hpt. pose proof (inv_pages _ Hinv) as Hlen.
  split; [rewrite Hpages; apply vec_read_insert_eq; lia|].
  split; [intros g Hne; rewrite Hpages; apply vec_read_insert_ne; lia|].
  destruct (in_replacer_cleared _ _ t Hin) as [Hout Hsame]; [lia|].
  destruct Hpt as [[Hnot ->]|(p0 & Hp0 & ->)].
  - split; [apply lookup_insert_eq|]. split; [|done]. intros q g Hne.
    rewrite lookup_insert_ne by done. split; [|by intros [? _]].
    intros Hq. split; [done|]. intros ->. by destruct (Hnot q).
  - split; [apply lookup_insert_eq|]. split; [|done]. intros q g Hne.
    rewrite lookup_insert_ne by done. rewrite lookup_delete_Some. split.
    + intros [Hne0 Hq]. split; [done|]. intros ->. apply Hne0.
      by apply (inv_table_inj s p0 q t).
    + intros [Hq Hg]. split; [|done]. intros ->. congruence.
Qed.

(** The disk after the victim [t], which held page [p0], was written back
    if dirty. *)
Lemma stored_after_eviction (s : BufferPoolManager) p0 t (pg : Page Data) q :
  inv s → page_table_ s !! p0 = Some t →
  (if is_dirty_ pg then <[p0 := data_ pg]> (stored (disk_manager_ s))
   else stored (disk_manager_ s)) !! q =
  if bool_decide (page_table_ s !! q = Some t) && is_dirty_ pg
  then Some (data_ pg) else stored (disk_manager_ s) !! q.
Proof.
  intros Hinv Hp0. destruct (is_dirty_ pg); [|by rewrite andb_false_r].
  rewrite andb_true_r. case_bool_decide as Hq.
  - rewrite (inv_table_inj s q p0 t Hinv Hq Hp0). apply lookup_insert_eq.
  - apply lookup_insert_ne. by intros ->.
Qed.


(** X15.  [NewPage] fails, leaving the pool as it is, exactly when the free
    list is empty and the replacer has no candidate.  Otherwise the page id
    it returns is the next id of the disk manager, which no resident page
    carries; the frame is chosen and written back as in [FetchPage]; and it
    then holds the new page, zeroed, pinned once and clean. *)
Theorem NewPage_installs_fresh_page (s : BufferPoolManager) :
  inv s →
  ∃ s' r, NewPageImpl zero_data s = Some (s', r) ∧
    (r = None ↔ free_list_ s = [] ∧ ∀ f, ¬ Clock.in_replacer (replacer_ s) f) ∧
    (r = None → s' = s) ∧
    ∀ pid t, r = Some (pid, t) →
      pid = next_page_id_ (disk_manager_ s) ∧
      next_page_id_ (disk_manager_ s') = pid + 1 ∧
      page_table_ s !! pid = None ∧
      (free_list_ s = t :: free_list_ s' ∨
       free_list_ s = [] ∧ free_list_ s' = [] ∧ Clock.in_replacer (replacer_ s) t) ∧
      ∃ old, vec_read (pages_ s) t = Some old ∧ pin_count_ old = 0 ∧
        vec_read (pages_ s') t = Some (BuildPage zero_data pid 1 false) ∧
        (∀ g, g ≠ t → vec_read (pages_ s') g = vec_read (pages_ s) g) ∧
        page_table_ s' !! pid = Some t ∧
        (∀ q g, q ≠ pid →
                page_table_ s' !! q = Some g ↔ page_table_ s !! q = Some g ∧ g ≠ t) ∧
        ¬ Clock.in_replacer (replacer_ s') t ∧
        (∀ g, g ≠ t →
              Clock.in_replacer (replacer_ s') g ↔ Clock.in_replacer (replacer_ s) g) ∧
        ∀ q, stored (disk_manager_ s') !! q =
             if bool_decide (page_table_ s !! q = Some t) && is_dirty_ old
             then Some (data_ old) else stored (disk_manager_ s) !! q.
Proof.
  intros Hinv. pose proof (NewPageImpl_paths s Hinv) as H.
  assert (Hpt : page_table_ s !! next_page_id_ (disk_manager_ s) = None).
  { destruct (page_table_ s !! next_page_id_ (disk_manager_ s)) as [g|] eqn:Hg; [|done].
    pose proof (inv_allocated _ Hinv _ _ Hg). lia. }
  destruct (free_list_ s) as [|t rest] eqn:Hfl.
  - destruct H as (r1 & v & HV & Hv). destruct v as [t|].
    + destruct Hv as (p0 & pg & Hres & Hid & Hpin & Ht & Hwf1 & Hsz1 & Hin1 & Hnew).
      pose proof Hres as [Hp0 Hfr _ _ Hcand].
      eexists _, _. split; [exact Hnew|]. split.
      { split; [done|]. intros [_ Hnone]. destruct (Hnone t). by apply Hcand. }
      split; [done|]. intros pid t' [= <- <-]. do 3 (split; [done|]). split.
      { right. split; [done|]. split; [done|]. by apply Hcand. }
      exists pg. split; [done|]. split; [done|].
      match goal with |- context [pages_ ?s'] =>
        destruct (frame_taken s s' (next_page_id_ (disk_manager_ s)) t
                    (BuildPage zero_data (next_page_id_ (disk_manager_ s)) 1 false)
                    Hinv Ht Hpt)
          as (H1 & H2 & H3 & H4 & H5 & H6); [done|done|right; by exists p0|] end.
      do 6 (split; [done|]). simpl.
      intros q. by apply stored_after_eviction.
    + destruct Hv as [Hnone Hnew]. exists s, None. split; [done|]. done.
  - destruct H as (pg & Hfr & Hpin & Ht & Hnew).
    assert (Hfin : t ∈ free_list_ s) by (rewrite Hfl; apply list_elem_of_here).
    destruct (inv_free _ Hinv t Hfin) as (_ & Hnot).
    eexists _, _. split; [exact Hnew|]. split; [split; [done|by intros [? _]]|].
    split; [done|]. intros pid t' [= <- <-]. do 3 (split; [done|]). split; [by left|].
    exists pg. split; [done|]. split; [done|].
    match goal with |- context [pages_ ?s'] =>
      destruct (frame_taken s s' (next_page_id_ (disk_manager_ s)) t
                  (BuildPage zero_data (next_page_id_ (disk_manager_ s)) 1 false)
                  Hinv Ht Hpt)
        as (H1 & H2 & H3 & H4 & H5 & H6); [done|done|by left|] end.
    do 6 (split; [done|]). simpl.
    intros q. by rewrite bool_decide_eq_false_2 by apply Hnot.
Qed.

(** A resident page, with the bounds of its frame. *)
Lemma inv_lookup (s : BufferPoolManager) p f :
  inv s → page_table_ s !! p = Some f →
  ∃ pg, vec_read (pages_ s) f = Some pg ∧ page_id_ pg = p ∧ 0 ≤ pin_count_ pg ∧
        (Clock.in_replacer (replacer_ s) f ↔ pin_count_ pg = 0) ∧
        0 ≤ f < pool_size_ s ∧ 0 ≤ f < Z.of_nat (length (pages_ s)) ∧
        0 ≤ f < Clock.buffer_size (replacer_ s) ∧ f ∉ free_list_ s.
Proof.
  intros Hinv Hp.
  destruct (inv_resident _ Hinv p f Hp) as (pg & [_ Hfr Hc Hpin Hiff] & Hid).
  destruct (inv_frame_range s f pg Hinv Hfr) as [Hf Hf'].
  pose proof (inv_pages _ Hinv) as Hlen.
  exists pg. do 4 (split; [done|]). split; [done|]. split; [lia|]. split; [done|].
  intros Hfree. by destruct (inv_free _ Hinv f Hfree) as [_ Hnot]; destruct (Hnot p).
Qed.

(** [FetchPageImpl] on a resident page. *)
Lemma FetchPageImpl_hit (s : BufferPoolManager) p f pg :
  inv s → page_table_ s !! p = Some f → vec_read (pages_ s) f = Some pg →
  FetchPageImpl p s =
  Some (Build (pool_size_ s)
          (<[Z.to_nat f := BuildPage (data_ pg) (page_id_ pg) (pin_count_ pg + 1)
                             (is_dirty_ pg)]> (pages_ s))
          (disk_manager_ s) (page_table_ s)
          (Clock.Build (Clock.clock_hand (replacer_ s)) (Clock.buffer_size (replacer_ s))
             (Clock.ref_f (replacer_ s)) (<[Z.to_nat f := false]> (Clock.in_f (replacer_ s))))
          (free_list_ s), Some f).
Proof.
  intros Hinv Hp Hfr.
  destruct (inv_lookup s p f Hinv Hp) as (pg' & Hfr' & _ & _ & _ & Hf & Hfl & Hfc & _).
  unfold FetchPageImpl. rewrite Hp.
  rewrite ClockProps.Pin_in_range by (done || apply Hinv). cbn [mbind option_bind].
  rewrite Hfr. cbn [mbind option_bind]. by rewrite vec_write_in_range by lia.
Qed.

(** [UnpinPageImpl], case by case. *)
Lemma UnpinPageImpl_paths (s : BufferPoolManager) p d :
  inv s →
  match page_table_ s !! p with
  | None => UnpinPageImpl p d s = Some (s, true)
  | Some f =>
    ∃ pg, vec_read (pages_ s) f = Some pg ∧ page_id_ pg = p ∧ 0 ≤ pin_count_ pg ∧
      0 ≤ f < pool_size_ s ∧
      (pin_count_ pg = 0 → UnpinPageImpl p d s = Some (s, false)) ∧
      (0 < pin_count_ pg →
       UnpinPageImpl p d s =
       Some (Build (pool_size_ s)
               (<[Z.to_nat f := BuildPage (data_ pg) p (pin_count_ pg - 1)
                                  (is_dirty_ pg || d)]> (pages_ s))
               (disk_manager_ s) (page_table_ s)
               (if pin_count_ pg =? 1
                then Clock.Build (Clock.clock_hand (replacer_ s))
                       (Clock.buffer_size (replacer_ s))
                       (<[Z.to_nat f := true]> (Clock.ref_f (replacer_ s)))
                       (<[Z.to_nat f := true]> (Clock.in_f (replacer_ s)))
                else replacer_ s)
               (free_list_ s), true))
  end.
Proof.
  intros Hinv. destruct (page_table_ s !! p) as [f|] eqn:Hp.
  - destruct (inv_lookup s p f Hinv Hp) as (pg & Hfr & Hid & Hpin & _ & Hf & Hfl & Hfc & _).
    exists pg. do 4 (split; [done|]). unfold UnpinPageImpl. rewrite Hp, Hfr.
    cbn [mbind option_bind]. split.
    + intros ->. done.
    + intros Hpos. destruct (Z.leb_spec (pin_count_ pg) 0); [lia|].
      rewrite vec_write_in_range by lia. cbn [mbind option_bind pin_count_].
      destruct (Z.eqb_spec (pin_count_ pg - 1) 0) as [Hz|Hnz].
      * rewrite ClockProps.Unpin_in_range by (done || apply Hinv).
        cbn [mbind option_bind]. destruct (Z.eqb_spec (pin_count_ pg) 1); [|lia].
        by rewrite Hid.
      * cbn [mbind option_bind]. destruct (Z.eqb_spec (pin_count_ pg) 1); [lia|].
        rewrite Hid. unfold set_pages, set_replacer. done.
  - unfold UnpinPageImpl. by rewrite Hp.
Qed.

(** [FlushPageImpl], case by case. *)
Lemma FlushPageImpl_paths (s : BufferPoolManager) p :
  inv s →
  match page_table_ s !! p with
  | None => FlushPageImpl p s = Some (s, false)
  | Some f =>
    ∃ pg, vec_read (pages_ s) f = Some pg ∧ page_id_ pg = p ∧ 0 ≤ f < pool_size_ s ∧
      FlushPageImpl p s =
      Some (Build (pool_size_ s)
              (<[Z.to_nat f := BuildPage (data_ pg) p (pin_count_ pg) false]> (pages_ s))
              (BuildDisk (next_page_id_ (disk_manager_ s))
                 (if is_dirty_ pg then <[p := data_ pg]> (stored (disk_manager_ s))
                  else stored (disk_manager_ s)))
              (page_table_ s) (replacer_ s) (free_list_ s), true)
  end.
Proof.
  intros Hinv. destruct (page_table_ s !! p) as [f|] eqn:Hp.
  - destruct (inv_lookup s p f Hinv Hp) as (pg & Hfr & Hid & Hpin & _ & Hf & Hfl & Hfc & _).
    exists pg. do 3 (split; [done|]). unfold FlushPageImpl. rewrite Hp, Hfr.
    cbn [mbind option_bind]. destruct (is_dirty_ pg) eqn:Hdirty; cbn [negb].
    + rewrite vec_write_in_range by lia. cbn [mbind option_bind]. by rewrite Hid.
    + f_equal. f_equal. destruct s as [ps pgs [nid st] pt r fl]. simpl in *. f_equal.
      symmetry. apply list_insert_id. apply vec_read_Some in Hfr as [_ ->].
      f_equal. destruct pg; simpl in *; congruence.
  - unfold FlushPageImpl. by rewrite Hp.
Qed.

(** [DeletePageImpl], case by case. *)
Lemma DeletePageImpl_paths (s : BufferPoolManager) p :
  inv s →
  if bool_decide (p = INVALID_PAGE_ID) then DeletePageImpl p s = Some (s, true)
  else
    match page_table_ s !! p with
    | None => DeletePageImpl p s = Some (s, true)
    | Some f =>
      ∃ pg, vec_read (pages_ s) f = Some pg ∧ page_id_ pg = p ∧ 0 ≤ pin_count_ pg ∧
        0 ≤ f < pool_size_ s ∧
        (0 < pin_count_ pg → DeletePageImpl p s = Some (s, false)) ∧
        (pin_count_ pg = 0 →
         DeletePageImpl p s =
         Some (Build (pool_size_ s)
                 (<[Z.to_nat f := BuildPage (data_ pg) INVALID_PAGE_ID 0 false]> (pages_ s))
                 (disk_manager_ s) (delete p (page_table_ s)) (replacer_ s)
                 (free_list_ s ++ [f]), true))
    end.
Proof.
  intros Hinv. unfold DeletePageImpl. case_bool_decide as Hinvalid.
  { destruct (Z.eqb_spec p INVALID_PAGE_ID); done. }
  destruct (Z.eqb_spec p INVALID_PAGE_ID); [done|].
  destruct (page_table_ s !! p) as [f|] eqn:Hp; [|done].
  destruct (inv_lookup s p f Hinv Hp) as (pg & Hfr & Hid & Hpin & _ & Hf & Hfl & Hfc & _).
  exists pg. do 4 (split; [done|]). rewrite Hfr. cbn [mbind option_bind]. split.
  - intros Hpos. destruct (Z.eqb_spec (pin_count_ pg) 0); [lia|done].
  - intros Hz. rewrite Hz. cbn [Z.eqb negb]. rewrite vec_write_in_range by lia.
    done.
Qed.

(** X16.  [UnpinPage].  On a page that is not resident it answers [true]
    and does nothing.  On a resident page whose pin count is already 0 it
    answers [false] and does nothing: a second release of the same pin is
    detected.  Otherwise it takes one pin off, ors [is_dirty] into the dirty
    flag, and changes no other frame, nor the page table, the free list or
    the disk; the frame becomes a candidate of the replacer, with its
    reference bit set, exactly when the last pin is released. *)
Theorem UnpinPage_releases_one_pin (s : BufferPoolManager) p d :
  inv s →
  ∃ s' r, UnpinPageImpl p d s = Some (s', r) ∧
    match page_table_ s !! p with
    | None => r = true ∧ s' = s
    | Some f =>
      ∃ pg, vec_read (pages_ s) f = Some pg ∧
        (pin_count_ pg = 0 → r = false ∧ s' = s) ∧
        (pin_count_ pg ≠ 0 →
         r = true ∧
         vec_read (pages_ s') f =
           Some (BuildPage (data_ pg) p (pin_count_ pg - 1) (is_dirty_ pg || d)) ∧
         (∀ g, g ≠ f → vec_read (pages_ s') g = vec_read (pages_ s) g) ∧
         page_table_ s' = page_table_ s ∧ free_list_ s' = free_list_ s ∧
         disk_manager_ s' = disk_manager_ s ∧
         (Clock.in_replacer (replacer_ s') f ↔ pin_count_ pg = 1) ∧
         (pin_count_ pg = 1 → vec_read (Clock.ref_f (replacer_ s')) f = Some true) ∧
         (∀ g, g ≠ f →
               Clock.in_replacer (replacer_ s') g ↔ Clock.in_replacer (replacer_ s) g))
    end.
Proof.
  intros Hinv. pose proof (UnpinPageImpl_paths s p d Hinv) as H.
  destruct (page_table_ s !! p) as [f|] eqn:Hp; [|by exists s, true].
  destruct H as (pg & Hfr & Hid & Hpin & Hf & Hzero & Hpos).
  destruct (inv_lookup s p f Hinv Hp) as (pg' & Hfr' & _ & _ & Hcand & _ & Hfl & Hfc & _).
  assert (pg' = pg) as -> by congruence.
  pose proof (Clock.wf_in _ (inv_replacer _ Hinv)) as Hlin.
  pose proof (Clock.wf_ref _ (inv_replacer _ Hinv)) as Hlref.
  destruct (decide (pin_count_ pg = 0)) as [Hz|Hnz].
  - exists s, false. split; [by apply Hzero|]. exists pg. split; [done|]. done.
  - eexists _, _. split; [apply Hpos; lia|]. exists pg. split; [done|].
    split; [done|]. intros _. split; [done|]. simpl.
    split; [apply vec_read_insert_eq; lia|].
    split; [intros g Hne; apply vec_read_insert_ne; lia|].
    do 3 (split; [done|]).
    destruct (Z.eqb_spec (pin_count_ pg) 1) as [H1|H1]; simpl.
    + split; [|split].
      * split; [done|]. intros _. unfold Clock.in_replacer. simpl.
        apply vec_read_insert_eq. lia.
      * intros _. apply vec_read_insert_eq. lia.
      * intros g Hne. unfold Clock.in_replacer. simpl.
        by rewrite vec_read_insert_ne by lia.
    + split; [|split; [done|done]]. rewrite Hcand. lia.
Qed.

(** X17.  [FlushPage] answers [false] and does nothing for a page that is
    not resident.  For a resident page it answers [true]; the page's bytes
    are on disk afterwards if the page was dirty, nothing else is written,
    and the dirty flag of its frame is cleared.  The pin counts, the page
    table, the free list and the replacer are not touched. *)
Theorem FlushPage_writes_dirty_page (s : BufferPoolManager) p :
  inv s →
  ∃ s' r, FlushPageImpl p s = Some (s', r) ∧
    (r = true ↔ is_Some (page_table_ s !! p)) ∧
    page_table_ s' = page_table_ s ∧ free_list_ s' = free_list_ s ∧
    replacer_ s' = replacer_ s ∧ pool_size_ s' = pool_size_ s ∧
    next_page_id_ (disk_manager_ s') = next_page_id_ (disk_manager_ s) ∧
    match page_table_ s !! p with
    | None => s' = s
    | Some f =>
      ∃ pg, vec_read (pages_ s) f = Some pg ∧
        vec_read (pages_ s') f = Some (BuildPage (data_ pg) p (pin_count_ pg) false) ∧
        (∀ g, g ≠ f → vec_read (pages_ s') g = vec_read (pages_ s) g) ∧
        ∀ q, stored (disk_manager_ s') !! q =
             if bool_decide (q = p) && is_dirty_ pg
             then Some (data_ pg) else stored (disk_manager_ s) !! q
    end.
Proof.
  intros Hinv. pose proof (FlushPageImpl_paths s p Hinv) as H.
  pose proof (inv_pages _ Hinv) as Hlen.
  destruct (page_table_ s !! p) as [f|] eqn:Hp.
  - destruct H as (pg & Hfr & Hid & Hf & Hflush).
    eexists _, _. split; [exact Hflush|]. split; [done|]. simpl.
    do 5 (split; [done|]). exists pg. split; [done|].
    split; [apply vec_read_insert_eq; lia|].
    split; [intros g Hne; apply vec_read_insert_ne; lia|].
    intros q. destruct (is_dirty_ pg); [|by rewrite andb_false_r].
    rewrite andb_true_r. case_bool_decide as Hq.
    + subst q. apply lookup_insert_eq.
    + by apply lookup_insert_ne.
  - exists s, false. split; [done|]. split; [|done]. split; [done|]. by intros [? ?].
Qed.

(** X18.  [DeletePage] answers [false], and does nothing, exactly when the
    page is resident and pinned.  For [INVALID_PAGE_ID] and for a page that
    is not resident it answers [true] and does nothing.  A resident,
    unpinned page is taken out of the page table and its frame is appended
    to the free list with the page id reset and the dirty flag cleared; the
    bytes of a dirty page are not written to disk, and no other frame
    changes. *)
Theorem DeletePage_frees_unpinned_page (s : BufferPoolManager) p :
  inv s →
  ∃ s' r, DeletePageImpl p s = Some (s', r) ∧
    (r = false ↔
     p ≠ INVALID_PAGE_ID ∧
     ∃ f pg, page_table_ s !! p = Some f ∧ vec_read (pages_ s) f = Some pg ∧
             pin_count_ pg ≠ 0) ∧
    (r = false ∨ p = INVALID_PAGE_ID ∨ page_table_ s !! p = None → s' = s) ∧
    ∀ f, r = true → p ≠ INVALID_PAGE_ID → page_table_ s !! p = Some f →
      page_table_ s' = delete p (page_table_ s) ∧
      free_list_ s' = free_list_ s ++ [f] ∧
      (∃ pg, vec_read (pages_ s) f = Some pg ∧ pin_count_ pg = 0 ∧
             vec_read (pages_ s') f = Some (BuildPage (data_ pg) INVALID_PAGE_ID 0 false)) ∧
      (∀ g, g ≠ f → vec_read (pages_ s') g = vec_read (pages_ s) g) ∧
      disk_manager_ s' = disk_manager_ s ∧ replacer_ s' = replacer_ s.
Proof.
  intros Hinv. pose proof (DeletePageImpl_paths s p Hinv) as H.
  pose proof (inv_pages _ Hinv) as Hlen.
  case_bool_decide as Hinvalid.
  { exists s, true. split; [done|]. split; [split; [done|by intros [? _]]|]. done. }
  destruct (page_table_ s !! p) as [f|] eqn:Hp.
  2:{ exists s, true. split; [done|]. split; [|done].
      split; [done|]. by intros (_ & ? & ? & ? & _). }
  destruct H as (pg & Hfr & Hid & Hpin & Hf & Hpos & Hzero).
  destruct (decide (pin_count_ pg = 0)) as [Hz|Hnz].
  - eexists _, _. split; [by apply Hzero|]. split.
    { split; [done|]. intros (_ & f' & pg' & ? & Hfr' & ?). simplify_eq. }
    split; [by intros [?|[?|?]]|]. intros f' _ _ [= <-]. simpl.
    do 2 (split; [done|]). split.
    { exists pg. split; [done|]. split; [done|]. apply vec_read_insert_eq. lia. }
    split; [intros g Hne; apply vec_read_insert_ne; lia|]. done.
  - exists s, false. split; [apply Hpos; lia|]. split.
    { split; [|done]. intros _. split; [done|]. by exists f, pg. }
    split; [done|]. by intros f' [=].
Qed.

(** *** Write-backs *)

Lemma flushed_refl (s : BufferPoolManager) : flushed s s.
Proof.
  do 5 (split; [done|]). split; [|split; [|done]].
  - intros f pg Hfr. by exists pg.
  - intros p f pg pg' _ Hfr Hfr'. assert (pg' = pg) as -> by congruence.
    by rewrite andb_negb_r.
Qed.

Lemma flushed_trans (s1 s2 s3 : BufferPoolManager) :
  flushed s1 s2 → flushed s2 s3 → flushed s1 s3.
Proof.
  intros (Hpt1 & Hfl1 & Hr1 & Hps1 & Hn1 & Hfr1 & Hd1 & Ho1)
         (Hpt2 & Hfl2 & Hr2 & Hps2 & Hn2 & Hfr2 & Hd2 & Ho2).
  split; [congruence|]. split; [congruence|]. split; [congruence|].
  split; [congruence|]. split; [congruence|]. split; [|split].
  - intros f pg Hf. destruct (Hfr1 f pg Hf) as (pg1 & Hf1 & ? & ? & ? & ?).
    destruct (Hfr2 f pg1 Hf1) as (pg2 & Hf2 & ? & ? & ? & ?).
    exists pg2. split; [done|]. split; [congruence|]. split; [congruence|].
    split; [congruence|]. auto.
  - intros p f pg pg3 Hp Hf Hf3.
    destruct (Hfr1 f pg Hf) as (pg1 & Hf1 & Hdata & _ & _ & Hmono1).
    destruct (Hfr2 f pg1 Hf1) as (pg2 & Hf2 & _ & _ & _ & Hmono2).
    assert (pg2 = pg3) as -> by congruence.
    rewrite (Hd2 p f pg1 pg3) by congruence. rewrite (Hd1 p f pg pg1) by done.
    rewrite Hdata.
    destruct (is_dirty_ pg) eqn:E0, (is_dirty_ pg1) eqn:E1, (is_dirty_ pg3) eqn:E3;
      simpl;
      first [done | by specialize (Hmono1 eq_refl) | by specialize (Hmono2 eq_refl)].
  - intros q Hq. rewrite Ho2 by congruence. by apply Ho1.
Qed.

Lemma FlushPageImpl_flushed (s s' : BufferPoolManager) p r :
  inv s → FlushPageImpl p s = Some (s', r) → flushed s s'.
Proof.
  intros Hinv Hflush. pose proof (FlushPageImpl_paths s p Hinv) as H.
  pose proof (inv_pages _ Hinv) as Hlen.
  destruct (page_table_ s !! p) as [f|] eqn:Hp.
  2:{ rewrite H in Hflush. simplify_eq. apply flushed_refl. }
  destruct H as (pg & Hfr & Hid & Hf & H). rewrite H in Hflush. simplify_eq.
  do 5 (split; [done|]). simpl. split; [|split].
  - intros g pg0 Hg. destruct (decide (g = f)) as [->|Hne].
    + assert (pg0 = pg) as -> by congruence. eexists. split; [apply vec_read_insert_eq; lia|].
      simpl. done.
    + exists pg0. split; [by rewrite vec_read_insert_ne by lia|]. done.
  - intros q g pg0 pg0' Hq Hg Hg'. destruct (decide (g = f)) as [->|Hne].
    + assert (q = page_id_ pg) as -> by by apply (inv_table_inj s q (page_id_ pg) f).
      assert (pg0 = pg) as -> by congruence.
      rewrite vec_read_insert_eq in Hg' by lia. simplify_eq. simpl.
      rewrite andb_true_r. destruct (is_dirty_ pg); [apply lookup_insert_eq|done].
    + rewrite vec_read_insert_ne in Hg' by lia.
      assert (pg0' = pg0) as -> by congruence. rewrite andb_negb_r.
      assert (q ≠ page_id_ pg) by (intros ->; congruence).
      destruct (is_dirty_ pg); [by apply lookup_insert_ne|done].
  - intros q Hq. assert (q ≠ page_id_ pg) by (intros ->; congruence).
    destruct (is_dirty_ pg); [by apply lookup_insert_ne|done].
Qed.

(** The loop of [FlushAllPagesImpl] runs to completion, performs write-backs
    only, and leaves every resident page in the frames it visits clean. *)
Lemma FlushAll_loop_flushed n : ∀ i (s : BufferPoolManager),
  inv s → 0 ≤ i → i + Z.of_nat n ≤ pool_size_ s →
  ∃ s', FlushAll_loop n i s = Some s' ∧ flushed s s' ∧
    ∀ p f, i ≤ f < i + Z.of_nat n → page_table_ s !! p = Some f →
      ∃ pg', vec_read (pages_ s') f = Some pg' ∧ is_dirty_ pg' = false.
Proof.
  induction n as [|n IH]; intros i s Hinv Hi Hn.
  - exists s. split; [done|]. split; [apply flushed_refl|]. intros; lia.
  - pose proof (inv_pages _ Hinv) as Hlen.
    destruct (vec_read_in_range (pages_ s) i) as [pg Hpg]; [lia|].
    cbn [FlushAll_loop]. rewrite Hpg. cbn [mbind option_bind].
    assert (Hstep : ∃ s1, (if is_dirty_ pg then fst <$> FlushPageImpl (page_id_ pg) s
                           else Some s) = Some s1 ∧ inv s1 ∧ flushed s s1 ∧
              ∀ p, page_table_ s !! p = Some i →
                ∃ pg1, vec_read (pages_ s1) i = Some pg1 ∧ is_dirty_ pg1 = false).
    { destruct (is_dirty_ pg) eqn:Hdirty.
      - pose proof (FlushPageImpl_paths s (page_id_ pg) Hinv) as H.
        destruct (page_table_ s !! page_id_ pg) as [f|] eqn:Hp.
        + destruct H as (pg0 & Hfr0 & Hid0 & Hf0 & H). rewrite H. eexists. split; [done|].
          split; [by eapply FlushPageImpl_inv|]. split; [by eapply FlushPageImpl_flushed|].
          intros p Hpi. destruct (inv_lookup s p i Hinv Hpi) as (pg' & Hfr' & Hid' & _).
          assert (pg' = pg) as -> by congruence.
          assert (f = i) as -> by congruence. simpl.
          eexists. split; [apply vec_read_insert_eq; lia|]. done.
        + rewrite H. exists s. split; [done|]. split; [done|]. split; [apply flushed_refl|].
          intros p Hpi. destruct (inv_lookup s p i Hinv Hpi) as (pg' & Hfr' & Hid' & _).
          assert (pg' = pg) as -> by congruence. congruence.
      - exists s. split; [done|]. split; [done|]. split; [apply flushed_refl|].
        intros p Hpi. by exists pg. }
    destruct Hstep as (s1 & -> & Hinv1 & Hfl1 & Hclean1). cbn [mbind option_bind].
    pose proof Hfl1 as (Hpt1 & _ & _ & Hps1 & _).
    destruct (IH (i + 1) s1 Hinv1) as (s' & Hrun & Hfl' & Hclean'); [lia|lia|].
    exists s'. split; [done|]. split; [by eapply flushed_trans|].
    intros p f Hf Hp. destruct (decide (f = i)) as [->|Hne].
    + destruct (Hclean1 p Hp) as (pg1 & Hfr1 & Hd1).
      destruct Hfl' as (_ & _ & _ & _ & _ & Hfr & _).
      destruct (Hfr i pg1 Hfr1) as (pg' & Hfr' & _ & _ & _ & Hmono).
      exists pg'. split; [done|]. destruct (is_dirty_ pg'); [|done].
      rewrite Hmono in Hd1; done.
    + apply (Hclean' p f); [lia|congruence].
Qed.

(** X19.  [FlushAllPages] runs to completion and performs write-backs only:
    the page table, the free list, the replacer, and the bytes, page id and
    pin count of every frame are as before, and no frame becomes dirty.
    Afterwards every resident page is clean; its bytes are on disk if it was
    dirty, and the disk is otherwise unchanged. *)
Theorem FlushAllPages_cleans_resident_pages (s : BufferPoolManager) :
  inv s →
  ∃ s', FlushAllPagesImpl s = Some s' ∧
    page_table_ s' = page_table_ s ∧ free_list_ s' = free_list_ s ∧
    replacer_ s' = replacer_ s ∧ pool_size_ s' = pool_size_ s ∧
    next_page_id_ (disk_manager_ s') = next_page_id_ (disk_manager_ s) ∧
    (∀ f pg, vec_read (pages_ s) f = Some pg →
       ∃ pg', vec_read (pages_ s') f = Some pg' ∧ data_ pg' = data_ pg ∧
              page_id_ pg' = page_id_ pg ∧ pin_count_ pg' = pin_count_ pg ∧
              (is_dirty_ pg' = true → is_dirty_ pg = true)) ∧
    (∀ p f pg, page_table_ s !! p = Some f → vec_read (pages_ s) f = Some pg →
       vec_read (pages_ s') f =
         Some (BuildPage (data_ pg) p (pin_count_ pg) false) ∧
       stored (disk_manager_ s') !! p =
         if is_dirty_ pg then Some (data_ pg) else stored (disk_manager_ s) !! p) ∧
    (∀ q, page_table_ s !! q = None →
          stored (disk_manager_ s') !! q = stored (disk_manager_ s) !! q).
Proof.
  intros Hinv. pose proof (Clock.wf_size _ (inv_replacer _ Hinv)) as Hsz.
  pose proof (inv_capacity _ Hinv) as Hcap.
  destruct (FlushAll_loop_flushed (Z.to_nat (pool_size_ s)) 0 s Hinv)
    as (s' & Hrun & Hfl & Hclean); [lia|lia|].
  exists s'. split; [done|].
  destruct Hfl as (Hpt & Hfree & Hr & Hps & Hnext & Hfr & Hd & Ho).
  do 6 (split; [done|]). split; [|done].
  intros p f pg Hp Hpg.
  destruct (inv_lookup s p f Hinv Hp) as (pg0 & Hfr0 & Hid0 & _ & _ & Hf & _).
  assert (pg0 = pg) as -> by congruence.
  destruct (Hclean p f) as (pg' & Hfr' & Hclean'); [lia|done|].
  destruct (Hfr f pg Hpg) as (pg1 & Hfr1 & Hdata & Hid & Hpin & _).
  assert (pg1 = pg') as -> by congruence.
  split.
  - rewrite Hfr'. f_equal. destruct pg'; simpl in *; congruence.
  - rewrite (Hd p f pg pg' Hp Hpg Hfr'). rewrite Hclean'. by rewrite andb_true_r.
Qed.

(** *** What one call can change *)

(** A call either performs write-backs only, or rewrites one frame [t]: it
    moves a pin of the page in [t], or takes [t], then unpinned, for a page
    that was not resident, or frees [t], then unpinned. *)
Lemma step_shape (s s' : BufferPoolManager) :
  inv s → step zero_data s s' →
  flushed s s' ∨
  ∃ t old new, vec_read (pages_ s) t = Some old ∧ 0 ≤ t < pool_size_ s ∧
    pages_ s' = <[Z.to_nat t := new]> (pages_ s) ∧ pool_size_ s' = pool_size_ s ∧
    ((page_table_ s' = page_table_ s ∧ free_list_ s' = free_list_ s ∧
      data_ new = data_ old ∧ page_id_ new = page_id_ old ∧
      (pin_count_ new = pin_count_ old + 1 ∨ pin_count_ new = pin_count_ old - 1))
     ∨ (pin_count_ old = 0 ∧
        ∃ p, page_table_ s !! p = None ∧ page_table_ s' !! p = Some t ∧
          (∀ q g, q ≠ p →
                  page_table_ s' !! q = Some g ↔ page_table_ s !! q = Some g ∧ g ≠ t) ∧
          (free_list_ s = t :: free_list_ s' ∨ free_list_ s = [] ∧ free_list_ s' = []))
     ∨ (pin_count_ old = 0 ∧
        ∃ p, page_table_ s !! p = Some t ∧ page_table_ s' = delete p (page_table_ s) ∧
             free_list_ s' = free_list_ s ++ [t])).
Proof.
  intros Hinv Hstep.
  destruct Hstep as [p s' r Hp H|p d s' r H|p s' r H|s' r H|p s' r H|s' H].
  - (* FetchPage *)
    destruct (page_table_ s !! p) as [f|] eqn:Hpt.
    + destruct (inv_lookup s p f Hinv Hpt) as (pg & Hfr & _ & _ & _ & Hf & _).
      rewrite (FetchPageImpl_hit s p f pg Hinv Hpt Hfr) in H. simplify_eq.
      right. eexists f, pg, _. do 2 (split; [done|]). simpl. do 2 (split; [done|]).
      left. simpl. do 4 (split; [done|]). by left.
    + pose proof (FetchPageImpl_miss s p Hinv Hpt) as Hm.
      destruct (free_list_ s) as [|t rest] eqn:Hfl.
      * destruct Hm as (r1 & v & HV & Hv). destruct v as [t|].
        -- destruct Hv as (p0 & pg & Hres & Hid & Hpin & Ht & Hwf1 & Hsz1 & Hin1 & Hfetch).
           pose proof Hres as [Hp0 Hfr _ _ _]. rewrite Hfetch in H. simplify_eq.
           right. eexists t, pg, _. do 2 (split; [done|]). simpl. do 2 (split; [done|]).
           right; left. split; [done|]. exists p. split; [done|].
           match goal with |- context [<[p := t]> ?m] =>
             destruct (frame_taken s
                         (Build (pool_size_ s) (<[Z.to_nat t := pg]> (pages_ s))
                            (disk_manager_ s) (<[p := t]> m) r1 []) p t pg Hinv Ht Hpt)
               as (_ & _ & H3 & H4 & _); [done|done|right; by exists (page_id_ pg)|] end.
           simpl in H3, H4. split; [done|]. split; [done|]. by right.
        -- destruct Hv as [_ Hfetch]. rewrite Hfetch in H. simplify_eq.
           left. apply flushed_refl.
      * destruct Hm as (pg & Hfr & Hpin & Ht & Hfetch). rewrite Hfetch in H. simplify_eq.
        assert (Hfin : t ∈ free_list_ s) by (rewrite Hfl; apply list_elem_of_here).
        destruct (inv_free _ Hinv t Hfin) as (_ & Hnot).
        right. eexists t, pg, _. do 2 (split; [done|]). simpl. do 2 (split; [done|]).
        right; left. split; [done|]. exists p. split; [done|].
        destruct (frame_taken s
                    (Build (pool_size_ s) (<[Z.to_nat t := pg]> (pages_ s))
                       (disk_manager_ s) (<[p := t]> (page_table_ s))
                       (Clock.Build 0 0 [] (<[Z.to_nat t := false]> (Clock.in_f (replacer_ s))))
                       rest) p t pg Hinv Ht Hpt)
          as (_ & _ & H3 & H4 & _); [done|done|by left|].
        simpl in H3, H4. split; [done|]. split; [done|]. by left.
  - (* UnpinPage *)
    pose proof (UnpinPageImpl_paths s p d Hinv) as Hu.
    destruct (page_table_ s !! p) as [f|] eqn:Hpt.
    2:{ rewrite Hu in H. simplify_eq. left. apply flushed_refl. }
    destruct Hu as (pg & Hfr & Hid & Hpin & Hf & Hzero & Hpos).
    destruct (decide (pin_count_ pg = 0)) as [Hz|Hnz].
    + rewrite (Hzero Hz) in H. simplify_eq. left. apply flushed_refl.
    + rewrite Hpos in H by lia. simplify_eq.
      right. eexists f, pg, _. do 2 (split; [done|]). simpl. do 2 (split; [done|]).
      left. simpl. do 4 (split; [done|]). by right.
  - (* FlushPage *)
    left. by eapply FlushPageImpl_flushed.
  - (* NewPage *)
    pose proof (NewPageImpl_paths s Hinv) as Hn.
    assert (Hpt : page_table_ s !! next_page_id_ (disk_manager_ s) = None).
    { destruct (page_table_ s !! next_page_id_ (disk_manager_ s)) as [g|] eqn:Hg; [|done].
      pose proof (inv_allocated _ Hinv _ _ Hg). lia. }
    destruct (free_list_ s) as [|t rest] eqn:Hfl.
    + destruct Hn as (r1 & v & HV & Hv). destruct v as [t|].
      * destruct Hv as (p0 & pg & Hres & Hid & Hpin & Ht & Hwf1 & Hsz1 & Hin1 & Hnew).
        pose proof Hres as [Hp0 Hfr _ _ _]. rewrite Hnew in H. simplify_eq.
        right. eexists t, pg, _. do 2 (split; [done|]). simpl. do 2 (split; [done|]).
        right; left. split; [done|]. exists (next_page_id_ (disk_manager_ s)).
        split; [done|].
        match goal with |- context [<[?p := t]> ?m] =>
          destruct (frame_taken s
                      (Build (pool_size_ s) (<[Z.to_nat t := pg]> (pages_ s))
                         (disk_manager_ s) (<[p := t]> m) r1 []) p t pg Hinv Ht Hpt)
            as (_ & _ & H3 & H4 & _); [done|done|right; by exists (page_id_ pg)|] end.
        simpl in H3, H4. split; [done|]. split; [done|]. by right.
      * destruct Hv as [_ Hnew]. rewrite Hnew in H. simplify_eq.
        left. apply flushed_refl.
    + destruct Hn as (pg & Hfr & Hpin & Ht & Hnew). rewrite Hnew in H. simplify_eq.
      assert (Hfin : t ∈ free_list_ s) by (rewrite Hfl; apply list_elem_of_here).
      destruct (inv_free _ Hinv t Hfin) as (_ & Hnot).
      right. eexists t, pg, _. do 2 (split; [done|]). simpl. do 2 (split; [done|]).
      right; left. split; [done|]. exists (next_page_id_ (disk_manager_ s)).
      split; [done|].
      destruct (frame_taken s
                  (Build (pool_size_ s) (<[Z.to_nat t := pg]> (pages_ s))
                     (disk_manager_ s)
                     (<[next_page_id_ (disk_manager_ s) := t]> (page_table_ s))
                     (Clock.Build 0 0 [] (<[Z.to_nat t := false]> (Clock.in_f (replacer_ s))))
                     rest) (next_page_id_ (disk_manager_ s)) t pg Hinv Ht Hpt)
        as (_ & _ & H3 & H4 & _); [done|done|by left|].
      simpl in H3, H4. split; [done|]. split; [done|]. by left.
  - (* DeletePage *)
    pose proof (DeletePageImpl_paths s p Hinv) as Hd.
    case_bool_decide as Hinvalid.
    { rewrite Hd in H. simplify_eq. left. apply flushed_refl. }
    destruct (page_table_ s !! p) as [f|] eqn:Hpt.
    2:{ rewrite Hd in H. simplify_eq. left. apply flushed_refl. }
    destruct Hd as (pg & Hfr & Hid & Hpin & Hf & Hpos & Hzero).
    destruct (decide (pin_count_ pg = 0)) as [Hz|Hnz].
    + rewrite (Hzero Hz) in H. simplify_eq.
      right. eexists f, pg, _. do 2 (split; [done|]). simpl. do 2 (split; [done|]).
      right; right. split; [done|]. by exists (page_id_ pg).
    + rewrite Hpos in H by lia. simplify_eq. left. apply flushed_refl.
  - (* FlushAllPages *)
    pose proof (Clock.wf_size _ (inv_replacer _ Hinv)) as Hsz.
    pose proof (inv_capacity _ Hinv) as Hcap.
    destruct (FlushAll_loop_flushed (Z.to_nat (pool_size_ s)) 0 s Hinv)
      as (s1 & Hrun & Hfl & _); [lia|lia|].
    unfold FlushAllPagesImpl in H. left. congruence.
Qed.

(** X20.  A pinned page is never evicted.  Whatever call is made on the
    pool, a resident page with a positive pin count stays in its frame, with
    the same bytes; the call moves its pin count by at most one. *)
Theorem pinned_page_is_never_evicted (s s' : BufferPoolManager) p f pg :
  inv s → step zero_data s s' →
  page_table_ s !! p = Some f → vec_read (pages_ s) f = Some pg → 0 < pin_count_ pg →
  ∃ pg', page_table_ s' !! p = Some f ∧ vec_read (pages_ s') f = Some pg' ∧
         data_ pg' = data_ pg ∧ page_id_ pg' = p ∧
         pin_count_ pg - 1 ≤ pin_count_ pg' ≤ pin_count_ pg + 1.
Proof.
  intros Hinv Hstep Hp Hfr Hpos.
  destruct (inv_lookup s p f Hinv Hp) as (pg0 & Hfr0 & Hid & _ & _ & Hf & Hfl & _).
  assert (pg0 = pg) as -> by congruence.
  destruct (step_shape s s' Hinv Hstep)
    as [(Hpt & _ & _ & _ & _ & Hframes & _)
       |(t & old & new & Hold & Ht & Hpages & _ & Hcase)].
  - destruct (Hframes f pg Hfr) as (pg' & Hfr' & Hdata & Hid' & Hpin & _).
    exists pg'. split; [congruence|]. split; [done|]. split; [done|].
    split; [congruence|lia].
  - destruct (decide (t = f)) as [->|Hne].
    + assert (old = pg) as -> by congruence.
      destruct Hcase as [(Hpt & _ & Hdata & Hid' & Hpin)|[[Hz _]|[Hz _]]]; [|lia..].
      exists new. split; [congruence|]. rewrite Hpages.
      split; [apply vec_read_insert_eq; lia|]. split; [done|]. split; [congruence|lia].
    + exists pg. rewrite Hpages, vec_read_insert_ne by lia.
      split; [|split; [done|split; [done|split; [done|lia]]]].
      destruct Hcase as [(Hpt & _)|[(_ & p1 & Hp1 & _ & Hother & _)
                                   |(_ & p1 & Hp1 & Hpt & _)]].
      * congruence.
      * apply Hother; [intros ->; congruence|]. split; [done|congruence].
      * rewrite Hpt. apply lookup_delete_Some. split; [intros ->; congruence|done].
Qed.

(** *** Every frame is accounted for *)

Lemma covered_create n (d : DiskManager Data) : covered (create zero_data n d).
Proof.
  intros f Hf. simpl in Hf. left. simpl. apply list_elem_of_fmap. exists (Z.to_nat f).
  split; [lia|]. apply elem_of_seq. lia.
Qed.

Lemma step_covered (s s' : BufferPoolManager) :
  inv s → covered s → step zero_data s s' → covered s'.
Proof.
  intros Hinv Hcov Hstep.
  destruct (step_shape s s' Hinv Hstep)
    as [(Hpt & Hfl & _ & Hps & _)|(t & old & new & Hold & Ht & Hpages & Hps & Hcase)].
  - intros f Hf. rewrite Hpt, Hfl. apply Hcov. lia.
  - intros f Hf. rewrite Hps in Hf.
    destruct Hcase as [(Hpt & Hfl & _)|[(_ & p1 & Hp1 & Hp1' & Hother & Hfl)
                                       |(_ & p1 & Hp1 & Hpt & Hfl)]].
    + rewrite Hpt, Hfl. by apply Hcov.
    + destruct (decide (f = t)) as [->|Hne]; [right; by exists p1|].
      destruct (Hcov f Hf) as [Hfree|[q Hq]].
      * left. destruct Hfl as [Hfl|[Hfl _]]; rewrite Hfl in Hfree.
        -- by apply elem_of_cons in Hfree as [?|?].
        -- by apply elem_of_nil in Hfree.
      * right. exists q. apply Hother; [intros ->; congruence|done].
    + rewrite Hfl, Hpt. destruct (decide (f = t)) as [->|Hne].
      * left. apply elem_of_app. right. by apply list_elem_of_singleton.
      * destruct (Hcov f Hf) as [Hfree|[q Hq]].
        -- left. apply elem_of_app. by left.
        -- right. exists q. apply lookup_delete_Some. split; [intros ->; congruence|done].
Qed.

Lemma reachable_inv_covered (s : BufferPoolManager) :
  reachable zero_data s → inv s ∧ covered s.
Proof.
  induction 1 as [n d Hn|s s' _ [IHinv IHcov] Hstep].
  - split; [by apply inv_create|apply covered_create].
  - split; [by eapply step_inv|by eapply step_covered].
Qed.

(** No frame can be taken exactly when every frame is pinned. *)
Lemma no_frame_iff_all_pinned (s : BufferPoolManager) :
  inv s → covered s →
  (free_list_ s = [] ∧ ∀ f, ¬ Clock.in_replacer (replacer_ s) f) ↔ all_pinned s.
Proof.
  intros Hinv Hcov. split.
  - intros [Hfl Hnone] f Hf. destruct (Hcov f Hf) as [Hfree|[p Hp]].
    { rewrite Hfl in Hfree. by apply elem_of_nil in Hfree. }
    destruct (inv_lookup s p f Hinv Hp) as (pg & Hfr & _ & Hpin & Hcand & _).
    exists pg. split; [done|]. destruct (decide (pin_count_ pg = 0)) as [Hz|]; [|lia].
    apply Hcand in Hz. by destruct (Hnone f).
  - intros Hall. split.
    + destruct (free_list_ s) as [|t rest] eqn:Hfl; [done|].
      assert (Hfin : t ∈ free_list_ s) by (rewrite Hfl; apply list_elem_of_here).
      destruct (inv_free _ Hinv t Hfin) as ((pg & Hfr & Hpin) & _).
      destruct (inv_frame_range s t pg Hinv Hfr) as [Ht _].
      destruct (Hall t Ht) as (pg' & Hfr' & Hpos). simplify_eq. lia.
    + intros f Hin.
      pose proof (ClockProps.in_replacer_range _ f (inv_replacer _ Hinv) Hin) as Hf.
      rewrite (inv_capacity _ Hinv) in Hf.
      destruct (Hall f Hf) as (pg & Hfr & Hpos).
      destruct (inv_candidate _ Hinv f Hin) as [Hfree|[p Hp]].
      * destruct (inv_free _ Hinv f Hfree) as ((pg' & Hfr' & Hpin) & _). simplify_eq. lia.
      * destruct (inv_lookup s p f Hinv Hp) as (pg' & Hfr' & _ & _ & Hcand & _).
        simplify_eq. apply Hcand in Hin. lia.
Qed.

(** X21.  The invariant of the pool.  In every state that the constructor
    and the public calls can reach (with [FetchPage] called on allocated
    ids): each entry of the page table names a frame of the pool that
    carries that page id and a pin count of at least 0, and that is a
    candidate of the replacer exactly when its pin count is 0; no two pages
    share a frame; the frames on the free list are unpinned, distinct and
    not in the page table; every candidate of the replacer is a free or a
    resident frame; resident page ids were handed out by the disk manager;
    and every frame of the pool is either on the free list or holds a
    resident page. *)
Theorem pool_invariant (s : BufferPoolManager) :
  reachable zero_data s →
  inv s ∧ covered s ∧
  (∀ p q f, page_table_ s !! p = Some f → page_table_ s !! q = Some f → p = q) ∧
  (∀ f, 0 ≤ f < pool_size_ s →
        ¬ (f ∈ free_list_ s ∧ ∃ p, page_table_ s !! p = Some f)).
Proof.
  intros Hreach. destruct (reachable_inv_covered s Hreach) as [Hinv Hcov].
  split; [done|]. split; [done|]. split.
  - intros p q f. by apply inv_table_inj.
  - intros f _ [Hfree [p Hp]]. by destruct (inv_free _ Hinv f Hfree) as [_ Hnot]; destruct (Hnot p).
Qed.

(** X22.  Allocation fails exactly when every frame is pinned.  In every
    reachable state, [NewPage] returns no page if and only if each frame of
    the pool holds a page with a positive pin count, and so does
    [FetchPage] of a page that is not resident. *)
Theorem allocation_fails_iff_all_pinned (s : BufferPoolManager) :
  reachable zero_data s →
  ((∃ s', NewPageImpl zero_data s = Some (s', None)) ↔ all_pinned s) ∧
  (∀ p, page_table_ s !! p = None →
        (∃ s', FetchPageImpl p s = Some (s', None)) ↔ all_pinned s).
Proof.
  intros Hreach. destruct (reachable_inv_covered s Hreach) as [Hinv Hcov].
  pose proof (no_frame_iff_all_pinned s Hinv Hcov) as Hiff. split.
  - rewrite <- Hiff. pose proof (NewPageImpl_paths s Hinv) as H.
    destruct (free_list_ s) as [|t rest] eqn:Hfl.
    + destruct H as (r1 & v & HV & Hv). destruct v as [t|].
      * destruct Hv as (p0 & pg & Hres & Hid & Hpin & Ht & _ & _ & _ & Hnew).
        rewrite Hnew. split; [by intros [? ?]|]. intros [_ Hnone].
        destruct (Hnone t). by apply (res_candidate _ _ _ _ Hres).
      * destruct Hv as [Hnone Hnew]. rewrite Hnew. split; [done|]. intros _. by exists s.
    + destruct H as (pg & _ & _ & _ & Hnew). rewrite Hnew.
      split; [by intros [? ?]|by intros [? _]].
  - intros p Hpt. rewrite <- Hiff. pose proof (FetchPageImpl_miss s p Hinv Hpt) as H.
    destruct (free_list_ s) as [|t rest] eqn:Hfl.
    + destruct H as (r1 & v & HV & Hv). destruct v as [t|].
      * destruct Hv as (p0 & pg & Hres & Hid & Hpin & Ht & _ & _ & _ & Hfetch).
        rewrite Hfetch. split; [by intros [? ?]|]. intros [_ Hnone].
        destruct (Hnone t). by apply (res_candidate _ _ _ _ Hres).
      * destruct Hv as [Hnone Hfetch]. rewrite Hfetch. split; [done|]. intros _. by exists s.
    + destruct H as (pg & _ & _ & _ & Hfetch). rewrite Hfetch.
      split; [by intros [? ?]|by intros [? _]].
Qed.

(** *** The disk *)

(** A write-back, or no write at all, as seen from one page id. *)
Lemma write_back_or_same (s : BufferPoolManager) p0 t (pg : Page Data) q :
  page_table_ s !! p0 = Some t → vec_read (pages_ s) t = Some pg →
  (if is_dirty_ pg then <[p0 := data_ pg]> (stored (disk_manager_ s))
   else stored (disk_manager_ s)) !! q = stored (disk_manager_ s) !! q ∨
  ∃ f pg', page_table_ s !! q = Some f ∧ vec_read (pages_ s) f = Some pg' ∧
           is_dirty_ pg' = true ∧
           (if is_dirty_ pg then <[p0 := data_ pg]> (stored (disk_manager_ s))
            else stored (disk_manager_ s)) !! q = Some (data_ pg').
Proof.
  intros Hp0 Hfr. destruct (is_dirty_ pg) eqn:Hdirty; [|by left].
  destruct (decide (q = p0)) as [->|Hne].
  - right. exists t, pg. by rewrite lookup_insert_eq.
  - left. by apply lookup_insert_ne.
Qed.

(** X23.  The pool writes to disk only to write a page back.  Whatever call
    is made, the bytes stored on disk under a page id are either unchanged
    or are those of a frame in which that page was resident and dirty
    before the call; the ids handed out by the disk manager only grow, by at
    most one per call. *)
Theorem disk_writes_are_write_backs (s s' : BufferPoolManager) :
  inv s → step zero_data s s' →
  next_page_id_ (disk_manager_ s) ≤ next_page_id_ (disk_manager_ s')
    ≤ next_page_id_ (disk_manager_ s) + 1 ∧
  ∀ q, stored (disk_manager_ s') !! q = stored (disk_manager_ s) !! q ∨
       ∃ f pg, page_table_ s !! q = Some f ∧ vec_read (pages_ s) f = Some pg ∧
               is_dirty_ pg = true ∧ stored (disk_manager_ s') !! q = Some (data_ pg).
Proof.
  intros Hinv Hstep.
  assert (Hflushed : ∀ s1 : BufferPoolManager, flushed s s1 →
    next_page_id_ (disk_manager_ s) ≤ next_page_id_ (disk_manager_ s1)
      ≤ next_page_id_ (disk_manager_ s) + 1 ∧
    ∀ q, stored (disk_manager_ s1) !! q = stored (disk_manager_ s) !! q ∨
         ∃ f pg, page_table_ s !! q = Some f ∧ vec_read (pages_ s) f = Some pg ∧
                 is_dirty_ pg = true ∧ stored (disk_manager_ s1) !! q = Some (data_ pg)).
  { intros s1 (_ & _ & _ & _ & Hnext & Hfr & Hd & Ho). split; [lia|]. intros q.
    destruct (page_table_ s !! q) as [f|] eqn:Hq; [|left; by apply Ho].
    destruct (inv_lookup s q f Hinv Hq) as (pg & Hpg & _).
    destruct (Hfr f pg Hpg) as (pg' & Hpg' & _).
    rewrite (Hd q f pg pg' Hq Hpg Hpg').
    destruct (is_dirty_ pg) eqn:Hdirty; [|by left].
    destruct (is_dirty_ pg'); [by left|]. right. by exists f, pg. }
  destruct Hstep as [p s' r Hp H|p d s' r H|p s' r H|s' r H|p s' r H|s' H].
  - destruct (page_table_ s !! p) as [f|] eqn:Hpt.
    + destruct (inv_lookup s p f Hinv Hpt) as (pg & Hfr & _).
      rewrite (FetchPageImpl_hit s p f pg Hinv Hpt Hfr) in H. simplify_eq. simpl.
      split; [lia|]. by left.
    + pose proof (FetchPageImpl_miss s p Hinv Hpt) as Hm.
      destruct (free_list_ s) as [|t rest] eqn:Hfl.
      * destruct Hm as (r1 & v & HV & Hv). destruct v as [t|].
        -- destruct Hv as (p0 & pg & Hres & Hid & Hpin & Ht & Hwf1 & Hsz1 & Hin1 & Hfetch).
           pose proof Hres as [Hp0 Hfr _ _ _]. rewrite Hfetch in H. simplify_eq. simpl.
           split; [destruct (is_dirty_ pg); simpl; lia|]. intros q.
           destruct (write_back_or_same s (page_id_ pg) t pg q Hp0 Hfr) as [Hs|Hw].
           ++ left. rewrite <- Hs. by destruct (is_dirty_ pg).
           ++ right. destruct Hw as (f & pg' & ? & ? & ? & Hw). exists f, pg'.
              do 3 (split; [done|]). rewrite <- Hw. by destruct (is_dirty_ pg).
        -- destruct Hv as [_ Hfetch]. rewrite Hfetch in H. simplify_eq.
           split; [lia|]. by left.
      * destruct Hm as (pg & Hfr & Hpin & Ht & Hfetch). rewrite Hfetch in H. simplify_eq.
        simpl. split; [lia|]. by left.
  - pose proof (UnpinPageImpl_paths s p d Hinv) as Hu.
    destruct (page_table_ s !! p) as [f|] eqn:Hpt.
    2:{ rewrite Hu in H. simplify_eq. split; [lia|]. by left. }
    destruct Hu as (pg & Hfr & Hid & Hpin & Hf & Hzero & Hpos).
    destruct (decide (pin_count_ pg = 0)) as [Hz|Hnz].
    + rewrite (Hzero Hz) in H. simplify_eq. split; [lia|]. by left.
    + rewrite Hpos in H by lia. simplify_eq. simpl. split; [lia|]. by left.
  - apply Hflushed. by eapply FlushPageImpl_flushed.
  - pose proof (NewPageImpl_paths s Hinv) as Hn.
    destruct (free_list_ s) as [|t rest] eqn:Hfl.
    + destruct Hn as (r1 & v & HV & Hv). destruct v as [t|].
      * destruct Hv as (p0 & pg & Hres & Hid & Hpin & Ht & Hwf1 & Hsz1 & Hin1 & Hnew).
        pose proof Hres as [Hp0 Hfr _ _ _]. rewrite Hnew in H. simplify_eq. simpl.
        split; [lia|]. intros q. by apply (write_back_or_same s (page_id_ pg) t pg q).
      * destruct Hv as [_ Hnew]. rewrite Hnew in H. simplify_eq. split; [lia|]. by left.
    + destruct Hn as (pg & Hfr & Hpin & Ht & Hnew). rewrite Hnew in H. simplify_eq.
      simpl. split; [lia|]. by left.
  - pose proof (DeletePageImpl_paths s p Hinv) as Hd.
    case_bool_decide as Hinvalid.
    { rewrite Hd in H. simplify_eq. split; [lia|]. by left. }
    destruct (page_table_ s !! p) as [f|] eqn:Hpt.
    2:{ rewrite Hd in H. simplify_eq. split; [lia|]. by left. }
    destruct Hd as (pg & Hfr & Hid & Hpin & Hf & Hpos & Hzero).
    destruct (decide (pin_count_ pg = 0)) as [Hz|Hnz].
    + rewrite (Hzero Hz) in H. simplify_eq. simpl. split; [lia|]. by left.
    + rewrite Hpos in H by lia. simplify_eq. split; [lia|]. by left.
  - pose proof (Clock.wf_size _ (inv_replacer _ Hinv)) as Hsz.
    pose proof (inv_capacity _ Hinv) as Hcap.
    destruct (FlushAll_loop_flushed (Z.to_nat (pool_size_ s)) 0 s Hinv)
      as (s1 & Hrun & Hfl & _); [lia|lia|].
    unfold FlushAllPagesImpl in H. apply Hflushed. congruence.
Qed.

(** X24.  The bytes of a dirty page survive its eviction.  When [NewPage],
    or [FetchPage] of another page, takes the frame of a dirty page [p0],
    the page is no longer resident and its bytes are on disk; a [FetchPage]
    of [p0] that follows and succeeds returns a frame with these bytes. *)
Theorem dirty_page_survives_eviction (s s1 : BufferPoolManager) p0 t old :
  inv s → page_table_ s !! p0 = Some t → vec_read (pages_ s) t = Some old →
  is_dirty_ old = true →
  (∃ pid, NewPageImpl zero_data s = Some (s1, Some (pid, t))) ∨
  (∃ q, q < next_page_id_ (disk_manager_ s) ∧ page_table_ s !! q = None ∧
        FetchPageImpl q s = Some (s1, Some t)) →
  page_table_ s1 !! p0 = None ∧
  stored (disk_manager_ s1) !! p0 = Some (data_ old) ∧
  ∀ s2 t2, FetchPageImpl p0 s1 = Some (s2, Some t2) →
    ∃ pg, vec_read (pages_ s2) t2 = Some pg ∧ data_ pg = data_ old ∧ page_id_ pg = p0 ∧
          pin_count_ pg = 1 ∧ is_dirty_ pg = false.
Proof.
  intros Hinv Hp0 Hold Hdirty Hevict.
  assert (H1 : inv s1 ∧ page_table_ s1 !! p0 = None ∧
               stored (disk_manager_ s1) !! p0 = Some (data_ old)).
  { destruct Hevict as [(pid & Hnew)|(q & Hq & Hqt & Hfetch)].
    - split; [by eapply NewPageImpl_inv|].
      pose proof (NewPageImpl_paths s Hinv) as Hn.
      destruct (free_list_ s) as [|t0 rest] eqn:Hfl.
      + destruct Hn as (r1 & v & HV & Hv). destruct v as [t'|].
        * destruct Hv as (p0' & pg & Hres & Hid & Hpin & Ht & _ & _ & _ & Hnew').
          pose proof Hres as [Hp0' Hfr _ _ _]. rewrite Hnew' in Hnew. simplify_eq.
          assert (page_id_ old = p0) as Hido by by apply (inv_table_inj s _ _ t).
          simpl. rewrite Hido, Hdirty.
          pose proof (inv_allocated _ Hinv _ _ Hp0).
          rewrite lookup_insert_ne by lia. rewrite lookup_delete_eq, lookup_insert_eq. done.
        * destruct Hv as [_ Hnew']. rewrite Hnew' in Hnew. simplify_eq.
      + destruct Hn as (pg & Hfr & Hpin & Ht & Hnew'). rewrite Hnew' in Hnew. simplify_eq.
        assert (Hfin : t ∈ free_list_ s) by (rewrite Hfl; apply list_elem_of_here).
        by destruct (inv_free _ Hinv t Hfin) as [_ Hnot]; destruct (Hnot p0).
    - split; [by eapply FetchPageImpl_inv|].
      pose proof (FetchPageImpl_miss s q Hinv Hqt) as Hm.
      assert (Hne : p0 ≠ q) by (intros ->; congruence).
      destruct (free_list_ s) as [|t0 rest] eqn:Hfl.
      + destruct Hm as (r1 & v & HV & Hv). destruct v as [t'|].
        * destruct Hv as (p0' & pg & Hres & Hid & Hpin & Ht & _ & _ & _ & Hfetch').
          pose proof Hres as [Hp0' Hfr _ _ _]. rewrite Hfetch' in Hfetch. simplify_eq.
          assert (page_id_ old = p0) as Hido by by apply (inv_table_inj s _ _ t).
          simpl. rewrite Hido, Hdirty. simpl.
          rewrite lookup_insert_ne by done. rewrite lookup_delete_eq, lookup_insert_eq. done.
        * destruct Hv as [_ Hfetch']. rewrite Hfetch' in Hfetch. simplify_eq.
      + destruct Hm as (pg & Hfr & Hpin & Ht & Hfetch'). rewrite Hfetch' in Hfetch.
        simplify_eq.
        assert (Hfin : t ∈ free_list_ s) by (rewrite Hfl; apply list_elem_of_here).
        by destruct (inv_free _ Hinv t Hfin) as [_ Hnot]; destruct (Hnot p0). }
  destruct H1 as (Hinv1 & Hgone & Hdisk). split; [done|]. split; [done|].
  intros s2 t2 Hre. pose proof (inv_pages _ Hinv1) as Hlen.
  pose proof (FetchPageImpl_miss s1 p0 Hinv1 Hgone) as Hm.
  destruct (free_list_ s1) as [|t0 rest] eqn:Hfl.
  - destruct Hm as (r1 & v & HV & Hv). destruct v as [t'|].
    + destruct Hv as (p1 & pg & Hres & Hid & Hpin & Ht & _ & _ & _ & Hre').
      pose proof Hres as [Hp1 Hfr _ _ _]. rewrite Hre' in Hre. simplify_eq. simpl.
      eexists. split; [apply vec_read_insert_eq; lia|]. simpl. split; [|done].
      unfold ReadPage. assert (Hne : page_id_ pg ≠ p0) by (intros Heq; congruence).
      destruct (is_dirty_ pg); simpl.
      * rewrite lookup_insert_ne by done. by rewrite Hdisk.
      * by rewrite Hdisk.
    + destruct Hv as [_ Hre']. rewrite Hre' in Hre. simplify_eq.
  - destruct Hm as (pg & Hfr & Hpin & Ht & Hre'). rewrite Hre' in Hre. simplify_eq. simpl.
    eexists. split; [apply vec_read_insert_eq; lia|]. simpl. split; [|done].
    unfold ReadPage. by rewrite Hdisk.
Qed.

(** C8, amended.  When page [p] is resident (as every entry of the page
    table is, by [inv_resident_frame]), [FetchPage(p)] followed by
    [UnpinPage(p, false)] both succeed and restore the page table, the free
    list, the disk, every frame (page id, dirty flag, data and pin count)
    and the replacer's hand and candidate bits.  The one thing that may
    differ is the reference bit of [p]'s frame: if the pin count returns to
    0 the frame is handed back to the replacer with the bit set. *)
Theorem Fetch_then_Unpin_resident (s : BufferPoolManager) p f pg :
  Clock.wf (replacer_ s) → resident s p f pg →
  ∃ s1 s2,
    FetchPageImpl p s = Some (s1, Some f) ∧
    vec_read (pages_ s1) f =
      Some (BuildPage (data_ pg) (page_id_ pg) (pin_count_ pg + 1) (is_dirty_ pg)) ∧
    UnpinPageImpl p false s1 = Some (s2, true) ∧
    pool_size_ s2 = pool_size_ s ∧
    pages_ s2 = pages_ s ∧
    disk_manager_ s2 = disk_manager_ s ∧
    page_table_ s2 = page_table_ s ∧
    free_list_ s2 = free_list_ s ∧
    Clock.clock_hand (replacer_ s2) = Clock.clock_hand (replacer_ s) ∧
    Clock.buffer_size (replacer_ s2) = Clock.buffer_size (replacer_ s) ∧
    Clock.in_f (replacer_ s2) = Clock.in_f (replacer_ s) ∧
    Clock.ref_f (replacer_ s2) =
      (if pin_count_ pg =? 0
       then <[Z.to_nat f := true]> (Clock.ref_f (replacer_ s))
       else Clock.ref_f (replacer_ s)).
Proof.
  intros Hwf [Hpt Hpg Hcap Hpins Hcand].
  pose proof Hpg as Hpg'. apply vec_read_Some in Hpg' as [Hf Hl].
  pose proof (lookup_lt_Some _ _ _ Hl) as Hlen.
  pose proof (Clock.wf_in _ Hwf) as Hlin.
  assert (Hsame : <[Z.to_nat f := BuildPage (data_ pg) (page_id_ pg) (pin_count_ pg)
                                   (is_dirty_ pg)]> (pages_ s) = pages_ s).
  { apply list_insert_id. by destruct pg. }
  assert (Hfetch : FetchPageImpl p s =
    Some (set_pages (<[Z.to_nat f := BuildPage (data_ pg) (page_id_ pg)
                                       (pin_count_ pg + 1) (is_dirty_ pg)]> (pages_ s))
            (set_replacer
               (Clock.Build (Clock.clock_hand (replacer_ s))
                  (Clock.buffer_size (replacer_ s)) (Clock.ref_f (replacer_ s))
                  (<[Z.to_nat f := false]> (Clock.in_f (replacer_ s)))) s),
          Some f)).
  { unfold FetchPageImpl. rewrite Hpt.
    rewrite ClockProps.Pin_in_range by (done || lia). cbn [mbind option_bind].
    rewrite Hpg. cbn [mbind option_bind].
    by rewrite vec_write_in_range by lia. }
  rewrite Hfetch. eexists _. 
  assert (Hunpin : ∀ r1 r2,
    (if pin_count_ pg =? 0 then Clock.Unpin f r1 else Some r1) = Some r2 →
    UnpinPageImpl p false
      (set_pages (<[Z.to_nat f := BuildPage (data_ pg) (page_id_ pg)
                                     (pin_count_ pg + 1) (is_dirty_ pg)]> (pages_ s))
         (set_replacer r1 s)) = Some (set_replacer r2 s, true)).
  { intros r1 r2 Hr. unfold UnpinPageImpl. simpl. rewrite Hpt.
    unfold vec_read at 1. rewrite bool_decide_eq_true_2 by done.
    rewrite list_lookup_insert_eq by done. cbn [mbind option_bind].
    cbn [pin_count_ data_ page_id_ is_dirty_].
    destruct (Z.leb_spec (pin_count_ pg + 1) 0); [lia|].
    rewrite vec_write_in_range by (rewrite length_insert; lia).
    cbn [mbind option_bind].
    rewrite list_insert_insert_eq.
    replace (pin_count_ pg + 1 - 1) with (pin_count_ pg) by lia.
    rewrite orb_false_r, Hsame, Hr. cbn [mbind option_bind].
    by destruct s. }
  destruct (Z.eqb_spec (pin_count_ pg) 0) as [Hz|Hnz].
  - (* the last pin is released: the frame goes back to the replacer *)
    apply Hcand in Hz. apply vec_read_Some in Hz as [_ Hin].
    eexists. split; [done|]. split.
    { simpl. unfold vec_read. rewrite bool_decide_eq_true_2 by done.
      by apply list_lookup_insert_eq. }
    split.
    { apply Hunpin. rewrite ClockProps.Unpin_in_range; simpl; [done| |lia].
      destruct Hwf. split; simpl; rewrite ?length_insert; done. }
    simpl. rewrite list_insert_insert_eq, (list_insert_id _ _ _ Hin). done.
  - (* still pinned by someone else: the replacer never listed the frame *)
    assert (Hout : Clock.in_f (replacer_ s) !! Z.to_nat f = Some false).
    { destruct (lookup_lt_is_Some_2 (Clock.in_f (replacer_ s)) (Z.to_nat f)) as [b Hb];
        [lia|]. destruct b; [|done].
      exfalso. apply Hnz, Hcand. unfold Clock.in_replacer, vec_read.
      by rewrite bool_decide_eq_true_2. }
    eexists. split; [done|]. split.
    { simpl. unfold vec_read. rewrite bool_decide_eq_true_2 by done.
      by apply list_lookup_insert_eq. }
    split; [by apply Hunpin|].
    simpl. rewrite (list_insert_id _ _ _ Hout). done.
Qed.

End WithData.

Lemma Fetch_then_Unpin_resident_witness :
  Clock.wf (replacer_ swept_state) ∧
  resident swept_state 1 1 swept_frame ∧
  ∃ s1 s2,
    FetchPageImpl 1 swept_state = Some (s1, Some 1) ∧
    vec_read (pages_ s1) 1 =
      Some (BuildPage (data_ swept_frame) (page_id_ swept_frame)
                      (pin_count_ swept_frame + 1) (is_dirty_ swept_frame)) ∧
    UnpinPageImpl 1 false s1 = Some (s2, true) ∧
    pool_size_ s2 = pool_size_ swept_state ∧
    pages_ s2 = pages_ swept_state ∧
    disk_manager_ s2 = disk_manager_ swept_state ∧
    page_table_ s2 = page_table_ swept_state ∧
    free_list_ s2 = free_list_ swept_state ∧
    Clock.clock_hand (replacer_ s2) = Clock.clock_hand (replacer_ swept_state) ∧
    Clock.buffer_size (replacer_ s2) = Clock.buffer_size (replacer_ swept_state) ∧
    Clock.in_f (replacer_ s2) = Clock.in_f (replacer_ swept_state) ∧
    Clock.ref_f (replacer_ s2) =
      (if pin_count_ swept_frame =? 0
       then <[Z.to_nat 1 := true]> (Clock.ref_f (replacer_ swept_state))
       else Clock.ref_f (replacer_ swept_state)).
Proof.
  assert (Hwf : Clock.wf (replacer_ swept_state)).
  { split; [vm_compute; split; [discriminate|reflexivity]|reflexivity|reflexivity|].
    vm_compute. split; [discriminate|]. right. reflexivity. }
  assert (Hres : resident swept_state 1 1 swept_frame).
  { split; [vm_compute; reflexivity|vm_compute; reflexivity|vm_compute; reflexivity
            |vm_compute; discriminate|].
    split; intros _; vm_compute; reflexivity. }
  split; [exact Hwf|]. split; [exact Hres|].
  exact (Fetch_then_Unpin_resident swept_state 1 1 swept_frame Hwf Hres).
Defined.

(** *** The run [pool0] ... [pool5] *)

Lemma reachable_pool2 : reachable zero_page pool2.
Proof.
  apply (reach_call zero_page pool1 pool2);
    [|apply (step_New zero_page pool1 pool2 (Some (1, 1))); vm_compute; reflexivity].
  apply (reach_call zero_page pool0 pool1);
    [|apply (step_New zero_page pool0 pool1 (Some (0, 0))); vm_compute; reflexivity].
  apply reach_new_pool. lia.
Defined.

Lemma reachable_pool3 : reachable zero_page pool3.
Proof.
  apply (reach_call zero_page pool2 pool3);
    [exact reachable_pool2
    |apply (step_Unpin zero_page pool2 0 true pool3 true); vm_compute; reflexivity].
Defined.

Lemma reachable_pool5 : reachable zero_page pool5.
Proof.
  apply (reach_call zero_page pool4 pool5);
    [|apply (step_Unpin zero_page pool4 1 false pool5 true); vm_compute; reflexivity].
  apply (reach_call zero_page pool3 pool4);
    [exact reachable_pool3
    |apply (step_New zero_page pool3 pool4 (Some (2, 0))); vm_compute; reflexivity].
Defined.

Lemma inv_pool2 : inv pool2.
Proof. exact (proj1 (reachable_inv_covered zero_page pool2 reachable_pool2)). Defined.

Lemma inv_pool3 : inv pool3.
Proof. exact (proj1 (reachable_inv_covered zero_page pool3 reachable_pool3)). Defined.



(** [NewPage] in [pool3] evicts the dirty page 0. *)
Lemma NewPage_installs_fresh_page_witness :
  inv pool3 ∧
  ∃ s' r, NewPageImpl zero_page pool3 = Some (s', r) ∧
    (r = None ↔ free_list_ pool3 = [] ∧ ∀ f, ¬ Clock.in_replacer (replacer_ pool3) f) ∧
    (r = None → s' = pool3) ∧
    ∀ pid t, r = Some (pid, t) →
      pid = next_page_id_ (disk_manager_ pool3) ∧
      next_page_id_ (disk_manager_ s') = pid + 1 ∧
      page_table_ pool3 !! pid = None ∧
      (free_list_ pool3 = t :: free_list_ s' ∨
       free_list_ pool3 = [] ∧ free_list_ s' = [] ∧ Clock.in_replacer (replacer_ pool3) t) ∧
      ∃ old, vec_read (pages_ pool3) t = Some old ∧ pin_count_ old = 0 ∧
        vec_read (pages_ s') t = Some (BuildPage zero_page pid 1 false) ∧
        (∀ g, g ≠ t → vec_read (pages_ s') g = vec_read (pages_ pool3) g) ∧
        page_table_ s' !! pid = Some t ∧
        (∀ q g, q ≠ pid →
                page_table_ s' !! q = Some g ↔ page_table_ pool3 !! q = Some g ∧ g ≠ t) ∧
        ¬ Clock.in_replacer (replacer_ s') t ∧
        (∀ g, g ≠ t →
              Clock.in_replacer (replacer_ s') g ↔ Clock.in_replacer (replacer_ pool3) g) ∧
        ∀ q, stored (disk_manager_ s') !! q =
             if bool_decide (page_table_ pool3 !! q = Some t) && is_dirty_ old
             then Some (data_ old) else stored (disk_manager_ pool3) !! q.
Proof.
  assert (H0 : inv pool3)
    by (exact inv_pool3).
  split; [exact H0|].
  exact (NewPage_installs_fresh_page zero_page pool3 H0).
Defined.

(** The one pin of page 0 is released in [pool2]. *)
Lemma UnpinPage_releases_one_pin_witness :
  inv pool2 ∧
  ∃ s' r, UnpinPageImpl 0 true pool2 = Some (s', r) ∧
    match page_table_ pool2 !! 0 with
    | None => r = true ∧ s' = pool2
    | Some f =>
      ∃ pg, vec_read (pages_ pool2) f = Some pg ∧
        (pin_count_ pg = 0 → r = false ∧ s' = pool2) ∧
        (pin_count_ pg ≠ 0 →
         r = true ∧
         vec_read (pages_ s') f =
           Some (BuildPage (data_ pg) 0 (pin_count_ pg - 1) (is_dirty_ pg || true)) ∧
         (∀ g, g ≠ f → vec_read (pages_ s') g = vec_read (pages_ pool2) g) ∧
         page_table_ s' = page_table_ pool2 ∧ free_list_ s' = free_list_ pool2 ∧
         disk_manager_ s' = disk_manager_ pool2 ∧
         (Clock.in_replacer (replacer_ s') f ↔ pin_count_ pg = 1) ∧
         (pin_count_ pg = 1 → vec_read (Clock.ref_f (replacer_ s')) f = Some true) ∧
         (∀ g, g ≠ f →
               Clock.in_replacer (replacer_ s') g ↔ Clock.in_replacer (replacer_ pool2) g))
    end.
Proof.
  assert (H0 : inv pool2)
    by (exact inv_pool2).
  split; [exact H0|].
  exact (UnpinPage_releases_one_pin pool2 0 true H0).
Defined.

(** Page 0 is dirty in [pool3]. *)
Lemma FlushPage_writes_dirty_page_witness :
  inv pool3 ∧
  ∃ s' r, FlushPageImpl 0 pool3 = Some (s', r) ∧
    (r = true ↔ is_Some (page_table_ pool3 !! 0)) ∧
    page_table_ s' = page_table_ pool3 ∧ free_list_ s' = free_list_ pool3 ∧
    replacer_ s' = replacer_ pool3 ∧ pool_size_ s' = pool_size_ pool3 ∧
    next_page_id_ (disk_manager_ s') = next_page_id_ (disk_manager_ pool3) ∧
    match page_table_ pool3 !! 0 with
    | None => s' = pool3
    | Some f =>
      ∃ pg, vec_read (pages_ pool3) f = Some pg ∧
        vec_read (pages_ s') f = Some (BuildPage (data_ pg) 0 (pin_count_ pg) false) ∧
        (∀ g, g ≠ f → vec_read (pages_ s') g = vec_read (pages_ pool3) g) ∧
        ∀ q, stored (disk_manager_ s') !! q =
             if bool_decide (q = 0) && is_dirty_ pg
             then Some (data_ pg) else stored (disk_manager_ pool3) !! q
    end.
Proof.
  assert (H0 : inv pool3)
    by (exact inv_pool3).
  split; [exact H0|].
  exact (FlushPage_writes_dirty_page pool3 0 H0).
Defined.

(** Page 0 is resident and unpinned in [pool3]. *)
Lemma DeletePage_frees_unpinned_page_witness :
  inv pool3 ∧
  ∃ s' r, DeletePageImpl 0 pool3 = Some (s', r) ∧
    (r = false ↔
     0 ≠ INVALID_PAGE_ID ∧
     ∃ f pg, page_table_ pool3 !! 0 = Some f ∧ vec_read (pages_ pool3) f = Some pg ∧
             pin_count_ pg ≠ 0) ∧
    (r = false ∨ 0 = INVALID_PAGE_ID ∨ page_table_ pool3 !! 0 = None → s' = pool3) ∧
    ∀ f, r = true → 0 ≠ INVALID_PAGE_ID → page_table_ pool3 !! 0 = Some f →
      page_table_ s' = delete 0 (page_table_ pool3) ∧
      free_list_ s' = free_list_ pool3 ++ [f] ∧
      (∃ pg, vec_read (pages_ pool3) f = Some pg ∧ pin_count_ pg = 0 ∧
             vec_read (pages_ s') f = Some (BuildPage (data_ pg) INVALID_PAGE_ID 0 false)) ∧
      (∀ g, g ≠ f → vec_read (pages_ s') g = vec_read (pages_ pool3) g) ∧
      disk_manager_ s' = disk_manager_ pool3 ∧ replacer_ s' = replacer_ pool3.
Proof.
  assert (H0 : inv pool3)
    by (exact inv_pool3).
  split; [exact H0|].
  exact (DeletePage_frees_unpinned_page pool3 0 H0).
Defined.

Lemma FlushAllPages_cleans_resident_pages_witness :
  inv pool3 ∧
  ∃ s', FlushAllPagesImpl pool3 = Some s' ∧
    page_table_ s' = page_table_ pool3 ∧ free_list_ s' = free_list_ pool3 ∧
    replacer_ s' = replacer_ pool3 ∧ pool_size_ s' = pool_size_ pool3 ∧
    next_page_id_ (disk_manager_ s') = next_page_id_ (disk_manager_ pool3) ∧
    (∀ f pg, vec_read (pages_ pool3) f = Some pg →
       ∃ pg', vec_read (pages_ s') f = Some pg' ∧ data_ pg' = data_ pg ∧
              page_id_ pg' = page_id_ pg ∧ pin_count_ pg' = pin_count_ pg ∧
              (is_dirty_ pg' = true → is_dirty_ pg = true)) ∧
    (∀ p f pg, page_table_ pool3 !! p = Some f → vec_read (pages_ pool3) f = Some pg →
       vec_read (pages_ s') f =
         Some (BuildPage (data_ pg) p (pin_count_ pg) false) ∧
       stored (disk_manager_ s') !! p =
         if is_dirty_ pg then Some (data_ pg) else stored (disk_manager_ pool3) !! p) ∧
    (∀ q, page_table_ pool3 !! q = None →
          stored (disk_manager_ s') !! q = stored (disk_manager_ pool3) !! q).
Proof.
  assert (H0 : inv pool3)
    by (exact inv_pool3).
  split; [exact H0|].
  exact (FlushAllPages_cleans_resident_pages pool3 H0).
Defined.

(** Page 1 is pinned in [pool3] while [NewPage] looks for a frame. *)
Lemma pinned_page_is_never_evicted_witness :
  inv pool3 ∧
  step zero_page pool3 pool4 ∧
  page_table_ pool3 !! 1 = Some 1 ∧
  vec_read (pages_ pool3) 1 = Some pinned_frame ∧
  0 < pin_count_ pinned_frame ∧
  ∃ pg', page_table_ pool4 !! 1 = Some 1 ∧ vec_read (pages_ pool4) 1 = Some pg' ∧
         data_ pg' = data_ pinned_frame ∧ page_id_ pg' = 1 ∧
         pin_count_ pinned_frame - 1 ≤ pin_count_ pg' ≤ pin_count_ pinned_frame + 1.
Proof.
  assert (H0 : inv pool3)
    by (exact inv_pool3).
  assert (H1 : step zero_page pool3 pool4)
    by (apply (step_New zero_page pool3 pool4 (Some (2, 0))); vm_compute; reflexivity).
  assert (H2 : page_table_ pool3 !! 1 = Some 1)
    by (vm_compute; reflexivity).
  assert (H3 : vec_read (pages_ pool3) 1 = Some pinned_frame)
    by (vm_compute; reflexivity).
  assert (H4 : 0 < pin_count_ pinned_frame)
    by (vm_compute; reflexivity).
  split; [exact H0|].
  split; [exact H1|].
  split; [exact H2|].
  split; [exact H3|].
  split; [exact H4|].
  exact (pinned_page_is_never_evicted zero_page pool3 pool4 1 1 pinned_frame
           H0 H1 H2 H3 H4).
Defined.

(** [NewPage] in [pool3] writes page 0 back. *)
Lemma disk_writes_are_write_backs_witness :
  inv pool3 ∧
  step zero_page pool3 pool4 ∧
  next_page_id_ (disk_manager_ pool3) ≤ next_page_id_ (disk_manager_ pool4)
    ≤ next_page_id_ (disk_manager_ pool3) + 1 ∧
  ∀ q, stored (disk_manager_ pool4) !! q = stored (disk_manager_ pool3) !! q ∨
       ∃ f pg, page_table_ pool3 !! q = Some f ∧ vec_read (pages_ pool3) f = Some pg ∧
               is_dirty_ pg = true ∧ stored (disk_manager_ pool4) !! q = Some (data_ pg).
Proof.
  assert (H0 : inv pool3)
    by (exact inv_pool3).
  assert (H1 : step zero_page pool3 pool4)
    by (apply (step_New zero_page pool3 pool4 (Some (2, 0))); vm_compute; reflexivity).
  split; [exact H0|].
  split; [exact H1|].
  exact (disk_writes_are_write_backs zero_page pool3 pool4
           H0 H1).
Defined.

(** Page 0, dirty in [pool3], is evicted by the [NewPage] that leads to
    [pool4]. *)
Lemma dirty_page_survives_eviction_witness :
  inv pool3 ∧
  page_table_ pool3 !! 0 = Some 0 ∧
  vec_read (pages_ pool3) 0 = Some dirty_frame ∧
  is_dirty_ dirty_frame = true ∧
  ((∃ pid, NewPageImpl zero_page pool3 = Some (pool4, Some (pid, 0))) ∨
   (∃ q, q < next_page_id_ (disk_manager_ pool3) ∧ page_table_ pool3 !! q = None ∧
         FetchPageImpl q pool3 = Some (pool4, Some 0))) ∧
  page_table_ pool4 !! 0 = None ∧
  stored (disk_manager_ pool4) !! 0 = Some (data_ dirty_frame) ∧
  ∀ s2 t2, FetchPageImpl 0 pool4 = Some (s2, Some t2) →
    ∃ pg, vec_read (pages_ s2) t2 = Some pg ∧ data_ pg = data_ dirty_frame ∧
          page_id_ pg = 0 ∧ pin_count_ pg = 1 ∧ is_dirty_ pg = false.
Proof.
  assert (H0 : inv pool3)
    by (exact inv_pool3).
  assert (H1 : page_table_ pool3 !! 0 = Some 0)
    by (vm_compute; reflexivity).
  assert (H2 : vec_read (pages_ pool3) 0 = Some dirty_frame)
    by (vm_compute; reflexivity).
  assert (H3 : is_dirty_ dirty_frame = true)
    by (reflexivity).
  assert (H4 : (∃ pid, NewPageImpl zero_page pool3 = Some (pool4, Some (pid, 0))) ∨
               (∃ q, q < next_page_id_ (disk_manager_ pool3) ∧
                     page_table_ pool3 !! q = None ∧
                     FetchPageImpl q pool3 = Some (pool4, Some 0)))
    by (left; exists 2; vm_compute; reflexivity).
  split; [exact H0|].
  split; [exact H1|].
  split; [exact H2|].
  split; [exact H3|].
  split; [exact H4|].
  exact (dirty_page_survives_eviction zero_page pool3 pool4 0 0 dirty_frame
           H0 H1 H2 H3 H4).
Defined.

Lemma pool_invariant_witness :
  reachable zero_page pool5 ∧
  inv pool5 ∧ covered pool5 ∧
  (∀ p q f, page_table_ pool5 !! p = Some f → page_table_ pool5 !! q = Some f → p = q) ∧
  (∀ f, 0 ≤ f < pool_size_ pool5 →
        ¬ (f ∈ free_list_ pool5 ∧ ∃ p, page_table_ pool5 !! p = Some f)).
Proof.
  assert (H0 : reachable zero_page pool5)
    by (exact reachable_pool5).
  split; [exact H0|].
  exact (pool_invariant zero_page pool5 H0).
Defined.

(** In [pool2] both frames are pinned. *)
Lemma allocation_fails_iff_all_pinned_witness :
  reachable zero_page pool2 ∧
  ((∃ s', NewPageImpl zero_page pool2 = Some (s', None)) ↔ all_pinned pool2) ∧
  (∀ p, page_table_ pool2 !! p = None →
        (∃ s', FetchPageImpl p pool2 = Some (s', None)) ↔ all_pinned pool2).
Proof.
  assert (H0 : reachable zero_page pool2)
    by (exact reachable_pool2).
  split; [exact H0|].
  exact (allocation_fails_iff_all_pinned zero_page pool2 H0).
Defined.

(** C1 at a failing input.  In a pool of one frame, page 0 is created and
    unpinned: it is resident in frame 0 with pin count 0.  [DeletePage(0)]
    succeeds and moves frame 0 to the free list, but the frame is still
    registered in the replacer, which reports one candidate. *)
Theorem DeletePage_leaves_frame_in_replacer :
  ∃ s pg s',
    unpinned_page = Some s ∧
    page_table_ s !! 0 = Some 0 ∧
    vec_read (pages_ s) 0 = Some pg ∧ pin_count_ pg = 0 ∧
    DeletePageImpl 0 s = Some (s', true) ∧
    free_list_ s' = [0] ∧
    page_table_ s' !! 0 = None ∧
    Clock.in_replacer (replacer_ s') 0 ∧
    Clock.Size (replacer_ s') = Some 1.
Proof.
  eexists _, _, _. split; [vm_compute; reflexivity|].
  split; [vm_compute; reflexivity|].
  split; [vm_compute; reflexivity|].
  split; [reflexivity|].
  split; [vm_compute; reflexivity|].
  split; [reflexivity|].
  split; [vm_compute; reflexivity|].
  split; vm_compute; reflexivity.
Qed.

(** C8, as stated, fails: in the run [swept_page], page 1 is resident and
    unpinned with its reference bit cleared; [FetchPage(1)] followed by
    [UnpinPage(1, false)] succeeds and leaves the replacer in a different
    state. *)
Lemma Fetch_then_Unpin_changes_replacer :
  ∃ s s1 s2,
    swept_page = Some s ∧
    FetchPageImpl 1 s = Some (s1, Some 1) ∧
    UnpinPageImpl 1 false s1 = Some (s2, true) ∧
    replacer_ s2 ≠ replacer_ s.
Proof.
  eexists _, _, _. split; [vm_compute; reflexivity|].
  split; [vm_compute; reflexivity|].
  split; [vm_compute; reflexivity|].
  vm_compute. discriminate.
Qed.

End BPMProps.

(** ** Block pages *)

Module BlockProps.
Import Block.

(** *** Bits of a bitmap char *)

Lemma mask_testbit bit n :
  (0 ≤ n)%Z → Z.testbit (mask bit) n = (Z.of_nat bit =? n)%Z.
Proof.
  intros Hn. unfold mask. rewrite Z.shiftl_1_l.
  apply Z.pow2_bits_eqb. lia.
Qed.

Lemma land_mask c bit :
  Z.land c (mask bit) = if Z.testbit c (Z.of_nat bit) then mask bit else 0%Z.
Proof.
  apply Z.bits_inj'. intros n Hn.
  rewrite Z.land_spec, mask_testbit by done.
  destruct (Z.eqb_spec (Z.of_nat bit) n) as [<-|Hne].
  - destruct (Z.testbit c (Z.of_nat bit)).
    + rewrite mask_testbit by done. by rewrite Z.eqb_refl.
    + by rewrite Z.bits_0.
  - rewrite andb_false_r. destruct (Z.testbit c (Z.of_nat bit)).
    + rewrite mask_testbit by done. symmetry. by apply Z.eqb_neq.
    + by rewrite Z.bits_0.
Qed.

(** [c & (1 << bit)], read as a [bool], is bit [bit] of [c]. *)
Lemma land_mask_bool c bit :
  negb (Z.land c (mask bit) =? 0)%Z = Z.testbit c (Z.of_nat bit).
Proof.
  rewrite land_mask. destruct (Z.testbit c (Z.of_nat bit)); [|done].
  unfold mask. rewrite Z.shiftl_1_l.
  pose proof (Z.pow_pos_nonneg 2 (Z.of_nat bit)).
  destruct (Z.eqb_spec (2 ^ Z.of_nat bit) 0); [lia|done].
Qed.

Lemma to_char_testbit z bit :
  bit < 8 → Z.testbit (to_char z) (Z.of_nat bit) = Z.testbit z (Z.of_nat bit).
Proof.
  intros Hb. unfold to_char. change 256%Z with (2 ^ 8)%Z.
  apply Z.mod_pow2_bits_low. lia.
Qed.

Lemma testbit_or_mask c bit bit' :
  bit' < 8 →
  Z.testbit (to_char (Z.lor c (mask bit))) (Z.of_nat bit') =
  Z.testbit c (Z.of_nat bit') || bool_decide (bit' = bit).
Proof.
  intros Hb. rewrite to_char_testbit, Z.lor_spec, mask_testbit by (done || lia).
  f_equal. destruct (Z.eqb_spec (Z.of_nat bit) (Z.of_nat bit')); case_bool_decide; (done || lia).
Qed.

Lemma testbit_and_not_mask c bit bit' :
  bit' < 8 →
  Z.testbit (to_char (Z.land c (Z.lnot (mask bit)))) (Z.of_nat bit') =
  Z.testbit c (Z.of_nat bit') && negb (bool_decide (bit' = bit)).
Proof.
  intros Hb.
  rewrite to_char_testbit, Z.land_spec, Z.lnot_spec, mask_testbit by (done || lia).
  f_equal. destruct (Z.eqb_spec (Z.of_nat bit) (Z.of_nat bit')); case_bool_decide; (done || lia).
Qed.

(** A slot index is determined by its char and its bit. *)
Lemma slot_eq_iff i j : j = i ↔ j / 8 = i / 8 ∧ j mod 8 = i mod 8.
Proof.
  split; [by intros ->|]. intros [Hd Hm].
  rewrite (Nat.div_mod_eq j 8), (Nat.div_mod_eq i 8). lia.
Qed.

Section WithTypes.
Context {K V : Type} (BLOCK_ARRAY_SIZE : nat).
Local Abbreviation BlockPage := (Block.BlockPage K V).
Local Abbreviation bitmap_size := (Block.bitmap_size BLOCK_ARRAY_SIZE).
Local Abbreviation test_bit := (Block.test_bit BLOCK_ARRAY_SIZE).
Local Abbreviation IsOccupied := (Block.IsOccupied (K:=K) (V:=V) BLOCK_ARRAY_SIZE).
Local Abbreviation IsReadable := (Block.IsReadable (K:=K) (V:=V) BLOCK_ARRAY_SIZE).
Local Abbreviation wf := (Block.wf (K:=K) (V:=V) BLOCK_ARRAY_SIZE).

Lemma slot_char_in_bitmap i : i < BLOCK_ARRAY_SIZE → i / 8 < bitmap_size.
Proof.
  intros Hi. unfold Block.bitmap_size.
  assert (i / 8 ≤ (BLOCK_ARRAY_SIZE - 1) / 8); [|lia].
  apply Nat.Div0.div_le_mono. lia.
Qed.

(** Setting the bit of slot [i] changes the answer for slot [i] only. *)
Lemma test_bit_set bm bm' i :
  length bm = bitmap_size →
  set_bit bm (i / 8) (i mod 8) = Some bm' →
  length bm' = length bm ∧
  ∀ j, test_bit bm' j = bool_decide (j = i) || test_bit bm j.
Proof.
  intros Hlen Hset. unfold set_bit in Hset.
  destruct (bm !! (i / 8)) as [c|] eqn:Hc; [|done]. cbn [mbind option_bind] in Hset.
  unfold arr_write in Hset. case_bool_decide as Hidx; [|done]. simplify_eq.
  split; [apply length_insert|]. intros j. unfold Block.test_bit.
  case_bool_decide as Hj.
  - rewrite orb_false_r. symmetry. apply bool_decide_eq_false.
    intros ->. lia.
  - destruct (decide (j / 8 = i / 8)) as [Heq|Hne].
    + rewrite Heq, list_lookup_insert_eq, Hc by done. cbn [default from_option id].
      rewrite !land_mask_bool.
      rewrite testbit_or_mask by (apply Nat.mod_upper_bound; lia).
      rewrite orb_comm. f_equal. apply bool_decide_ext.
      rewrite (slot_eq_iff i j). tauto.
    + rewrite list_lookup_insert_ne by done.
      rewrite bool_decide_eq_false_2; [done|]. by intros ->.
Qed.

(** Clearing the bit of slot [i] changes the answer for slot [i] only. *)
Lemma test_bit_clear bm i :
  length bm = bitmap_size → i / 8 < bitmap_size →
  ∀ j, test_bit (<[i / 8 := to_char (Z.land (default 0%Z (bm !! (i / 8)))
                                       (Z.lnot (mask (i mod 8))))]> bm) j
       = negb (bool_decide (j = i)) && test_bit bm j.
Proof.
  intros Hlen Hidx j. unfold Block.test_bit.
  case_bool_decide as Hj; [by rewrite andb_false_r|].
  destruct (decide (j / 8 = i / 8)) as [Heq|Hne].
  - rewrite Heq, list_lookup_insert_eq by lia. cbn [default from_option id].
    rewrite !land_mask_bool.
    rewrite testbit_and_not_mask by (apply Nat.mod_upper_bound; lia).
    rewrite andb_comm. f_equal. f_equal. apply bool_decide_ext.
    rewrite (slot_eq_iff i j). tauto.
  - rewrite list_lookup_insert_ne by done.
    rewrite bool_decide_eq_false_2; [done|]. by intros ->.
Qed.

Lemma test_bit_zero n j : test_bit (replicate n 0%Z) j = false.
Proof.
  unfold Block.test_bit. case_bool_decide; [done|].
  destruct (replicate n 0%Z !! (j / 8)) as [c|] eqn:Hc; [|done].
  apply lookup_replicate in Hc as [-> _]. done.
Qed.

(** *** The block operations *)

Lemma wf_empty zero_entry : wf (Block.empty BLOCK_ARRAY_SIZE zero_entry).
Proof. split; simpl; by rewrite length_replicate. Qed.

Lemma Insert_occupied (b : BlockPage) i k v :
  IsOccupied b i = true → Insert BLOCK_ARRAY_SIZE b i k v = Some (b, false).
Proof. intros Ho. unfold Insert. by rewrite Ho. Qed.

(** [Insert] on a free slot of the array: it succeeds, marks the slot
    occupied and readable, and stores the pair. *)
Lemma Insert_free (b : BlockPage) i k v :
  wf b → i < BLOCK_ARRAY_SIZE → IsOccupied b i = false →
  ∃ b', Insert BLOCK_ARRAY_SIZE b i k v = Some (b', true) ∧ wf b' ∧
    (∀ j, IsOccupied b' j = bool_decide (j = i) || IsOccupied b j) ∧
    (∀ j, IsReadable b' j = bool_decide (j = i) || IsReadable b j) ∧
    array_ b' = <[i := (k, v)]> (array_ b).
Proof.
  intros [Hocc Hrd Harr] Hi Hfree. unfold Insert. rewrite Hfree.
  pose proof (slot_char_in_bitmap i Hi) as Hidx.
  destruct (set_bit (occupied_ b) (i / 8) (i mod 8)) as [occ|] eqn:Hso.
  2:{ unfold set_bit in Hso.
      destruct (lookup_lt_is_Some_2 (occupied_ b) (i / 8)) as [c Hc]; [lia|].
      rewrite Hc in Hso. cbn [mbind option_bind] in Hso. unfold arr_write in Hso.
      rewrite bool_decide_eq_true_2 in Hso by lia. done. }
  destruct (set_bit (readable_ b) (i / 8) (i mod 8)) as [rd|] eqn:Hsr.
  2:{ unfold set_bit in Hsr.
      destruct (lookup_lt_is_Some_2 (readable_ b) (i / 8)) as [c Hc]; [lia|].
      rewrite Hc in Hsr. cbn [mbind option_bind] in Hsr. unfold arr_write in Hsr.
      rewrite bool_decide_eq_true_2 in Hsr by lia. done. }
  cbn [mbind option_bind]. unfold arr_write.
  rewrite bool_decide_eq_true_2 by lia. cbn [mbind option_bind].
  apply test_bit_set in Hso as [Hlo Hto]; [|done].
  apply test_bit_set in Hsr as [Hlr Htr]; [|done].
  eexists. split; [done|]. split.
  { split; simpl; rewrite ?length_insert; congruence. }
  done.
Qed.

(** [Insert] outside the slot array, on a slot whose bit is not set, is
    undefined. *)
Lemma Insert_out_of_bounds (b : BlockPage) i k v :
  wf b → BLOCK_ARRAY_SIZE ≤ i → IsOccupied b i = false →
  Insert BLOCK_ARRAY_SIZE b i k v = None.
Proof.
  intros [Hocc Hrd Harr] Hi Hfree. unfold Insert. rewrite Hfree.
  destruct (set_bit (occupied_ b) _ _); [|done].
  destruct (set_bit (readable_ b) _ _); [|done].
  cbn [mbind option_bind]. unfold arr_write.
  rewrite bool_decide_eq_false_2 by lia. done.
Qed.

(** [Remove] clears the readable bit of the slot and nothing else. *)
Lemma Remove_effect (b : BlockPage) i :
  wf b →
  wf (Remove BLOCK_ARRAY_SIZE b i) ∧
  occupied_ (Remove BLOCK_ARRAY_SIZE b i) = occupied_ b ∧
  array_ (Remove BLOCK_ARRAY_SIZE b i) = array_ b ∧
  ∀ j, IsReadable (Remove BLOCK_ARRAY_SIZE b i) j
       = negb (bool_decide (j = i)) && IsReadable b j.
Proof.
  intros [Hocc Hrd Harr]. unfold Remove. case_bool_decide as Hidx.
  - split; [done|]. split; [done|]. split; [done|]. intros j.
    destruct (decide (j = i)) as [->|Hne].
    + rewrite bool_decide_eq_true_2 by done. simpl.
      unfold Block.IsReadable, Block.test_bit. by rewrite bool_decide_eq_true_2.
    + by rewrite bool_decide_eq_false_2.
  - split; [split; simpl; rewrite ?length_insert; done|].
    split; [done|]. split; [done|]. intros j.
    unfold Block.IsReadable. simpl. apply test_bit_clear; [done|lia].
Qed.

(** *** The invariant [readable ⇒ occupied] *)

Lemma readable_occupied_empty zero_entry :
  readable_occupied BLOCK_ARRAY_SIZE (Block.empty (K:=K) (V:=V) BLOCK_ARRAY_SIZE zero_entry).
Proof.
  intros i _. unfold Block.IsReadable. simpl. by rewrite test_bit_zero.
Qed.

(** One operation: it keeps the block well-formed, keeps the invariant and
    clears no occupied bit. *)
Lemma apply_preserves (b b' : BlockPage) o :
  wf b → readable_occupied BLOCK_ARRAY_SIZE b → apply BLOCK_ARRAY_SIZE b o = Some b' →
  wf b' ∧ readable_occupied BLOCK_ARRAY_SIZE b' ∧
  ∀ i, IsOccupied b i = true → IsOccupied b' i = true.
Proof.
  intros Hwf Hinv Happ. destruct o as [i k v|i]; simpl in Happ.
  - destruct (IsOccupied b i) eqn:Hocc.
    + rewrite Insert_occupied in Happ by done. by simplify_eq/=.
    + destruct (decide (i < BLOCK_ARRAY_SIZE)) as [Hi|Hi].
      * destruct (Insert_free b i k v Hwf Hi Hocc) as (b1 & Hins & Hwf1 & Ho & Hr & _).
        rewrite Hins in Happ. simplify_eq/=. split; [done|]. split.
        -- intros j Hj. rewrite Hr, Ho. intros [Hji|Hrd]%orb_true_iff.
           ++ by rewrite Hji.
           ++ rewrite (Hinv j Hj Hrd). apply orb_true_r.
        -- intros j Hj. rewrite Ho, Hj. apply orb_true_r.
      * rewrite Insert_out_of_bounds in Happ by (done || lia). done.
  - simplify_eq. destruct (Remove_effect b i Hwf) as (Hwf1 & Ho & _ & Hr).
    split; [done|]. split.
    + intros j Hj. rewrite Hr. intros [_ Hrd]%andb_true_iff.
      unfold Block.IsOccupied. rewrite Ho. by apply Hinv.
    + intros j. unfold Block.IsOccupied. by rewrite Ho.
Qed.

(** An operation on a slot of the array is defined. *)
Lemma apply_defined (b : BlockPage) o :
  wf b → op_index o < BLOCK_ARRAY_SIZE → is_Some (apply BLOCK_ARRAY_SIZE b o).
Proof.
  intros Hwf Hi. destruct o as [i k v|i]; simpl in *; [|done].
  destruct (IsOccupied b i) eqn:Hocc.
  - by rewrite Insert_occupied.
  - destruct (Insert_free b i k v Hwf Hi Hocc) as (b1 & -> & _). done.
Qed.

(** C7.  A freshly zeroed block satisfies [readable ⇒ occupied].  From any
    well-formed block that satisfies it, every sequence of [Insert] and
    [Remove] calls on slots of the array runs to completion, and whatever
    such a sequence returns is a well-formed block that satisfies the
    invariant again and in which every slot that was occupied still is;
    [Remove] leaves the occupied bitmap as it is. *)
Theorem readable_implies_occupied_preserved (b : BlockPage) (ops : list op) :
  wf b → readable_occupied BLOCK_ARRAY_SIZE b →
  (Forall (λ o, op_index o < BLOCK_ARRAY_SIZE) ops →
   is_Some (run BLOCK_ARRAY_SIZE ops b)) ∧
  (∀ b', run BLOCK_ARRAY_SIZE ops b = Some b' →
     wf b' ∧ readable_occupied BLOCK_ARRAY_SIZE b' ∧
     ∀ i, i < BLOCK_ARRAY_SIZE → IsOccupied b i = true → IsOccupied b' i = true) ∧
  (∀ i, occupied_ (Remove BLOCK_ARRAY_SIZE b i) = occupied_ b) ∧
  (∀ zero_entry,
     readable_occupied BLOCK_ARRAY_SIZE
       (Block.empty (K:=K) (V:=V) BLOCK_ARRAY_SIZE zero_entry)).
Proof.
  intros Hwf Hinv. split; [|split; [|split]].
  - revert b Hwf Hinv. induction ops as [|o ops IH]; intros b Hwf Hinv Hall; [done|].
    apply Forall_cons in Hall as [Ho Hall]. simpl.
    destruct (apply_defined b o Hwf Ho) as [b1 Hb1]. rewrite Hb1. simpl.
    destruct (apply_preserves b b1 o Hwf Hinv Hb1) as (Hwf1 & Hinv1 & _).
    by apply IH.
  - revert b Hwf Hinv. induction ops as [|o ops IH]; intros b Hwf Hinv b' Hrun.
    + simpl in Hrun. by simplify_eq.
    + simpl in Hrun. destruct (apply BLOCK_ARRAY_SIZE b o) as [b1|] eqn:Hb1; [|done].
      simpl in Hrun.
      destruct (apply_preserves b b1 o Hwf Hinv Hb1) as (Hwf1 & Hinv1 & Hmono1).
      destruct (IH b1 Hwf1 Hinv1 b' Hrun) as (Hwf' & Hinv' & Hmono').
      split; [done|]. split; [done|]. intros i Hi Ho. by apply Hmono', Hmono1.
  - intros i. by destruct (Remove_effect b i Hwf) as (_ & -> & _).
  - apply readable_occupied_empty.
Qed.

(** *** Reading a block back *)

(** One operation that runs to completion leaves an occupied slot occupied,
    leaves its pair where it is, and does not make it readable again. *)
Lemma apply_keeps_occupied (b b' : BlockPage) o i :
  wf b → IsOccupied b i = true → apply BLOCK_ARRAY_SIZE b o = Some b' →
  wf b' ∧ IsOccupied b' i = true ∧ array_ b' !! i = array_ b !! i ∧
  (IsReadable b i = false → IsReadable b' i = false).
Proof.
  intros Hwf Ho Happ. destruct o as [j k v|j]; simpl in Happ.
  - destruct (IsOccupied b j) eqn:Hocc.
    + rewrite Insert_occupied in Happ by done. by simplify_eq/=.
    + destruct (decide (j < BLOCK_ARRAY_SIZE)) as [Hj|Hj].
      * destruct (Insert_free b j k v Hwf Hj Hocc) as (b1 & Hins & Hwf1 & Ho1 & Hr1 & Ha1).
        rewrite Hins in Happ. simplify_eq/=.
        assert (Hne : i ≠ j) by (intros ->; congruence).
        split; [done|]. split; [rewrite Ho1, Ho; apply orb_true_r|].
        split; [rewrite Ha1; by apply list_lookup_insert_ne|].
        intros Hr. rewrite Hr1, Hr. by rewrite bool_decide_eq_false_2.
      * rewrite Insert_out_of_bounds in Happ by (done || lia). done.
  - simplify_eq. destruct (Remove_effect b j Hwf) as (Hwf1 & Ho1 & Ha1 & Hr1).
    split; [done|]. split; [unfold Block.IsOccupied; by rewrite Ho1|].
    split; [by rewrite Ha1|]. intros Hr. rewrite Hr1, Hr. apply andb_false_r.
Qed.

(** X7.  [Insert] on a free slot of a block succeeds, and the pair is read
    back from that slot: [KeyAt] and [ValueAt] return it and the slot is
    occupied and readable; every other slot answers the four queries as
    before. *)
Theorem Insert_stores_the_pair (b : BlockPage) i k v :
  wf b → i < BLOCK_ARRAY_SIZE → IsOccupied b i = false →
  ∃ b', Insert BLOCK_ARRAY_SIZE b i k v = Some (b', true) ∧ wf b' ∧
    KeyAt b' i = Some k ∧ ValueAt b' i = Some v ∧
    IsOccupied b' i = true ∧ IsReadable b' i = true ∧
    ∀ j, j ≠ i →
      KeyAt b' j = KeyAt b j ∧ ValueAt b' j = ValueAt b j ∧
      IsOccupied b' j = IsOccupied b j ∧ IsReadable b' j = IsReadable b j.
Proof.
  intros Hwf Hi Hfree.
  destruct (Insert_free b i k v Hwf Hi Hfree) as (b' & Hins & Hwf' & Ho & Hr & Ha).
  pose proof (wf_array _ _ Hwf) as Hlen.
  exists b'. split; [done|]. split; [done|].
  unfold KeyAt, ValueAt. rewrite Ha, Ho, Hr.
  rewrite list_lookup_insert_eq by lia. rewrite bool_decide_eq_true_2 by done.
  do 4 (split; [done|]). intros j Hne.
  rewrite list_lookup_insert_ne by done. rewrite Ho, Hr.
  by rewrite bool_decide_eq_false_2.
Qed.

(** X8.  A slot is used once.  Whatever sequence of [Insert] and [Remove]
    calls runs on a block, a slot that was occupied at its start is occupied
    at its end and still holds the same pair; if it had been removed (it was
    a tombstone) it has not become readable again; and [Insert] on it is
    refused and changes nothing. *)
Theorem occupied_slot_is_never_reused (b b' : BlockPage) (ops : list op) i :
  wf b → IsOccupied b i = true → run BLOCK_ARRAY_SIZE ops b = Some b' →
  IsOccupied b' i = true ∧ KeyAt b' i = KeyAt b i ∧ ValueAt b' i = ValueAt b i ∧
  (IsReadable b i = false → IsReadable b' i = false) ∧
  ∀ k v, Insert BLOCK_ARRAY_SIZE b' i k v = Some (b', false).
Proof.
  intros Hwf Ho Hrun.
  assert (H : IsOccupied b' i = true ∧ array_ b' !! i = array_ b !! i ∧
              (IsReadable b i = false → IsReadable b' i = false)).
  { revert b Hwf Ho Hrun. induction ops as [|o ops IH]; intros b Hwf Ho Hrun.
    - simpl in Hrun. by simplify_eq.
    - simpl in Hrun. destruct (apply BLOCK_ARRAY_SIZE b o) as [b1|] eqn:Hb1; [|done].
      simpl in Hrun.
      destruct (apply_keeps_occupied b b1 o i Hwf Ho Hb1) as (Hwf1 & Ho1 & Ha1 & Hr1).
      destruct (IH b1 Hwf1 Ho1 Hrun) as (Ho' & Ha' & Hr').
      split; [done|]. split; [congruence|]. intros Hr. by apply Hr', Hr1. }
  destruct H as (Ho' & Ha' & Hr'). split; [done|].
  unfold KeyAt, ValueAt. rewrite Ha'. do 3 (split; [done|]).
  intros k v. by apply Insert_occupied.
Qed.

(** X9.  [Remove] hides one slot and nothing else: the slot is no longer
    readable, every other slot is as readable as before, and no slot changes
    its occupied bit or its pair, so the slot is left as a tombstone; an
    index beyond the bitmaps is ignored. *)
Theorem Remove_hides_the_slot (b : BlockPage) i :
  wf b →
  wf (Remove BLOCK_ARRAY_SIZE b i) ∧
  IsReadable (Remove BLOCK_ARRAY_SIZE b i) i = false ∧
  (∀ j, j ≠ i → IsReadable (Remove BLOCK_ARRAY_SIZE b i) j = IsReadable b j) ∧
  (∀ j, IsOccupied (Remove BLOCK_ARRAY_SIZE b i) j = IsOccupied b j ∧
        KeyAt (Remove BLOCK_ARRAY_SIZE b i) j = KeyAt b j ∧
        ValueAt (Remove BLOCK_ARRAY_SIZE b i) j = ValueAt b j) ∧
  (bitmap_size ≤ i / 8 → Remove BLOCK_ARRAY_SIZE b i = b).
Proof.
  intros Hwf. destruct (Remove_effect b i Hwf) as (Hwf' & Ho & Ha & Hr).
  split; [done|]. split; [rewrite Hr; by rewrite bool_decide_eq_true_2|].
  split; [intros j Hne; rewrite Hr; by rewrite bool_decide_eq_false_2|].
  split.
  - intros j. unfold Block.IsOccupied, KeyAt, ValueAt. by rewrite Ho, Ha.
  - intros Hidx. unfold Remove. by rewrite bool_decide_eq_true_2.
Qed.

End WithTypes.

Lemma readable_implies_occupied_preserved_witness :
  Block.wf 12 (Block.empty (K:=Z) (V:=Z) 12 (0, 0)%Z) ∧
  readable_occupied 12 (Block.empty (K:=Z) (V:=Z) 12 (0, 0)%Z) ∧
  (Forall (λ o, op_index o < 12) sample_ops →
   is_Some (run 12 sample_ops (Block.empty 12 (0, 0)%Z))) ∧
  (∀ b', run 12 sample_ops (Block.empty 12 (0, 0)%Z) = Some b' →
     Block.wf 12 b' ∧ readable_occupied 12 b' ∧
     ∀ i, i < 12 → Block.IsOccupied 12 (Block.empty (K:=Z) (V:=Z) 12 (0, 0)%Z) i = true →
          Block.IsOccupied 12 b' i = true) ∧
  (∀ i, occupied_ (Remove 12 (Block.empty (K:=Z) (V:=Z) 12 (0, 0)%Z) i)
        = occupied_ (Block.empty (K:=Z) (V:=Z) 12 (0, 0)%Z)) ∧
  (∀ zero_entry : Z * Z, readable_occupied 12 (Block.empty 12 zero_entry)).
Proof.
  assert (Hwf : Block.wf 12 (Block.empty (K:=Z) (V:=Z) 12 (0, 0)%Z))
    by (split; reflexivity).
  assert (Hinv : readable_occupied 12 (Block.empty (K:=Z) (V:=Z) 12 (0, 0)%Z)).
  { intros i Hi. do 12 (destruct i as [|i]; [vm_compute; discriminate|]). lia. }
  split; [exact Hwf|]. split; [exact Hinv|].
  exact (readable_implies_occupied_preserved 12 _ sample_ops Hwf Hinv).
Defined.

(** Slot 5 of a zeroed block of 12 slots is free. *)
Lemma Insert_stores_the_pair_witness :
  Block.wf 12 (Block.empty (K:=Z) (V:=Z) 12 (0, 0)%Z) ∧ 5 < 12 ∧
  Block.IsOccupied 12 (Block.empty (K:=Z) (V:=Z) 12 (0, 0)%Z) 5 = false ∧
  ∃ b', Insert 12 (Block.empty 12 (0, 0)%Z) 5 7%Z 9%Z = Some (b', true) ∧ Block.wf 12 b' ∧
    KeyAt b' 5 = Some 7%Z ∧ ValueAt b' 5 = Some 9%Z ∧
    Block.IsOccupied 12 b' 5 = true ∧ Block.IsReadable 12 b' 5 = true ∧
    ∀ j, j ≠ 5 →
      KeyAt b' j = KeyAt (Block.empty 12 (0, 0)%Z) j ∧
      ValueAt b' j = ValueAt (Block.empty 12 (0, 0)%Z) j ∧
      Block.IsOccupied 12 b' j = Block.IsOccupied 12 (Block.empty (K:=Z) (V:=Z) 12 (0, 0)%Z) j ∧
      Block.IsReadable 12 b' j = Block.IsReadable 12 (Block.empty (K:=Z) (V:=Z) 12 (0, 0)%Z) j.
Proof.
  assert (Hwf : Block.wf 12 (Block.empty (K:=Z) (V:=Z) 12 (0, 0)%Z))
    by (split; reflexivity).
  assert (Hi : 5 < 12) by lia.
  assert (Hfree : Block.IsOccupied 12 (Block.empty (K:=Z) (V:=Z) 12 (0, 0)%Z) 5 = false)
    by (vm_compute; reflexivity).
  split; [exact Hwf|]. split; [exact Hi|]. split; [exact Hfree|].
  exact (Insert_stores_the_pair 12 _ 5 7%Z 9%Z Hwf Hi Hfree).
Defined.

(** The block [sample_block] has slot 3 occupied by [(5, 7)]; [sample_tail]
    removes it and tries to insert into it again. *)
Lemma occupied_slot_is_never_reused_witness :
  Block.wf 12 sample_block ∧ Block.IsOccupied 12 sample_block 3 = true ∧
  run 12 sample_tail sample_block = Some sample_final ∧
  Block.IsOccupied 12 sample_final 3 = true ∧
  KeyAt sample_final 3 = KeyAt sample_block 3 ∧
  ValueAt sample_final 3 = ValueAt sample_block 3 ∧
  (Block.IsReadable 12 sample_block 3 = false → Block.IsReadable 12 sample_final 3 = false) ∧
  ∀ k v, Insert 12 sample_final 3 k v = Some (sample_final, false).
Proof.
  assert (Hwf : Block.wf 12 sample_block) by (split; reflexivity).
  assert (Ho : Block.IsOccupied 12 sample_block 3 = true) by (vm_compute; reflexivity).
  assert (Hrun : run 12 sample_tail sample_block = Some sample_final)
    by (vm_compute; reflexivity).
  split; [exact Hwf|]. split; [exact Ho|]. split; [exact Hrun|].
  exact (occupied_slot_is_never_reused 12 sample_block sample_final sample_tail 3 Hwf Ho Hrun).
Defined.

Lemma Remove_hides_the_slot_witness :
  Block.wf 12 sample_block ∧
  Block.wf 12 (Remove 12 sample_block 3) ∧
  Block.IsReadable 12 (Remove 12 sample_block 3) 3 = false ∧
  (∀ j, j ≠ 3 → Block.IsReadable 12 (Remove 12 sample_block 3) j
                 = Block.IsReadable 12 sample_block j) ∧
  (∀ j, Block.IsOccupied 12 (Remove 12 sample_block 3) j = Block.IsOccupied 12 sample_block j ∧
        KeyAt (Remove 12 sample_block 3) j = KeyAt sample_block j ∧
        ValueAt (Remove 12 sample_block 3) j = ValueAt sample_block j) ∧
  (Block.bitmap_size 12 ≤ 3 / 8 → Remove 12 sample_block 3 = sample_block).
Proof.
  assert (Hwf : Block.wf 12 sample_block) by (split; reflexivity).
  split; [exact Hwf|]. exact (Remove_hides_the_slot 12 sample_block 3 Hwf).
Defined.

End BlockProps.

(** ** The linear-probe hash table *)

Module LPHTProps.
Import LPHT.

Section WithTypes.
Context {K V : Type} `{EqDecision V}.
Context (BLOCK_ARRAY_SIZE : nat) (zero_entry : K * V).
Context (comparator_ : K → K → Z) (hash_fn_ : K → nat).

Local Abbreviation BlockPage := (Block.BlockPage K V).
Local Abbreviation HashTable := (LPHT.HashTable K V).
Local Abbreviation wf := (Block.wf (K:=K) (V:=V) BLOCK_ARRAY_SIZE).
Local Abbreviation IsOccupied := (Block.IsOccupied (K:=K) (V:=V) BLOCK_ARRAY_SIZE).
Local Abbreviation IsReadable := (Block.IsReadable (K:=K) (V:=V) BLOCK_ARRAY_SIZE).
Local Abbreviation holds := (LPHT.holds BLOCK_ARRAY_SIZE comparator_).
Local Abbreviation slot_value := (LPHT.slot_value BLOCK_ARRAY_SIZE comparator_).
Local Abbreviation matching_values := (LPHT.matching_values BLOCK_ARRAY_SIZE comparator_).
Local Abbreviation has_bucket := (LPHT.has_bucket BLOCK_ARRAY_SIZE hash_fn_).
Local Abbreviation offset_of := (LPHT.offset_of BLOCK_ARRAY_SIZE hash_fn_).
Local Abbreviation GetValue := (LPHT.GetValue BLOCK_ARRAY_SIZE comparator_ hash_fn_).
Local Abbreviation Insert := (LPHT.Insert BLOCK_ARRAY_SIZE zero_entry comparator_ hash_fn_).
Local Abbreviation Remove := (LPHT.Remove BLOCK_ARRAY_SIZE comparator_ hash_fn_).

(** *** Reading one slot *)

Lemma slot_entry (bucket : BlockPage) i :
  wf bucket → i < BLOCK_ARRAY_SIZE → ∃ k v, Block.array_ bucket !! i = Some (k, v).
Proof.
  intros Hwf Hi.
  destruct (lookup_lt_is_Some_2 (Block.array_ bucket) i) as [[k v] Hkv]; [|eauto].
  by rewrite (Block.wf_array _ _ Hwf).
Qed.

Lemma slot_value_holds (bucket : BlockPage) key i v :
  slot_value bucket key i = Some v ↔ holds bucket i key v.
Proof.
  unfold LPHT.slot_value, LPHT.holds. split.
  - destruct (IsReadable bucket i); [|done].
    destruct (Block.array_ bucket !! i) as [[k v']|]; [|done].
    destruct (Z.eqb_spec (comparator_ k key) 0); [|done].
    intros [= ->]. eauto.
  - intros (-> & k & -> & ->). done.
Qed.

Lemma key_matches_slot_value (bucket : BlockPage) key i k v :
  Block.array_ bucket !! i = Some (k, v) →
  key_matches BLOCK_ARRAY_SIZE comparator_ bucket i key
    = Some (bool_decide (slot_value bucket key i = Some v)) ∧
  (slot_value bucket key i = Some v ∨ slot_value bucket key i = None).
Proof.
  intros Hkv. unfold key_matches, LPHT.slot_value, Block.KeyAt. rewrite Hkv.
  destruct (IsReadable bucket i); simpl; [|by split; [|right]].
  destruct (comparator_ k key =? 0)%Z.
  - by rewrite bool_decide_eq_true_2; [split; [|left]|].
  - by split; [|right].
Qed.

(** *** GetValue *)

Lemma GetValue_loop_spec (bucket : BlockPage) key n : ∀ iter result rtn,
  wf bucket → iter + n = BLOCK_ARRAY_SIZE →
  GetValue_loop BLOCK_ARRAY_SIZE comparator_ n iter bucket key result rtn =
  Some (result ++ omap (slot_value bucket key) (seq iter n),
        if omap (slot_value bucket key) (seq iter n) is [] then rtn else true).
Proof.
  induction n as [|n IH]; intros iter result rtn Hwf Hn.
  - simpl. by rewrite app_nil_r.
  - destruct (slot_entry bucket iter Hwf) as (k & v & Hkv); [lia|].
    destruct (key_matches_slot_value bucket key iter k v Hkv) as [Hkm Hsv].
    cbn [GetValue_loop seq omap]. rewrite Hkm. cbn [mbind option_bind].
    destruct Hsv as [Hsv|Hsv]; rewrite Hsv.
    + rewrite bool_decide_eq_true_2 by done.
      unfold Block.ValueAt. rewrite Hkv. cbn [fmap option_fmap option_map mbind option_bind snd].
      rewrite IH by (done || lia). rewrite <- app_assoc. simpl. rewrite Hsv.
      do 2 f_equal. by destruct (omap _ _).
    + rewrite bool_decide_eq_false_2 by done.
      rewrite IH by (done || lia). simpl. by rewrite Hsv.
Qed.

Lemma elem_of_matching_values (bucket : BlockPage) key offset v :
  v ∈ matching_values bucket key offset ↔
  ∃ j, offset ≤ j < BLOCK_ARRAY_SIZE ∧ holds bucket j key v.
Proof.
  unfold LPHT.matching_values. rewrite list_elem_of_omap. split.
  - intros (j & Hj & Hv). apply elem_of_seq in Hj. apply slot_value_holds in Hv.
    exists j. split; [lia|done].
  - intros (j & Hj & Hv). exists j. split; [apply elem_of_seq; lia|].
    by apply slot_value_holds.
Qed.

(** [GetValue] on a key whose block exists. *)
Lemma GetValue_has_bucket (t : HashTable) key bucket_id bucket result :
  has_bucket t key bucket_id bucket →
  GetValue t key result =
  Some (result ++ matching_values bucket key (offset_of key),
        if matching_values bucket key (offset_of key) is [] then false else true,
        [FetchPage (header_page_id_ t); FetchPage bucket_id;
         UnpinPage bucket_id false; UnpinPage (header_page_id_ t) false]).
Proof.
  intros [Hsize Hlisted Hvalid Hpage Hwf]. unfold LPHT.GetValue, GetSize_header.
  rewrite bool_decide_eq_false_2 by done.
  unfold GetBlockPageId. rewrite Hlisted. cbn [default from_option id].
  rewrite bool_decide_eq_true_2 by done. rewrite Hpage. cbn [mbind option_bind].
  destruct (decide (BLOCK_ARRAY_SIZE = 0)) as [Hz|Hnz].
  - unfold LPHT.matching_values, LPHT.offset_of. rewrite Hz. simpl.
    by rewrite app_nil_r.
  - pose proof (Nat.mod_upper_bound (hash_fn_ key) BLOCK_ARRAY_SIZE Hnz).
    rewrite GetValue_loop_spec by (done || lia). done.
Qed.

(** C10.  For a key whose block page exists, [GetValue] appends to the
    result exactly the values of the live slots between
    [hash(key) mod BLOCK_ARRAY_SIZE] and [BLOCK_ARRAY_SIZE - 1] whose key
    equals [key], in slot order, and returns whether there was one.  Whether
    the slots before a matching live slot are free plays no part: every such
    slot of the region is reported. *)
Theorem GetValue_scans_whole_probe_region (t : HashTable) key bucket_id bucket result :
  has_bucket t key bucket_id bucket →
  ∃ tr,
    GetValue t key result =
      Some (result ++ matching_values bucket key (offset_of key),
            if matching_values bucket key (offset_of key) is [] then false else true,
            tr) ∧
    ∀ v, v ∈ matching_values bucket key (offset_of key) ↔
         ∃ j, offset_of key ≤ j < BLOCK_ARRAY_SIZE ∧ holds bucket j key v.
Proof.
  intros Hb. eexists. split; [by apply GetValue_has_bucket|].
  intros v. apply elem_of_matching_values.
Qed.

(** *** Remove *)

Lemma pair_matches_spec (bucket : BlockPage) i key value :
  wf bucket → i < BLOCK_ARRAY_SIZE →
  ∃ m, pair_matches BLOCK_ARRAY_SIZE comparator_ bucket i key value = Some m ∧
       (m = true ↔ holds bucket i key value).
Proof.
  intros Hwf Hi. destruct (slot_entry bucket i Hwf Hi) as (k & v & Hkv).
  destruct (key_matches_slot_value bucket key i k v Hkv) as [Hkm Hsv].
  unfold pair_matches. rewrite Hkm. cbn [mbind option_bind].
  destruct Hsv as [Hsv|Hsv].
  - rewrite bool_decide_eq_true_2 by done.
    unfold Block.ValueAt. rewrite Hkv. cbn [fmap option_fmap option_map mbind option_bind snd].
    eexists. split; [done|]. rewrite <- slot_value_holds, Hsv, bool_decide_eq_true.
    naive_solver.
  - rewrite bool_decide_eq_false_2 by (by rewrite Hsv). exists false.
    split; [done|]. rewrite <- slot_value_holds, Hsv. done.
Qed.

(** The scan of [Remove] stops at the first slot of the region that holds
    the pair, and tombstones it; without such a slot it runs to the end of
    the block and changes nothing. *)
Lemma Remove_loop_spec (bucket : BlockPage) key value n : ∀ offset,
  wf bucket → offset + n = BLOCK_ARRAY_SIZE →
  (∃ i, offset ≤ i < BLOCK_ARRAY_SIZE ∧ holds bucket i key value ∧
        (∀ i', offset ≤ i' < i → ¬ holds bucket i' key value) ∧
        Remove_loop BLOCK_ARRAY_SIZE comparator_ n offset bucket key value
          = Some (Block.Remove BLOCK_ARRAY_SIZE bucket i, i)) ∨
  ((∀ i', offset ≤ i' < BLOCK_ARRAY_SIZE → ¬ holds bucket i' key value) ∧
   Remove_loop BLOCK_ARRAY_SIZE comparator_ n offset bucket key value
     = Some (bucket, BLOCK_ARRAY_SIZE)).
Proof.
  induction n as [|n IH]; intros offset Hwf Hn.
  - right. split; [intros i' Hi'; lia|]. simpl. do 2 f_equal. lia.
  - destruct (pair_matches_spec bucket offset key value Hwf) as (m & Hm & Hiff); [lia|].
    cbn [Remove_loop]. rewrite Hm. cbn [mbind option_bind]. destruct m.
    + left. exists offset. split; [lia|]. split; [by apply Hiff|].
      split; [intros i' Hi'; lia|done].
    + assert (Hno : ¬ holds bucket offset key value).
      { intros Hh. by apply Hiff in Hh. }
      destruct (IH (S offset) Hwf) as [(i & Hi & Hh & Hfirst & Hrun)|[Hnone Hrun]]; [lia| |].
      * left. exists i. split; [lia|]. split; [done|]. split; [|done].
        intros i' Hi'. destruct (decide (i' = offset)) as [->|]; [done|].
        apply Hfirst. lia.
      * right. split; [|done]. intros i' Hi'.
        destruct (decide (i' = offset)) as [->|]; [done|]. apply Hnone. lia.
Qed.

(** [Remove] on a key whose block exists, when some slot of the probe region
    holds the pair. *)
Lemma Remove_has_bucket (t : HashTable) key value bucket_id bucket i :
  has_bucket t key bucket_id bucket →
  offset_of key ≤ i < BLOCK_ARRAY_SIZE → holds bucket i key value →
  ∃ i', offset_of key ≤ i' ≤ i ∧ holds bucket i' key value ∧
    Remove t key value =
    Some (LPHT.Build (header_page_id_ t) (header t)
            (<[bucket_id := Block.Remove BLOCK_ARRAY_SIZE bucket i']> (blocks t))
            (next_page_id_ t),
          true,
          [FetchPage (header_page_id_ t); FetchPage bucket_id;
           UnpinPage bucket_id true; UnpinPage (header_page_id_ t) false]).
Proof.
  intros [Hsize Hlisted Hvalid Hpage Hwf] Hi Hh.
  destruct (Remove_loop_spec bucket key value (BLOCK_ARRAY_SIZE - offset_of key)
              (offset_of key) Hwf) as [(i' & Hi' & Hh' & Hfirst & Hrun)|[Hnone _]]; [lia| |].
  - exists i'. split.
    { split; [lia|]. destruct (decide (i' ≤ i)); [done|].
      exfalso. apply (Hfirst i); [lia|done]. }
    split; [done|].
    unfold LPHT.Remove, GetSize_header. rewrite bool_decide_eq_false_2 by done.
    unfold GetBlockPageId. rewrite Hlisted. cbn [default from_option id].
    rewrite bool_decide_eq_false_2 by done. rewrite Hpage. cbn [mbind option_bind].
    fold (offset_of key). rewrite Hrun. cbn [mbind option_bind].
    by rewrite bool_decide_eq_true_2 by lia.
  - exfalso. by apply (Hnone i).
Qed.

(** C6.  Let the block of [key] hold [(key, value)] in a live slot [i] of
    the probe region and [(key, value')] in a live slot [j] further along.
    [GetValue(key)] reports [value'].  [Remove(key, value)] succeeds; it
    changes no occupied bit (the slot it clears stays a tombstone), slot [j]
    is still live with the same pair, and [GetValue(key)] still reports
    [value']. *)
Theorem Remove_keeps_later_entry (t : HashTable) key value value' bucket_id bucket i j :
  has_bucket t key bucket_id bucket →
  offset_of key ≤ i → i < j → j < BLOCK_ARRAY_SIZE →
  holds bucket i key value → holds bucket j key value' →
  (∃ res tr, GetValue t key [] = Some (res, true, tr) ∧ value' ∈ res) ∧
  ∃ t' tr bucket',
    Remove t key value = Some (t', true, tr) ∧
    has_bucket t' key bucket_id bucket' ∧
    (∀ s, IsOccupied bucket' s = IsOccupied bucket s) ∧
    holds bucket' j key value' ∧
    ∃ res tr', GetValue t' key [] = Some (res, true, tr') ∧ value' ∈ res.
Proof.
  intros Hb Hoi Hij Hj Hi Hjv.
  assert (Hfind : ∀ (t0 : HashTable) b0,
    has_bucket t0 key bucket_id b0 → holds b0 j key value' →
    ∃ res tr, GetValue t0 key [] = Some (res, true, tr) ∧ value' ∈ res).
  { intros t0 b0 Hb0 Hh0.
    assert (Hin : value' ∈ matching_values b0 key (offset_of key)).
    { apply elem_of_matching_values. exists j. split; [lia|done]. }
    eexists _, _. rewrite (GetValue_has_bucket t0 key bucket_id b0 [] Hb0).
    split; [|exact Hin]. simpl.
    destruct (matching_values b0 key (offset_of key)); [|done].
    by apply elem_of_nil in Hin. }
  split; [by eapply Hfind|].
  destruct (Remove_has_bucket t key value bucket_id bucket i Hb) as (i' & Hi' & Hh' & Hrm);
    [lia|done|].
  destruct Hb as [Hsize Hlisted Hvalid Hpage Hwf].
  destruct (BlockProps.Remove_effect BLOCK_ARRAY_SIZE bucket i' Hwf) as (Hwf' & Hocc & Harr & Hrd).
  assert (Hjv' : holds (Block.Remove BLOCK_ARRAY_SIZE bucket i') j key value').
  { destruct Hjv as (Hr & k & Hk & Hc). split.
    - rewrite Hrd, Hr. rewrite bool_decide_eq_false_2 by lia. done.
    - exists k. by rewrite Harr. }
  assert (Hb' : has_bucket
            (LPHT.Build (header_page_id_ t) (header t)
               (<[bucket_id := Block.Remove BLOCK_ARRAY_SIZE bucket i']> (blocks t))
               (next_page_id_ t)) key bucket_id (Block.Remove BLOCK_ARRAY_SIZE bucket i')).
  { split; simpl; try done. by rewrite lookup_insert_eq. }
  eexists _, _, _. split; [exact Hrm|]. split; [exact Hb'|]. split.
  { intros s. unfold Block.IsOccupied. by rewrite Hocc. }
  split; [done|]. by eapply Hfind.
Qed.

(** *** Insert *)

(** The probing loop of [Insert] either gives up and leaves the block as it
    is, or fills the first free slot it meets, having passed only occupied
    slots that do not hold the pair. *)
Lemma Insert_loop_spec (bucket : BlockPage) key value n : ∀ iter,
  wf bucket → n = BLOCK_ARRAY_SIZE - iter →
  Insert_loop BLOCK_ARRAY_SIZE comparator_ n iter bucket key value = Some (bucket, false) ∨
  ∃ i bucket', iter ≤ i < BLOCK_ARRAY_SIZE ∧ IsOccupied bucket i = false ∧
    (∀ i', iter ≤ i' < i → IsOccupied bucket i' = true ∧ ¬ holds bucket i' key value) ∧
    Block.Insert BLOCK_ARRAY_SIZE bucket i key value = Some (bucket', true) ∧
    Insert_loop BLOCK_ARRAY_SIZE comparator_ n iter bucket key value = Some (bucket', true).
Proof.
  induction n as [|n IH]; intros iter Hwf Hn; [by left|].
  assert (Hi : iter < BLOCK_ARRAY_SIZE) by lia.
  cbn [Insert_loop]. destruct (IsOccupied bucket iter) eqn:Hocc.
  - rewrite BlockProps.Insert_occupied by done. cbn [mbind option_bind].
    destruct (pair_matches_spec bucket iter key value Hwf Hi) as (m & -> & Hiff).
    cbn [mbind option_bind]. destruct m; [by left|].
    destruct (IH (S iter) Hwf) as [Hrej|(i & b' & Hi' & Hfree & Hpassed & Hins & Hrun)]; [lia| |].
    + by left.
    + right. exists i, b'. split; [lia|]. split; [done|]. split; [|done].
      intros i' Hi''. destruct (decide (i' = iter)) as [->|].
      * split; [done|]. intros Hh. by apply Hiff in Hh.
      * apply Hpassed. lia.
  - destruct (BlockProps.Insert_free BLOCK_ARRAY_SIZE bucket iter key value Hwf Hi Hocc)
      as (b1 & Hins & Hwf1 & _).
    rewrite Hins. cbn [mbind option_bind].
    destruct (pair_matches_spec b1 iter key value Hwf1 Hi) as (m & -> & _).
    cbn [mbind option_bind]. right. exists iter, b1. split; [lia|]. split; [done|].
    split; [intros i' Hi'; lia|]. split; [done|]. by destruct m.
Qed.

Lemma Remove_loop_result (bucket bucket' : BlockPage) key value n : ∀ offset offset',
  Remove_loop BLOCK_ARRAY_SIZE comparator_ n offset bucket key value = Some (bucket', offset') →
  bucket' = bucket ∨ ∃ i, bucket' = Block.Remove BLOCK_ARRAY_SIZE bucket i.
Proof.
  induction n as [|n IH]; intros offset offset' Hrun.
  - simpl in Hrun. left. by simplify_eq.
  - cbn [Remove_loop] in Hrun.
    destruct (pair_matches _ _ _ _ _ _) as [[]|]; cbn [mbind option_bind] in Hrun; [| |done].
    + right. exists offset. by simplify_eq.
    + by eapply IH.
Qed.

(** The two ways the scan of [Remove] ends, from the start of the probe
    region. *)
Lemma Remove_loop_cases (b : BlockPage) key value :
  wf b →
  (∃ i, offset_of key ≤ i < BLOCK_ARRAY_SIZE ∧ holds b i key value ∧
        Remove_loop BLOCK_ARRAY_SIZE comparator_ (BLOCK_ARRAY_SIZE - offset_of key)
          (offset_of key) b key value
        = Some (Block.Remove BLOCK_ARRAY_SIZE b i, i)) ∨
  ((∀ j, offset_of key ≤ j → ¬ holds b j key value) ∧
   ∃ o', ¬ o' < BLOCK_ARRAY_SIZE ∧
         Remove_loop BLOCK_ARRAY_SIZE comparator_ (BLOCK_ARRAY_SIZE - offset_of key)
           (offset_of key) b key value = Some (b, o')).
Proof.
  intros Hwf.
  assert (Hslot : ∀ j, holds b j key value → j < BLOCK_ARRAY_SIZE).
  { intros j (_ & k & Hkv & _). apply lookup_lt_Some in Hkv.
    by rewrite (Block.wf_array _ _ Hwf) in Hkv. }
  destruct (decide (offset_of key < BLOCK_ARRAY_SIZE)) as [Hlt|Hge].
  - destruct (Remove_loop_spec b key value (BLOCK_ARRAY_SIZE - offset_of key)
                (offset_of key) Hwf) as [(i & Hi & Hh & _ & Hrun)|[Hnone Hrun]]; [lia| |].
    + left. by exists i.
    + right. split.
      * intros j Hj Hh. apply (Hnone j); [|done]. split; [done|by apply Hslot].
      * exists BLOCK_ARRAY_SIZE. split; [lia|done].
  - right. split.
    + intros j Hj Hh. apply Hslot in Hh. lia.
    + exists (offset_of key). split; [done|].
      by replace (BLOCK_ARRAY_SIZE - offset_of key) with 0 by lia.
Qed.

(** *** The shape of blocks and tables *)

Section Invariants.
(** The comparator decides equality of keys (as [IntComparator] and the
    [GenericComparator]s do). *)
Hypothesis comparator_spec : ∀ a b, comparator_ a b = 0%Z ↔ a = b.

Local Abbreviation bucket_inv := (LPHT.bucket_inv (V:=V) BLOCK_ARRAY_SIZE hash_fn_).
Local Abbreviation table_inv := (LPHT.table_inv (V:=V) BLOCK_ARRAY_SIZE hash_fn_).
Local Abbreviation reachable :=
  (LPHT.reachable BLOCK_ARRAY_SIZE zero_entry comparator_ hash_fn_).

Lemma bucket_inv_empty : bucket_inv (Block.empty BLOCK_ARRAY_SIZE zero_entry).
Proof.
  assert (Hnone : ∀ j, IsReadable (Block.empty BLOCK_ARRAY_SIZE zero_entry) j = false).
  { intros j. unfold Block.IsReadable. simpl. apply BlockProps.test_bit_zero. }
  split.
  - apply BlockProps.wf_empty.
  - apply BlockProps.readable_occupied_empty.
  - intros j k v _ Hr. by rewrite Hnone in Hr.
  - intros i j kv _ _ Hr. by rewrite Hnone in Hr.
Qed.

Lemma bucket_inv_Remove b i :
  bucket_inv b → bucket_inv (Block.Remove BLOCK_ARRAY_SIZE b i).
Proof.
  intros [Hwf Hro Hchain Huniq].
  destruct (BlockProps.Remove_effect BLOCK_ARRAY_SIZE b i Hwf) as (Hwf' & Hocc & Harr & Hrd).
  assert (Ho : ∀ s, IsOccupied (Block.Remove BLOCK_ARRAY_SIZE b i) s = IsOccupied b s).
  { intros s. unfold Block.IsOccupied. by rewrite Hocc. }
  assert (Hr : ∀ s, IsReadable (Block.Remove BLOCK_ARRAY_SIZE b i) s = true →
                    IsReadable b s = true).
  { intros s. rewrite Hrd. by intros [_ ?]%andb_true_iff. }
  split; [done| | |].
  - intros s Hs Hrs. rewrite Ho. by apply Hro, Hr.
  - intros j k v Hj Hrj Hkv. rewrite Harr in Hkv.
    destruct (Hchain j k v Hj (Hr _ Hrj) Hkv) as [Hoff Hocc'].
    split; [done|]. intros s Hs. rewrite Ho. by apply Hocc'.
  - intros x y kv Hx Hy Hrx Hry Hkx Hky. rewrite Harr in Hkx, Hky.
    by apply (Huniq x y kv Hx Hy (Hr _ Hrx) (Hr _ Hry)).
Qed.

(** Filling a free slot that the probe of [key] reaches keeps the shape. *)
Lemma bucket_inv_Insert b b' i key value :
  bucket_inv b → offset_of key ≤ i < BLOCK_ARRAY_SIZE →
  IsOccupied b i = false →
  (∀ i', offset_of key ≤ i' < i → IsOccupied b i' = true ∧ ¬ holds b i' key value) →
  Block.Insert BLOCK_ARRAY_SIZE b i key value = Some (b', true) →
  bucket_inv b'.
Proof.
  intros [Hwf Hro Hchain Huniq] Hi Hfree Hpassed Hins.
  destruct (BlockProps.Insert_free BLOCK_ARRAY_SIZE b i key value Hwf) as
    (b1 & Hins1 & Hwf' & Ho & Hr & Harr); [lia|done|].
  rewrite Hins1 in Hins. simplify_eq.
  assert (Hnr : IsReadable b i = false).
  { destruct (IsReadable b i) eqn:Hri; [|done].
    rewrite (Hro i) in Hfree; [done|lia|done]. }
  assert (Hold : ∀ s, s ≠ i → IsReadable b' s = true →
                 IsReadable b s = true ∧ Block.array_ b' !! s = Block.array_ b !! s).
  { intros s Hs. rewrite Hr, Harr. rewrite bool_decide_eq_false_2 by done. simpl.
    intros ->. split; [done|]. by apply list_lookup_insert_ne. }
  assert (Hnew : Block.array_ b' !! i = Some (key, value)).
  { rewrite Harr. apply list_lookup_insert_eq. rewrite (Block.wf_array _ _ Hwf). lia. }
  assert (Hclash : ∀ s, s < BLOCK_ARRAY_SIZE → s ≠ i → IsReadable b s = true →
                   Block.array_ b !! s = Some (key, value) → False).
  { intros s Hs Hne Hrs Hks.
    destruct (Hchain s key value Hs Hrs Hks) as [Hoff Hocc].
    destruct (decide (s < i)) as [Hlt|Hge].
    - destruct (Hpassed s) as [_ Hno]; [lia|]. apply Hno. split; [done|].
      exists key. split; [done|]. by apply comparator_spec.
    - rewrite Hocc in Hfree; [done|lia]. }
  split; [done| | |].
  - intros s Hs. rewrite Hr, Ho. intros [Hsi|Hrs]%orb_true_iff.
    + by rewrite Hsi.
    + rewrite (Hro s Hs Hrs). apply orb_true_r.
  - intros j k v Hj Hrj Hkv. destruct (decide (j = i)) as [->|Hne].
    + rewrite Hnew in Hkv. simplify_eq. split; [lia|].
      intros s Hs. rewrite Ho. destruct (Hpassed s Hs) as [-> _]. apply orb_true_r.
    + destruct (Hold j Hne Hrj) as [Hrj' Heq]. rewrite Heq in Hkv.
      destruct (Hchain j k v Hj Hrj' Hkv) as [Hoff Hocc]. split; [done|].
      intros s Hs. rewrite Ho, (Hocc s Hs). apply orb_true_r.
  - intros x y kv Hx Hy Hrx Hry Hkx Hky.
    destruct (decide (x = i)) as [->|Hxi]; destruct (decide (y = i)) as [->|Hyi]; [done| | |].
    + destruct (Hold y Hyi Hry) as [Hry' Heq]. rewrite Heq in Hky.
      rewrite Hnew in Hkx. simplify_eq. by destruct (Hclash y).
    + destruct (Hold x Hxi Hrx) as [Hrx' Heq]. rewrite Heq in Hkx.
      rewrite Hnew in Hky. simplify_eq. by destruct (Hclash x).
    + destruct (Hold x Hxi Hrx) as [Hrx' Heqx]. destruct (Hold y Hyi Hry) as [Hry' Heqy].
      rewrite Heqx in Hkx. rewrite Heqy in Hky. by apply (Huniq x y kv).
Qed.

Lemma table_inv_update (t : HashTable) bucket_id b' :
  table_inv t → bucket_inv b' →
  table_inv (LPHT.Build (header_page_id_ t) (header t)
               (<[bucket_id := b']> (blocks t)) (next_page_id_ t)).
Proof.
  intros [Hsize Hnext Hblocks] Hb'. split; simpl; [done|done|].
  intros idx bid Hbid. destruct (Hblocks idx bid Hbid) as (Hvalid & b & Hb & Hinv).
  split; [done|]. destruct (decide (bid = bucket_id)) as [->|Hne].
  - exists b'. by rewrite lookup_insert_eq.
  - exists b. by rewrite lookup_insert_ne.
Qed.

(** Growing the header registers [n] fresh, empty blocks. *)
Lemma grow_spec n : ∀ (t t' : HashTable) tr tr',
  grow BLOCK_ARRAY_SIZE zero_entry n t tr = (t', tr') → table_inv t →
  table_inv t' ∧ NumBlocks (header t') = NumBlocks (header t) + n.
Proof.
  induction n as [|n IH]; intros t t' tr tr' Hg Hinv.
  - simpl in Hg. simplify_eq. split; [done|lia].
  - cbn [grow] in Hg. apply IH in Hg as [Hinv' Hnum].
    + split; [done|]. rewrite Hnum. unfold NumBlocks, AddBlockPageId. simpl.
      rewrite length_app. simpl. lia.
    + destruct Hinv as [Hsize Hnext Hblocks]. split; simpl; [done|lia|].
      intros idx bid Hbid. apply lookup_app_Some in Hbid as [Hbid|[_ Hbid]].
      * destruct (Hblocks idx bid Hbid) as (Hvalid & b & Hb & Hinvb).
        split; [done|]. destruct (decide (bid = next_page_id_ t)) as [->|Hne].
        -- eexists. rewrite lookup_insert_eq. split; [done|]. apply bucket_inv_empty.
        -- exists b. by rewrite lookup_insert_ne.
      * apply list_lookup_singleton_Some in Hbid as [_ <-].
        split; [unfold BPM.INVALID_PAGE_ID; lia|].
        eexists. rewrite lookup_insert_eq. split; [done|]. apply bucket_inv_empty.
Qed.

Lemma Insert_table_inv (t t' : HashTable) key value r tr :
  Insert t key value = Some (t', r, tr) → table_inv t → table_inv t'.
Proof.
  unfold LPHT.Insert, GetSize_header. intros Hins Hinv.
  case_bool_decide as Hsize; [done|].
  destruct (grow _ _ _ _ _) as [t1 tr1] eqn:Hg.
  destruct (grow_spec _ _ _ _ _ Hg Hinv) as [Hinv1 Hnum].
  set (idx := hash_fn_ key mod size_ (header t)) in *.
  destruct (lookup_lt_is_Some_2 (block_page_ids_ (header t1)) idx) as [bid Hbid].
  { unfold NumBlocks in Hnum. lia. }
  unfold GetBlockPageId in Hins. rewrite Hbid in Hins. cbn [default from_option id] in Hins.
  destruct (t_blocks _ _ _ Hinv1 idx bid Hbid) as (_ & b & Hb & Hinvb).
  rewrite Hb in Hins. cbn [mbind option_bind] in Hins.
  destruct (Insert_loop_spec b key value (BLOCK_ARRAY_SIZE - hash_fn_ key mod BLOCK_ARRAY_SIZE)
              (hash_fn_ key mod BLOCK_ARRAY_SIZE) (b_wf _ _ _ Hinvb) eq_refl)
    as [Hrej|(i & b' & Hi & Hfree & Hpassed & Hblk & Hrun)].
  - rewrite Hrej in Hins. cbn [mbind option_bind] in Hins. simplify_eq.
    by apply table_inv_update.
  - rewrite Hrun in Hins. cbn [mbind option_bind] in Hins. simplify_eq.
    apply table_inv_update; [done|].
    by eapply (bucket_inv_Insert b b' i key value).
Qed.

Lemma Remove_table_inv (t t' : HashTable) key value r tr :
  Remove t key value = Some (t', r, tr) → table_inv t → table_inv t'.
Proof.
  unfold LPHT.Remove, GetSize_header. intros Hrm Hinv.
  case_bool_decide as Hsize; [done|].
  case_bool_decide as Hbid; [by simplify_eq|].
  unfold GetBlockPageId in *.
  destruct (block_page_ids_ (header t) !! _) as [bid|] eqn:Hl; [|done].
  cbn [default from_option id] in *.
  destruct (t_blocks _ _ _ Hinv _ bid Hl) as (_ & b & Hb & Hinvb).
  rewrite Hb in Hrm. cbn [mbind option_bind] in Hrm.
  destruct (Remove_loop _ _ _ _ _ _ _) as [[b' o']|] eqn:Hloop; [|done].
  cbn [mbind option_bind] in Hrm. simplify_eq.
  apply table_inv_update; [done|].
  apply Remove_loop_result in Hloop as [->|[i ->]]; [done|].
  by apply bucket_inv_Remove.
Qed.

(** Every state of a table has the shape [table_inv]. *)
Lemma reachable_inv (t : HashTable) : reachable t → table_inv t.
Proof.
  induction 1 as [n p Hn Hp|t key value t' r tr _ IH Hins|t key value t' r tr _ IH Hrm].
  - split; simpl; [done|lia|]. intros idx bid Hbid. done.
  - by eapply Insert_table_inv.
  - by eapply Remove_table_inv.
Qed.

(** *** Counting the occurrences of a value *)

Lemma count_value_none (f : nat → option V) value n : ∀ o,
  (∀ j, o ≤ j < o + n → f j ≠ Some value) →
  length (filter (λ v, v = value) (omap f (seq o n))) = 0.
Proof.
  induction n as [|n IH]; intros o Hnone; [done|].
  cbn [seq]. change (omap f (o :: seq (S o) n))
    with (match f o with Some y => y :: omap f (seq (S o) n) | None => omap f (seq (S o) n) end).
  pose proof (Hnone o) as Ho.
  destruct (f o) as [y|].
  - rewrite filter_cons. case_decide as Hy; [subst; exfalso; apply Ho; [lia|done]|].
    apply IH. intros j Hj. apply Hnone. lia.
  - apply IH. intros j Hj. apply Hnone. lia.
Qed.

Lemma count_value_one (f : nat → option V) value n : ∀ o j,
  o ≤ j < o + n → f j = Some value →
  (∀ j', o ≤ j' < o + n → f j' = Some value → j' = j) →
  length (filter (λ v, v = value) (omap f (seq o n))) = 1.
Proof.
  induction n as [|n IH]; intros o j Hj Hfj Huniq; [lia|].
  cbn [seq]. change (omap f (o :: seq (S o) n))
    with (match f o with Some y => y :: omap f (seq (S o) n) | None => omap f (seq (S o) n) end).
  destruct (decide (j = o)) as [->|Hne].
  - rewrite Hfj, filter_cons, decide_True by done. simpl. f_equal.
    apply count_value_none. intros j' Hj' Hfj'.
    assert (j' = o); [apply Huniq; [lia|done]|lia].
  - assert (Hrest : length (filter (λ v, v = value) (omap f (seq (S o) n))) = 1).
    { apply (IH (S o) j); [lia|done|]. intros j' Hj'. apply Huniq. lia. }
    destruct (f o) as [y|] eqn:Hfo; [|done].
    rewrite filter_cons. case_decide as Hy; [|done].
    subst y. exfalso. apply Hne. symmetry. apply Huniq; [lia|done].
Qed.

(** C2.  In every state of the table, if the block selected by [hash(key)]
    holds [(key, value)] in a live slot, then [Insert(key, value)] returns
    [false] and the table is the same afterwards (header, every bitmap, every
    slot), and [GetValue(key)] reports [value] exactly once. *)
Theorem Insert_duplicate_rejected (t : HashTable) key value bucket_id bucket j :
  reachable t →
  block_page_ids_ (header t) !! (hash_fn_ key mod size_ (header t)) = Some bucket_id →
  blocks t !! bucket_id = Some bucket →
  j < BLOCK_ARRAY_SIZE → holds bucket j key value →
  (∃ tr, Insert t key value = Some (t, false, tr)) ∧
  (∃ res tr, GetValue t key [] = Some (res, true, tr) ∧
             length (filter (λ v, v = value) res) = 1).
Proof.
  intros Hreach Hlisted Hpage Hj Hholds.
  pose proof (reachable_inv t Hreach) as Hinv.
  destruct (t_blocks _ _ _ Hinv _ _ Hlisted) as (Hvalid & b & Hb & Hinvb).
  rewrite Hpage in Hb. simplify_eq.
  pose proof Hinvb as [Hwf Hro Hchain Huniq].
  destruct Hholds as (Hrj & k & Hkv & Hk). apply comparator_spec in Hk. subst k.
  destruct (Hchain j key value Hj Hrj Hkv) as [Hoff Hocc].
  assert (Hh : holds b j key value).
  { split; [done|]. exists key. split; [done|]. by apply comparator_spec. }
  split.
  - (* the probe passes occupied slots only and stops at the pair *)
    unfold LPHT.Insert, GetSize_header.
    rewrite bool_decide_eq_false_2 by apply (t_size _ _ _ Hinv).
    replace (hash_fn_ key mod size_ (header t) + 1 - NumBlocks (header t)) with 0.
    2:{ apply lookup_lt_Some in Hlisted. unfold NumBlocks. lia. }
    cbn [grow]. unfold GetBlockPageId. rewrite Hlisted. cbn [default from_option id].
    rewrite Hpage. cbn [mbind option_bind].
    destruct (Insert_loop_spec b key value (BLOCK_ARRAY_SIZE - hash_fn_ key mod BLOCK_ARRAY_SIZE)
                (hash_fn_ key mod BLOCK_ARRAY_SIZE) Hwf eq_refl)
      as [Hrej|(i & b' & Hi & Hfree & Hpassed & _)].
    + rewrite Hrej. cbn [mbind option_bind]. eexists. do 2 f_equal.
      rewrite insert_id by done. by destruct t.
    + exfalso. fold (offset_of key) in Hi, Hpassed.
      destruct (decide (i < j)) as [Hlt|Hge].
      * rewrite Hocc in Hfree; [done|lia].
      * destruct (decide (i = j)) as [->|Hne].
        -- rewrite (Hro j Hj Hrj) in Hfree. done.
        -- destruct (Hpassed j) as [_ Hno]; [lia|]. by apply Hno.
  - assert (Hbk : has_bucket t key bucket_id b).
    { split; [apply (t_size _ _ _ Hinv)|done..]. }
    rewrite (GetValue_has_bucket t key bucket_id b [] Hbk). cbn [app].
    assert (Hin : value ∈ matching_values b key (offset_of key)).
    { apply elem_of_matching_values. exists j. split; [lia|done]. }
    assert (Hrtn : (if matching_values b key (offset_of key) is [] then false else true)
                   = true).
    { destruct (matching_values b key (offset_of key)); [|done].
      by apply elem_of_nil in Hin. }
    rewrite Hrtn. eexists _, _. split; [done|].
    unfold LPHT.matching_values.
    apply (count_value_one _ value _ _ j); [lia|by apply slot_value_holds|].
    intros j' Hj' Hsv. apply slot_value_holds in Hsv as (Hrj' & k' & Hkv' & Hk').
    apply comparator_spec in Hk'. subst k'.
    apply (Huniq j' j (key, value)); (done || lia).
Qed.

(** *** What a table stores *)

Local Abbreviation stored := (LPHT.stored BLOCK_ARRAY_SIZE comparator_ hash_fn_).
Local Abbreviation region_full := (LPHT.region_full (V:=V) BLOCK_ARRAY_SIZE hash_fn_).
Local Abbreviation ids_below := (LPHT.ids_below (K:=K) (V:=V)).

Lemma holds_entry (b : BlockPage) j key value :
  holds b j key value ↔
  IsReadable b j = true ∧ Block.array_ b !! j = Some (key, value).
Proof.
  unfold LPHT.holds. split.
  - intros (Hr & k & Hkv & Hk). apply comparator_spec in Hk. by subst.
  - intros (Hr & Hkv). split; [done|]. exists key. split; [done|]. by apply comparator_spec.
Qed.

Lemma holds_slot (b : BlockPage) j key value :
  Block.wf BLOCK_ARRAY_SIZE b → holds b j key value → j < BLOCK_ARRAY_SIZE.
Proof.
  intros Hwf (_ & k & Hkv & _). apply lookup_lt_Some in Hkv.
  by rewrite (Block.wf_array _ _ Hwf) in Hkv.
Qed.

(** In a block of the maintained shape, a stored pair lies in the probe
    region of its key. *)
Lemma holds_in_region (b : BlockPage) j key value :
  bucket_inv b → holds b j key value → offset_of key ≤ j < BLOCK_ARRAY_SIZE.
Proof.
  intros Hinv Hh. pose proof (holds_slot b j key value (b_wf _ _ _ Hinv) Hh) as Hj.
  apply holds_entry in Hh as [Hr Hkv].
  by destruct (b_chain _ _ _ Hinv j key value Hj Hr Hkv) as [? _].
Qed.

Lemma holds_unique (b : BlockPage) i j key value :
  bucket_inv b → holds b i key value → holds b j key value → i = j.
Proof.
  intros Hinv Hi Hj.
  pose proof (holds_slot b i key value (b_wf _ _ _ Hinv) Hi).
  pose proof (holds_slot b j key value (b_wf _ _ _ Hinv) Hj).
  apply holds_entry in Hi as [Hri Hki]. apply holds_entry in Hj as [Hrj Hkj].
  by apply (b_unique _ _ _ Hinv i j (key, value)).
Qed.

Lemma NoDup_omap_seq (f : nat → option V) n : ∀ o,
  (∀ i j v, f i = Some v → f j = Some v → i = j) →
  NoDup (omap f (seq o n)).
Proof.
  induction n as [|n IH]; intros o Hinj; [apply NoDup_nil_2|].
  cbn [seq]. change (omap f (o :: seq (S o) n))
    with (match f o with Some y => y :: omap f (seq (S o) n) | None => omap f (seq (S o) n) end).
  destruct (f o) as [y|] eqn:Hfo; [|by apply IH].
  apply NoDup_cons. split; [|by apply IH].
  intros (j & Hj & Hfj)%list_elem_of_omap. apply elem_of_seq in Hj.
  specialize (Hinj _ _ _ Hfo Hfj). lia.
Qed.

(** The block that [hash(key)] selects, in a state of the table. *)
Lemma reachable_bucket (t : HashTable) key bucket_id :
  table_inv t →
  block_page_ids_ (header t) !! (hash_fn_ key mod size_ (header t)) = Some bucket_id →
  ∃ b, has_bucket t key bucket_id b ∧ bucket_inv b.
Proof.
  intros Hinv Hl. destruct (t_blocks _ _ _ Hinv _ _ Hl) as (Hvalid & b & Hb & Hinvb).
  exists b. split; [|done]. split; [apply (t_size _ _ _ Hinv)|done|done|done|apply Hinvb].
Qed.

Lemma stored_iff (t : HashTable) key value bucket_id b :
  has_bucket t key bucket_id b →
  stored t key value ↔ ∃ j, holds b j key value.
Proof.
  intros [Hsize Hl Hvalid Hb Hwf]. split.
  - intros (bid & b' & j & Hl' & Hb' & _ & Hh). simplify_eq. eauto.
  - intros (j & Hh). exists bucket_id, b, j. split; [done|]. split; [done|].
    split; [by eapply holds_slot|done].
Qed.

Lemma not_stored_unlisted (t : HashTable) key value :
  block_page_ids_ (header t) !! (hash_fn_ key mod size_ (header t)) = None →
  ¬ stored t key value.
Proof. intros Hl (bid & b & j & Hl' & _). congruence. Qed.

(** X1.  In every state of the table, [GetValue(key)] runs to completion
    and reports exactly the values stored under [key], each of them once;
    it returns [true] exactly when it reports a value. *)
Theorem GetValue_reports_stored (t : HashTable) key :
  reachable t →
  ∃ res rtn tr,
    GetValue t key [] = Some (res, rtn, tr) ∧
    (∀ v, v ∈ res ↔ stored t key v) ∧
    NoDup res ∧
    (rtn = true ↔ res ≠ []).
Proof.
  intros Hreach. pose proof (reachable_inv t Hreach) as Hinv.
  destruct (block_page_ids_ (header t) !! (hash_fn_ key mod size_ (header t)))
    as [bid|] eqn:Hl.
  - destruct (reachable_bucket t key bid Hinv Hl) as (b & Hb & Hinvb).
    rewrite (GetValue_has_bucket t key bid b [] Hb). cbn [app].
    eexists _, _, _. split; [done|]. split; [|split].
    + intros v. rewrite elem_of_matching_values, (stored_iff t key v bid b Hb). split.
      * intros (j & _ & Hh). eauto.
      * intros (j & Hh). exists j. split; [by eapply holds_in_region|done].
    + apply NoDup_omap_seq. intros i j v Hi%slot_value_holds Hj%slot_value_holds.
      by eapply holds_unique.
    + by destruct (matching_values b key (offset_of key)).
  - unfold LPHT.GetValue, GetSize_header, GetBlockPageId.
    rewrite bool_decide_eq_false_2 by apply (t_size _ _ _ Hinv).
    rewrite Hl. cbn [default from_option id].
    rewrite bool_decide_eq_false_2 by (by intros ?).
    eexists _, _, _. split; [done|]. split; [|split].
    + intros v. split; [by intros ?%elem_of_nil|]. intros Hs.
      by apply not_stored_unlisted in Hs.
    + apply NoDup_nil_2.
    + done.
Qed.

(** X2.  In every state of the table, [Remove(key, value)] runs to
    completion, returns [true] exactly when the pair is stored, leaves the
    header as it is, and afterwards the table stores what it stored before
    except that pair. *)
Theorem Remove_deletes_the_pair (t : HashTable) key value :
  reachable t →
  ∃ t' r tr,
    Remove t key value = Some (t', r, tr) ∧
    (r = true ↔ stored t key value) ∧
    header t' = header t ∧
    ∀ k' v', stored t' k' v' ↔ stored t k' v' ∧ ¬ (k' = key ∧ v' = value).
Proof.
  intros Hreach. pose proof (reachable_inv t Hreach) as Hinv.
  destruct (block_page_ids_ (header t) !! (hash_fn_ key mod size_ (header t)))
    as [bid|] eqn:Hl.
  - destruct (reachable_bucket t key bid Hinv Hl) as (b & Hb & Hinvb).
    pose proof Hb as [Hsize _ Hvalid Hpage Hwf].
    assert (Hpre : Remove t key value =
      '(bucket', offset') ← Remove_loop BLOCK_ARRAY_SIZE comparator_
                              (BLOCK_ARRAY_SIZE - offset_of key) (offset_of key) b key value;
      Some (LPHT.Build (header_page_id_ t) (header t) (<[bid := bucket']> (blocks t))
              (next_page_id_ t),
            bool_decide (offset' < BLOCK_ARRAY_SIZE),
            [FetchPage (header_page_id_ t); FetchPage bid;
             UnpinPage bid true; UnpinPage (header_page_id_ t) false])).
    { unfold LPHT.Remove, GetSize_header, GetBlockPageId.
      rewrite bool_decide_eq_false_2 by done. rewrite Hl. cbn [default from_option id].
      rewrite bool_decide_eq_false_2 by done. rewrite Hpage. done. }
    rewrite Hpre. clear Hpre.
    destruct (Remove_loop_cases b key value Hwf)
      as [(i & Hi & Hh & Hrun)|(Hnone & o' & Ho' & Hrun)]; rewrite Hrun;
      cbn [mbind option_bind].
    + (* the pair is stored: its slot becomes a tombstone *)
      rewrite bool_decide_eq_true_2 by lia.
      eexists _, _, _. split; [done|]. split.
      { split; [|done]. intros _. apply (stored_iff t key value bid b Hb). eauto. }
      split; [done|]. intros k' v'.
      destruct (BlockProps.Remove_effect BLOCK_ARRAY_SIZE b i Hwf) as (Hwf' & Hocc & Harr & Hrd).
      assert (Hslot : ∀ s, holds (Block.Remove BLOCK_ARRAY_SIZE b i) s k' v' ↔
                           s ≠ i ∧ holds b s k' v').
      { intros s. unfold LPHT.holds. rewrite Hrd, Harr, andb_true_iff, negb_true_iff,
          bool_decide_eq_false. tauto. }
      unfold LPHT.stored. simpl. split.
      * intros (bid' & b' & s & Hl' & Hb' & Hs & Hh').
        destruct (decide (bid' = bid)) as [->|Hne].
        -- rewrite lookup_insert_eq in Hb'. simplify_eq.
           apply Hslot in Hh' as [Hsi Hh']. split; [by exists bid, b, s|].
           intros [-> ->]. apply Hsi. by eapply holds_unique.
        -- rewrite lookup_insert_ne in Hb' by done. split; [by exists bid', b', s|].
           intros [-> ->]. congruence.
      * intros [(bid' & b' & s & Hl' & Hb' & Hs & Hh') Hne].
        destruct (decide (bid' = bid)) as [->|Hnb].
        -- exists bid, (Block.Remove BLOCK_ARRAY_SIZE b i), s. split; [done|].
           rewrite lookup_insert_eq. split; [done|]. split; [done|]. simplify_eq.
           apply Hslot. split; [|done]. intros ->. apply Hne.
           apply holds_entry in Hh as [_ Hkv]. apply holds_entry in Hh' as [_ Hkv'].
           by simplify_eq.
        -- exists bid', b', s. by rewrite lookup_insert_ne.
    + (* the pair is not stored: nothing changes *)
      rewrite bool_decide_eq_false_2 by done. rewrite insert_id by done.
      assert (Hns : ¬ stored t key value).
      { rewrite (stored_iff t key value bid b Hb). intros (j & Hj).
        apply (Hnone j); [|done]. by eapply holds_in_region. }
      eexists _, _, _. split; [done|]. split; [done|]. split; [done|].
      intros k' v'. unfold LPHT.stored at 1. simpl. fold (stored t k' v').
      split; [|by intros [? _]]. intros Hs. split; [done|]. by intros [-> ->].
  - (* no block page for the key: the early return *)
    assert (Hns : ∀ v, ¬ stored t key v) by (intros v; by apply not_stored_unlisted).
    unfold LPHT.Remove, GetSize_header, GetBlockPageId.
    rewrite bool_decide_eq_false_2 by apply (t_size _ _ _ Hinv).
    rewrite Hl. cbn [default from_option id]. rewrite bool_decide_eq_true_2 by done.
    eexists _, _, _. split; [done|]. split; [split; [done|by intros ?%Hns]|].
    split; [done|]. intros k' v'. split; [|by intros [? _]].
    intros Hs. split; [done|]. intros [-> ->]. by apply Hns in Hs.
Qed.

(** *** Insertion and what the table stores *)

(** Growing the header leaves the listed blocks alone and registers empty
    ones behind them. *)
Lemma grow_blocks n : ∀ (t t1 : HashTable) tr tr1,
  grow BLOCK_ARRAY_SIZE zero_entry n t tr = (t1, tr1) → ids_below t →
  ids_below t1 ∧
  size_ (header t1) = size_ (header t) ∧
  header_page_id_ t1 = header_page_id_ t ∧
  (∀ idx bid, block_page_ids_ (header t) !! idx = Some bid →
     block_page_ids_ (header t1) !! idx = Some bid ∧ blocks t1 !! bid = blocks t !! bid) ∧
  (∀ idx bid, NumBlocks (header t) ≤ idx →
     block_page_ids_ (header t1) !! idx = Some bid →
     blocks t1 !! bid = Some (Block.empty BLOCK_ARRAY_SIZE zero_entry)).
Proof.
  induction n as [|n IH]; intros t t1 tr tr1 Hg Hbelow.
  - simpl in Hg. simplify_eq. split; [done|]. split; [done|]. split; [done|].
    split; [done|]. intros idx bid Hidx Hl. apply lookup_lt_Some in Hl.
    unfold NumBlocks in Hidx. lia.
  - cbn [grow] in Hg. apply IH in Hg as (Hbelow1 & Hsize & Hhid & Hold & Hnew).
    2:{ intros idx bid. simpl. intros [Hl|[_ Hl]]%lookup_app_Some.
        - specialize (Hbelow idx bid Hl). lia.
        - apply list_lookup_singleton_Some in Hl as [_ <-]. lia. }
    simpl in Hsize, Hhid, Hold, Hnew.
    split; [done|]. split; [done|]. split; [done|]. split.
    + intros idx bid Hl. destruct (Hold idx bid) as [Hl1 Hb1].
      { by apply lookup_app_l_Some. }
      split; [done|]. rewrite Hb1. apply lookup_insert_ne.
      specialize (Hbelow idx bid Hl). lia.
    + intros idx bid Hidx Hl. unfold NumBlocks in *. simpl in Hnew.
      destruct (decide (idx = length (block_page_ids_ (header t)))) as [->|Hne].
      * destruct (Hold (length (block_page_ids_ (header t))) (next_page_id_ t)) as [Hl1 Hb1].
        { rewrite lookup_app_r by lia. by rewrite Nat.sub_diag. }
        rewrite Hl in Hl1. simplify_eq. rewrite Hb1. apply lookup_insert_eq.
      * apply (Hnew idx bid); [|done]. rewrite length_app. simpl. lia.
Qed.

Lemma Insert_ids_below (t t' : HashTable) key value r tr :
  Insert t key value = Some (t', r, tr) → ids_below t → ids_below t'.
Proof.
  unfold LPHT.Insert. intros Hins Hbelow. case_bool_decide; [done|].
  destruct (grow _ _ _ _ _) as [t1 tr1] eqn:Hg.
  apply grow_blocks in Hg as (Hbelow1 & _); [|done].
  destruct (blocks t1 !! _); [|done]. cbn [mbind option_bind] in Hins.
  destruct (Insert_loop _ _ _ _ _ _ _) as [[??]|]; [|done].
  cbn [mbind option_bind] in Hins. by simplify_eq.
Qed.

Lemma Remove_ids_below (t t' : HashTable) key value r tr :
  Remove t key value = Some (t', r, tr) → ids_below t → ids_below t'.
Proof.
  unfold LPHT.Remove. intros Hrm Hbelow. case_bool_decide; [done|].
  case_bool_decide; [by simplify_eq|].
  destruct (blocks t !! _); [|done]. cbn [mbind option_bind] in Hrm.
  destruct (Remove_loop _ _ _ _ _ _ _) as [[??]|]; [|done].
  cbn [mbind option_bind] in Hrm. by simplify_eq.
Qed.

Lemma reachable_ids_below (t : HashTable) : reachable t → ids_below t.
Proof.
  induction 1 as [n p Hn Hp|t key value t' r tr _ IH Hins|t key value t' r tr _ IH Hrm].
  - intros idx bid Hl. done.
  - by eapply Insert_ids_below.
  - by eapply Remove_ids_below.
Qed.

(** The probing loop of [Insert] gives up only on a slot that holds the
    pair or at the end of a region without a free slot. *)
Lemma Insert_loop_rejected (bucket bucket' : BlockPage) key value n : ∀ iter,
  wf bucket → n = BLOCK_ARRAY_SIZE - iter →
  Insert_loop BLOCK_ARRAY_SIZE comparator_ n iter bucket key value = Some (bucket', false) →
  bucket' = bucket ∧
  ((∃ i, iter ≤ i < BLOCK_ARRAY_SIZE ∧ holds bucket i key value) ∨
   ∀ j, iter ≤ j < BLOCK_ARRAY_SIZE → IsOccupied bucket j = true).
Proof.
  induction n as [|n IH]; intros iter Hwf Hn Hrun.
  - simpl in Hrun. simplify_eq. split; [done|]. right. intros j Hj. lia.
  - assert (Hi : iter < BLOCK_ARRAY_SIZE) by lia.
    cbn [Insert_loop] in Hrun. destruct (IsOccupied bucket iter) eqn:Hocc.
    + rewrite BlockProps.Insert_occupied in Hrun by done. cbn [mbind option_bind] in Hrun.
      destruct (pair_matches_spec bucket iter key value Hwf Hi) as (m & Hm & Hiff).
      rewrite Hm in Hrun. cbn [mbind option_bind] in Hrun. destruct m.
      * simplify_eq. split; [done|]. left. exists iter. split; [lia|]. by apply Hiff.
      * apply IH in Hrun as [-> Hcases]; [|done|lia]. split; [done|].
        destruct Hcases as [(i & Hi' & Hh)|Hfull].
        -- left. exists i. split; [lia|done].
        -- right. intros j Hj. destruct (decide (j = iter)) as [->|]; [done|].
           apply Hfull. lia.
    + destruct (BlockProps.Insert_free BLOCK_ARRAY_SIZE bucket iter key value Hwf Hi Hocc)
        as (b1 & Hins & Hwf1 & _).
      rewrite Hins in Hrun. cbn [mbind option_bind] in Hrun.
      destruct (pair_matches_spec b1 iter key value Hwf1 Hi) as (m & Hm & _).
      rewrite Hm in Hrun. cbn [mbind option_bind] in Hrun. by destruct m.
Qed.

Lemma stored_grow n (t t1 : HashTable) tr tr1 :
  grow BLOCK_ARRAY_SIZE zero_entry n t tr = (t1, tr1) → ids_below t →
  ∀ k' v', stored t1 k' v' ↔ stored t k' v'.
Proof.
  intros Hg Hbelow k' v'.
  destruct (grow_blocks _ _ _ _ _ Hg Hbelow) as (_ & Hsize & _ & Hold & Hnew).
  unfold LPHT.stored. rewrite Hsize. split.
  - intros (bid' & b0 & j & Hl' & Hb' & Hj & Hh).
    destruct (block_page_ids_ (header t) !! (hash_fn_ k' mod size_ (header t)))
      as [bid0|] eqn:Hl0.
    + destruct (Hold _ bid0 Hl0) as [Hl1 Hb1]. exists bid0, b0, j.
      split; [done|]. split; [|done]. rewrite <- Hb1. congruence.
    + apply lookup_ge_None in Hl0. rewrite (Hnew _ bid' Hl0 Hl') in Hb'.
      simplify_eq. destruct Hh as [Hr _].
      unfold Block.IsReadable in Hr. simpl in Hr.
      by rewrite BlockProps.test_bit_zero in Hr.
  - intros (bid' & b0 & j & Hl' & Hb' & Hj & Hh).
    destruct (Hold _ bid' Hl') as [Hl1 Hb1]. exists bid', b0, j.
    split; [done|]. split; [congruence|done].
Qed.

(** What [Insert] does in a state of the table: it grows the header up to
    the block of the key, then probes that block. *)
Lemma Insert_run (t : HashTable) key value :
  reachable t →
  ∃ t1 tr1 bid b b' r,
    has_bucket t1 key bid b ∧ bucket_inv b ∧
    size_ (header t1) = size_ (header t) ∧
    (∀ k' v', stored t1 k' v' ↔ stored t k' v') ∧
    (block_page_ids_ (header t) !! (hash_fn_ key mod size_ (header t)) = None →
     b = Block.empty BLOCK_ARRAY_SIZE zero_entry) ∧
    (∀ bid0, block_page_ids_ (header t) !! (hash_fn_ key mod size_ (header t)) = Some bid0 →
     bid0 = bid ∧ blocks t !! bid = Some b) ∧
    Insert_loop BLOCK_ARRAY_SIZE comparator_ (BLOCK_ARRAY_SIZE - offset_of key)
      (offset_of key) b key value = Some (b', r) ∧
    Insert t key value =
      Some (LPHT.Build (header_page_id_ t1) (header t1) (<[bid := b']> (blocks t1))
              (next_page_id_ t1), r, tr1).
Proof.
  intros Hreach. pose proof (reachable_inv t Hreach) as Hinv.
  pose proof (reachable_ids_below t Hreach) as Hbelow.
  unfold LPHT.Insert, GetSize_header.
  rewrite bool_decide_eq_false_2 by apply (t_size _ _ _ Hinv).
  set (idx := hash_fn_ key mod size_ (header t)).
  destruct (grow _ _ _ _ _) as [t1 tr1] eqn:Hg.
  destruct (grow_spec _ _ _ _ _ Hg Hinv) as [Hinv1 Hnum].
  destruct (grow_blocks _ _ _ _ _ Hg Hbelow) as (Hbelow1 & Hsize & Hhid & Hold & Hnew).
  pose proof (stored_grow _ _ _ _ _ Hg Hbelow) as Hst.
  destruct (lookup_lt_is_Some_2 (block_page_ids_ (header t1)) idx) as [bid Hbid].
  { unfold NumBlocks in Hnum. lia. }
  assert (Hbid' : block_page_ids_ (header t1) !! (hash_fn_ key mod size_ (header t1))
                  = Some bid) by (by rewrite Hsize).
  destruct (reachable_bucket t1 key bid Hinv1 Hbid') as (b & Hb & Hinvb).
  pose proof Hb as [_ _ _ Hpage Hwf].
  unfold GetBlockPageId. rewrite Hbid. cbn [default from_option id].
  rewrite Hpage. cbn [mbind option_bind]. fold (offset_of key).
  assert (Hrun : ∃ b' r,
    Insert_loop BLOCK_ARRAY_SIZE comparator_ (BLOCK_ARRAY_SIZE - offset_of key)
      (offset_of key) b key value = Some (b', r)).
  { destruct (Insert_loop_spec b key value (BLOCK_ARRAY_SIZE - offset_of key)
                (offset_of key) Hwf eq_refl) as [Hrun|(i & b' & _ & _ & _ & _ & Hrun)];
      eauto. }
  destruct Hrun as (b' & r & Hrun). rewrite Hrun. cbn [mbind option_bind].
  exists t1, (tr1 ++ [FetchPage bid; UnpinPage bid true; UnpinPage (header_page_id_ t) true]),
    bid, b, b', r.
  split; [done|]. split; [done|]. split; [done|]. split; [done|]. split.
  { intros Hnone. apply lookup_ge_None in Hnone.
    specialize (Hnew idx bid Hnone Hbid). congruence. }
  split; [|done].
  intros bid0 Hl0. destruct (Hold idx bid0 Hl0) as [Hl1 Hb1].
  assert (bid0 = bid) as -> by congruence.
  split; [done|]. by rewrite <- Hb1.
Qed.

(** The slots of a block after [Insert] has filled a free one. *)
Lemma holds_after_Insert (b b' : BlockPage) i key value j k' v' :
  bucket_inv b → i < BLOCK_ARRAY_SIZE → IsOccupied b i = false →
  Block.Insert BLOCK_ARRAY_SIZE b i key value = Some (b', true) →
  holds b' j k' v' ↔ (j = i ∧ k' = key ∧ v' = value) ∨ holds b j k' v'.
Proof.
  intros Hinv Hi Hfree Hins.
  destruct (BlockProps.Insert_free BLOCK_ARRAY_SIZE b i key value (b_wf _ _ _ Hinv) Hi Hfree)
    as (b1 & Hins1 & Hwf' & _ & Hr & Harr).
  rewrite Hins1 in Hins. simplify_eq.
  assert (Hnr : IsReadable b i = false).
  { destruct (IsReadable b i) eqn:Hri; [|done].
    rewrite (b_readable _ _ _ Hinv i Hi Hri) in Hfree. done. }
  rewrite !holds_entry, Hr, Harr. destruct (decide (j = i)) as [->|Hne].
  - rewrite bool_decide_eq_true_2 by done.
    rewrite list_lookup_insert_eq by (by rewrite (Block.wf_array _ _ (b_wf _ _ _ Hinv))).
    rewrite Hnr. split.
    + intros [_ [= -> ->]]. by left.
    + intros [(_ & -> & ->)|[? _]]; done.
  - rewrite bool_decide_eq_false_2 by done. rewrite list_lookup_insert_ne by done.
    simpl. split; [by right|]. by intros [(? & _)|?].
Qed.

(** X3.  In every state of the table, [Insert(key, value)] runs to
    completion; when it returns [true] the table stores the pair in addition
    to what it stored, and when it returns [false] it stores what it stored
    before. *)
Theorem Insert_adds_the_pair (t : HashTable) key value :
  reachable t →
  ∃ t' r tr,
    Insert t key value = Some (t', r, tr) ∧
    ∀ k' v', stored t' k' v' ↔ stored t k' v' ∨ (r = true ∧ k' = key ∧ v' = value).
Proof.
  intros Hreach.
  destruct (Insert_run t key value Hreach)
    as (t1 & tr1 & bid & b & b' & r & Hb & Hinvb & Hsize & Hst & _ & _ & Hloop & Hins).
  pose proof Hb as [_ Hl _ Hpage Hwf].
  eexists _, r, tr1. split; [exact Hins|]. intros k' v'. rewrite <- Hst.
  destruct (Insert_loop_spec b key value (BLOCK_ARRAY_SIZE - offset_of key)
              (offset_of key) Hwf eq_refl) as [Hrej|(i & b1 & Hi & Hfree & _ & Hblk & Hrun)].
  - rewrite Hrej in Hloop. simplify_eq. rewrite insert_id by done.
    unfold LPHT.stored at 1. simpl. fold (stored t1 k' v').
    split; [by left|]. by intros [?|[? _]].
  - rewrite Hrun in Hloop. simplify_eq. unfold LPHT.stored. simpl. split.
    + intros (bid' & b0 & j & Hl' & Hb' & Hj & Hh).
      destruct (decide (bid' = bid)) as [->|Hne].
      * rewrite lookup_insert_eq in Hb'. simplify_eq.
        apply (holds_after_Insert b b0 i key value j k' v') in Hh; [|done|lia|done|done].
        destruct Hh as [(_ & -> & ->)|Hh]; [by right|]. left. by exists bid, b, j.
      * rewrite lookup_insert_ne in Hb' by done. left. by exists bid', b0, j.
    + intros [(bid' & b0 & j & Hl' & Hb' & Hj & Hh)|(_ & -> & ->)].
      * destruct (decide (bid' = bid)) as [->|Hne].
        -- exists bid, b', j. split; [done|]. rewrite lookup_insert_eq. split; [done|].
           split; [done|]. simplify_eq.
           apply (holds_after_Insert b b' i key value j k' v'); [done|lia|done|done|].
           by right.
        -- exists bid', b0, j. by rewrite lookup_insert_ne.
      * exists bid, b', i. split; [done|]. rewrite lookup_insert_eq. split; [done|].
        split; [lia|].
        apply (holds_after_Insert b b' i key value i key value); [done|lia|done|done|].
        by left.
Qed.

(** X4.  In every state of a table with at least one slot per block,
    [Insert(key, value)] returns [false] exactly when the pair is already
    stored or the probe region of the key, from its offset to the end of its
    block, has no free slot: the probe neither wraps around nor moves to
    another block, and tombstones count as taken. *)
Theorem Insert_fails_iff (t t' : HashTable) key value r tr :
  0 < BLOCK_ARRAY_SIZE → reachable t →
  Insert t key value = Some (t', r, tr) →
  r = false ↔ stored t key value ∨ region_full t key.
Proof.
  intros Hslots Hreach Hret.
  destruct (Insert_run t key value Hreach)
    as (t1 & tr1 & bid & b & b' & r' & Hb & Hinvb & Hsize & Hst & Hfresh & Hlisted
        & Hloop & Hins).
  rewrite Hins in Hret. simplify_eq.
  pose proof Hb as [_ Hl _ Hpage Hwf].
  assert (Hoff : offset_of key < BLOCK_ARRAY_SIZE).
  { apply Nat.mod_upper_bound. lia. }
  assert (Hfull : region_full t key ↔
            ∀ j, offset_of key ≤ j < BLOCK_ARRAY_SIZE → IsOccupied b j = true).
  { unfold LPHT.region_full. split.
    - intros (bid0 & b0 & Hl0 & Hb0 & Hall). destruct (Hlisted bid0 Hl0) as [-> Hb1].
      by simplify_eq.
    - intros Hall.
      destruct (block_page_ids_ (header t) !! (hash_fn_ key mod size_ (header t)))
        as [bid0|] eqn:Hl0.
      + destruct (Hlisted bid0 eq_refl) as [-> Hb1]. by exists bid, b.
      + rewrite (Hfresh eq_refl) in Hall. specialize (Hall (offset_of key)).
        unfold Block.IsOccupied in Hall. simpl in Hall.
        rewrite BlockProps.test_bit_zero in Hall. by lapply Hall; [|lia]. }
  rewrite Hfull, <- Hst, (stored_iff t1 key value bid b Hb).
  destruct r.
  - split; [done|]. intros Hcase. exfalso.
    destruct (Insert_loop_spec b key value (BLOCK_ARRAY_SIZE - offset_of key)
                (offset_of key) Hwf eq_refl) as [Hrej|(i & b1 & Hi & Hfree & Hpassed & _)].
    { congruence. }
    destruct Hcase as [(j & Hh)|Hall].
    + pose proof (holds_in_region b j key value Hinvb Hh) as Hj.
      pose proof Hh as [Hrj Hkv]%holds_entry.
      destruct (b_chain _ _ _ Hinvb j key value) as [_ Hocc]; [lia|done|done|].
      destruct (decide (i < j)) as [Hlt|Hge].
      * rewrite Hocc in Hfree; [done|]. fold (offset_of key). lia.
      * destruct (decide (i = j)) as [->|Hne].
        -- rewrite (b_readable _ _ _ Hinvb j) in Hfree; [done|lia|done].
        -- destruct (Hpassed j) as [_ Hno]; [lia|]. by apply Hno.
    + rewrite Hall in Hfree; [done|lia].
  - split; [|done]. intros _.
    apply Insert_loop_rejected in Hloop as [_ [(i & Hi & Hh)|Hall]]; [| |done|done].
    + left. eauto.
    + by right.
Qed.

(** X5.  [Insert(key, value)] creates block pages lazily: in every state
    of the table it registers exactly the block pages missing up to the
    group of the key, behind the ones already listed, so that [GetSize]
    afterwards is the larger of its old value and the key's group index plus
    one; the number of buckets and the header page stay the same, and the
    key has a block page from then on. *)
Theorem Insert_creates_missing_blocks (t t' : HashTable) key value r tr :
  reachable t → Insert t key value = Some (t', r, tr) →
  (GetSize t').1 = (GetSize t).1 `max` (hash_fn_ key mod size_ (header t) + 1) ∧
  size_ (header t') = size_ (header t) ∧
  header_page_id_ t' = header_page_id_ t ∧
  (∀ idx bid, block_page_ids_ (header t) !! idx = Some bid →
              block_page_ids_ (header t') !! idx = Some bid) ∧
  ∃ bid b, has_bucket t' key bid b.
Proof.
  intros Hreach Hins.
  assert (Hreach' : reachable t') by (by eapply reach_Insert).
  pose proof (reachable_inv t Hreach) as Hinv.
  pose proof (reachable_inv t' Hreach') as Hinv'.
  pose proof (reachable_ids_below t Hreach) as Hbelow.
  assert (Hhdr : NumBlocks (header t') =
                 NumBlocks (header t) + (hash_fn_ key mod size_ (header t) + 1
                                         - NumBlocks (header t)) ∧
                 size_ (header t') = size_ (header t) ∧
                 header_page_id_ t' = header_page_id_ t ∧
                 ∀ idx bid, block_page_ids_ (header t) !! idx = Some bid →
                            block_page_ids_ (header t') !! idx = Some bid).
  { revert Hins. unfold LPHT.Insert, GetSize_header. case_bool_decide; [done|].
    destruct (grow _ _ _ _ _) as [t1 tr1] eqn:Hg.
    destruct (grow_spec _ _ _ _ _ Hg Hinv) as [_ Hnum].
    destruct (grow_blocks _ _ _ _ _ Hg Hbelow) as (_ & Hsize & Hhid & Hold & _).
    destruct (blocks t1 !! _); [|done]. cbn [mbind option_bind].
    destruct (Insert_loop _ _ _ _ _ _ _) as [[??]|]; [|done].
    cbn [mbind option_bind]. intros ?. simplify_eq/=.
    split; [done|]. split; [done|]. split; [done|].
    intros idx bid Hl. by destruct (Hold idx bid Hl). }
  destruct Hhdr as (Hnum & Hsize & Hhid & Hprefix).
  split; [simpl; lia|]. split; [done|]. split; [done|]. split; [done|].
  destruct (lookup_lt_is_Some_2 (block_page_ids_ (header t'))
              (hash_fn_ key mod size_ (header t'))) as [bid Hbid].
  { rewrite Hsize. unfold NumBlocks in Hnum. lia. }
  destruct (reachable_bucket t' key bid Hinv' Hbid) as (b & Hb & _). eauto.
Qed.

End Invariants.

(** *** Pins taken and released *)

Lemma count_app f tr1 tr2 : count f (tr1 ++ tr2) = count f tr1 + count f tr2.
Proof. induction tr1 as [|c tr1 IH]; simpl; [done|]. rewrite IH. lia. Qed.

Lemma balanced_app tr1 tr2 : balanced tr1 → balanced tr2 → balanced (tr1 ++ tr2).
Proof.
  intros H1 H2 p. unfold pins_taken, pins_released. rewrite !count_app.
  specialize (H1 p). specialize (H2 p). unfold pins_taken, pins_released in *. lia.
Qed.

(** A page fetched and then unpinned inside another such pair. *)
Lemma balanced_nested h b d1 d2 :
  balanced [FetchPage h; FetchPage b; UnpinPage b d1; UnpinPage h d2].
Proof.
  intros p. unfold pins_taken, pins_released. simpl.
  repeat case_bool_decide; lia.
Qed.

Lemma grow_trace n : ∀ (t : HashTable) tr,
  ∃ tr_new, (grow BLOCK_ARRAY_SIZE zero_entry n t tr).2 = tr ++ tr_new ∧ balanced tr_new.
Proof.
  induction n as [|n IH]; intros t tr.
  - exists []. simpl. split; [by rewrite app_nil_r|done].
  - cbn [grow]. edestruct IH as (tr_new & -> & Hbal).
    eexists. rewrite <- app_assoc. split; [done|].
    apply balanced_app; [|done].
    intros p. unfold pins_taken, pins_released. simpl. case_bool_decide; lia.
Qed.

Lemma GetValue_balanced (t : HashTable) key result res rtn tr :
  GetValue t key result = Some (res, rtn, tr) → balanced tr.
Proof.
  unfold LPHT.GetValue. intros H.
  case_bool_decide; [done|]. case_bool_decide.
  - destruct (blocks t !! _); [|done]. cbn [mbind option_bind] in H.
    destruct (GetValue_loop _ _ _ _ _ _ _ _) as [[??]|]; [|done].
    cbn [mbind option_bind] in H. simplify_eq. apply balanced_nested.
  - simplify_eq. intros p. unfold pins_taken, pins_released. simpl.
    case_bool_decide; lia.
Qed.

Lemma GetSize_balanced (t : HashTable) : balanced (GetSize t).2.
Proof. intros p. unfold pins_taken, pins_released. simpl. case_bool_decide; lia. Qed.

Lemma Insert_balanced (t t' : HashTable) key value r tr :
  Insert t key value = Some (t', r, tr) → balanced tr.
Proof.
  unfold LPHT.Insert. intros H. case_bool_decide; [done|].
  destruct (grow_trace (hash_fn_ key mod GetSize_header (header t) + 1 - NumBlocks (header t))
              t [FetchPage (header_page_id_ t)]) as (tr_new & Htr & Hbal).
  destruct (grow _ _ _ _ _) as [t1 tr1]. simpl in Htr. subst tr1.
  destruct (blocks t1 !! _); [|done]. cbn [mbind option_bind] in H.
  destruct (Insert_loop _ _ _ _ _ _ _) as [[??]|]; [|done].
  cbn [mbind option_bind] in H. simplify_eq.
  intros p. specialize (Hbal p). unfold pins_taken, pins_released in *.
  rewrite !count_app. simpl. repeat case_bool_decide; lia.
Qed.

(** [Remove] pairs its calls when the header lists a block for the key... *)
Lemma Remove_balanced (t t' : HashTable) key value r tr :
  GetBlockPageId (header t) (hash_fn_ key mod size_ (header t)) ≠ BPM.INVALID_PAGE_ID →
  Remove t key value = Some (t', r, tr) → balanced tr.
Proof.
  unfold LPHT.Remove, GetSize_header. intros Hbid H. case_bool_decide; [done|].
  rewrite bool_decide_eq_false_2 in H by done.
  destruct (blocks t !! _); [|done]. cbn [mbind option_bind] in H.
  destruct (Remove_loop _ _ _ _ _ _ _) as [[??]|]; [|done].
  cbn [mbind option_bind] in H. simplify_eq. apply balanced_nested.
Qed.

(** ... and returns early, with the header page and the page it asked for
    still pinned, when it does not. *)
Lemma Remove_without_bucket (t : HashTable) key value :
  size_ (header t) ≠ 0 →
  GetBlockPageId (header t) (hash_fn_ key mod size_ (header t)) = BPM.INVALID_PAGE_ID →
  Remove t key value =
    Some (t, false, [FetchPage (header_page_id_ t); FetchPage BPM.INVALID_PAGE_ID]) ∧
  pins_released (header_page_id_ t)
    [FetchPage (header_page_id_ t); FetchPage BPM.INVALID_PAGE_ID] = 0 ∧
  1 ≤ pins_taken (header_page_id_ t)
    [FetchPage (header_page_id_ t); FetchPage BPM.INVALID_PAGE_ID].
Proof.
  intros Hsize Hbid. unfold LPHT.Remove, GetSize_header.
  rewrite bool_decide_eq_false_2 by done. rewrite Hbid.
  rewrite bool_decide_eq_true_2 by done. split; [done|].
  unfold pins_taken, pins_released. simpl.
  rewrite bool_decide_eq_true_2 by done. split; lia.
Qed.

(** X6.  Apart from the early return of [Remove], every operation of the
    table releases the pins it takes: the calls of the constructor, of
    [GetSize], of [GetValue] and of [Insert] pair every [FetchPage] and
    [NewPage] with one [UnpinPage] of the same page, whatever the table holds,
    and so do the calls of [Remove] exactly when the header lists a block
    page for the key. *)
Theorem pins_are_released (t : HashTable) key value result num_buckets next_page_id :
  balanced (create (K:=K) (V:=V) num_buckets next_page_id).2 ∧
  balanced (GetSize t).2 ∧
  (∀ res rtn tr, GetValue t key result = Some (res, rtn, tr) → balanced tr) ∧
  (∀ t' r tr, Insert t key value = Some (t', r, tr) → balanced tr) ∧
  (∀ t' r tr, Remove t key value = Some (t', r, tr) →
     balanced tr ↔
     GetBlockPageId (header t) (hash_fn_ key mod size_ (header t)) ≠ BPM.INVALID_PAGE_ID).
Proof.
  split; [|split; [|split; [|split]]].
  - intros p. unfold pins_taken, pins_released. simpl. case_bool_decide; lia.
  - apply GetSize_balanced.
  - intros res rtn tr. apply GetValue_balanced.
  - intros t' r tr. apply Insert_balanced.
  - intros t' r tr Hrm. split.
    + intros Hbal Hbid. revert Hrm. unfold LPHT.Remove, GetSize_header.
      case_bool_decide as Hsize; [done|]. rewrite Hbid.
      rewrite bool_decide_eq_true_2 by done. intros [= <- <- <-].
      specialize (Hbal (header_page_id_ t)).
      unfold pins_taken, pins_released in Hbal. simpl in Hbal.
      rewrite bool_decide_eq_true_2 in Hbal by done. lia.
    + intros Hbid. by eapply Remove_balanced.
Qed.

End WithTypes.

(** In [gap_table] the probe region of key 2 starts with four free slots;
    the live entry behind them is found. *)
Lemma GetValue_scans_whole_probe_region_witness :
  LPHT.has_bucket IntTable.SLOTS IntTable.hash IntTable.gap_table 2%Z 1%Z IntTable.gap_block ∧
  ∃ tr,
    IntTable.GetValue IntTable.gap_table 2%Z [] =
      Some ([] ++ LPHT.matching_values IntTable.SLOTS IntTable.IntComparator
                    IntTable.gap_block 2%Z (LPHT.offset_of IntTable.SLOTS IntTable.hash 2%Z),
            if LPHT.matching_values IntTable.SLOTS IntTable.IntComparator
                 IntTable.gap_block 2%Z (LPHT.offset_of IntTable.SLOTS IntTable.hash 2%Z)
            is [] then false else true,
            tr) ∧
    ∀ v, v ∈ LPHT.matching_values IntTable.SLOTS IntTable.IntComparator
               IntTable.gap_block 2%Z (LPHT.offset_of IntTable.SLOTS IntTable.hash 2%Z) ↔
         ∃ j, LPHT.offset_of IntTable.SLOTS IntTable.hash 2%Z ≤ j < IntTable.SLOTS ∧
              LPHT.holds IntTable.SLOTS IntTable.IntComparator IntTable.gap_block j 2%Z v.
Proof.
  assert (Hb : LPHT.has_bucket IntTable.SLOTS IntTable.hash IntTable.gap_table
                 2%Z 1%Z IntTable.gap_block).
  { split; [vm_compute; discriminate|vm_compute; reflexivity|vm_compute; discriminate
            |vm_compute; reflexivity|split; reflexivity]. }
  split; [exact Hb|].
  exact (GetValue_scans_whole_probe_region IntTable.SLOTS IntTable.IntComparator
           IntTable.hash IntTable.gap_table 2%Z 1%Z IntTable.gap_block [] Hb).
Defined.

Example GetValue_gap_table :
  IntTable.GetValue IntTable.gap_table 2%Z [] =
  Some ([20%Z], true,
        [FetchPage 0; FetchPage 1; UnpinPage 1 false; UnpinPage 0 false]).
Proof. vm_compute. reflexivity. Qed.

Lemma IntComparator_spec a b : IntTable.IntComparator a b = 0%Z ↔ a = b.
Proof.
  unfold IntTable.IntComparator.
  destruct (Z.ltb_spec a b), (Z.ltb_spec b a); split; intros; (lia || done).
Qed.

Lemma reachable_table3 :
  LPHT.reachable IntTable.SLOTS IntTable.zero_entry IntTable.IntComparator IntTable.hash
    IntTable.table3.
Proof.
  apply (reach_Insert _ _ _ _ IntTable.table2 14%Z 140%Z IntTable.table3
           (IntTable.flag_of (IntTable.Insert IntTable.table2 14 140)%Z)
           (IntTable.trace_of (IntTable.Insert IntTable.table2 14 140)%Z));
    [|vm_compute; reflexivity].
  apply (reach_Insert _ _ _ _ IntTable.table1 9%Z 90%Z IntTable.table2
           (IntTable.flag_of (IntTable.Insert IntTable.table1 9 90)%Z)
           (IntTable.trace_of (IntTable.Insert IntTable.table1 9 90)%Z));
    [|vm_compute; reflexivity].
  apply (reach_Insert _ _ _ _ IntTable.fresh 5%Z 50%Z IntTable.table1
           (IntTable.flag_of (IntTable.Insert IntTable.fresh 5 50)%Z)
           (IntTable.trace_of (IntTable.Insert IntTable.fresh 5 50)%Z));
    [|vm_compute; reflexivity].
  apply (reach_create _ _ _ _ 2 0%Z); [discriminate|reflexivity].
Defined.

Lemma reachable_table2 :
  LPHT.reachable IntTable.SLOTS IntTable.zero_entry IntTable.IntComparator IntTable.hash
    IntTable.table2.
Proof.
  apply (reach_Insert _ _ _ _ IntTable.table1 9%Z 90%Z IntTable.table2
           (IntTable.flag_of (IntTable.Insert IntTable.table1 9 90)%Z)
           (IntTable.trace_of (IntTable.Insert IntTable.table1 9 90)%Z));
    [|vm_compute; reflexivity].
  apply (reach_Insert _ _ _ _ IntTable.fresh 5%Z 50%Z IntTable.table1
           (IntTable.flag_of (IntTable.Insert IntTable.fresh 5 50)%Z)
           (IntTable.trace_of (IntTable.Insert IntTable.fresh 5 50)%Z));
    [|vm_compute; reflexivity].
  apply (reach_create _ _ _ _ 2 0%Z); [discriminate|reflexivity].
Defined.

(** After scenario S5, [(5, 50)] is live in slot 5 of block page 2. *)
Lemma Insert_duplicate_rejected_witness :
  (∀ a b, IntTable.IntComparator a b = 0%Z ↔ a = b) ∧
  LPHT.reachable IntTable.SLOTS IntTable.zero_entry IntTable.IntComparator IntTable.hash
    IntTable.table3 ∧
  block_page_ids_ (header IntTable.table3)
    !! (IntTable.hash 5%Z mod size_ (header IntTable.table3)) = Some 2%Z ∧
  blocks IntTable.table3 !! 2%Z = Some IntTable.bucket3 ∧
  5 < IntTable.SLOTS ∧
  LPHT.holds IntTable.SLOTS IntTable.IntComparator IntTable.bucket3 5 5%Z 50%Z ∧
  (∃ tr, IntTable.Insert IntTable.table3 5%Z 50%Z = Some (IntTable.table3, false, tr)) ∧
  (∃ res tr, IntTable.GetValue IntTable.table3 5%Z [] = Some (res, true, tr) ∧
             length (filter (λ v, v = 50%Z) res) = 1).
Proof.
  assert (Hl : block_page_ids_ (header IntTable.table3)
                 !! (IntTable.hash 5%Z mod size_ (header IntTable.table3)) = Some 2%Z)
    by (vm_compute; reflexivity).
  assert (Hp : blocks IntTable.table3 !! 2%Z = Some IntTable.bucket3)
    by (vm_compute; reflexivity).
  assert (Hj : 5 < IntTable.SLOTS) by (unfold IntTable.SLOTS; lia).
  assert (Hh : LPHT.holds IntTable.SLOTS IntTable.IntComparator IntTable.bucket3 5 5%Z 50%Z).
  { split; [vm_compute; reflexivity|]. exists 5%Z. split; vm_compute; reflexivity. }
  split; [exact IntComparator_spec|]. split; [exact reachable_table3|].
  split; [exact Hl|]. split; [exact Hp|]. split; [exact Hj|]. split; [exact Hh|].
  exact (Insert_duplicate_rejected IntTable.SLOTS IntTable.zero_entry
           IntTable.IntComparator IntTable.hash IntComparator_spec
           IntTable.table3 5%Z 50%Z 2%Z IntTable.bucket3 5 reachable_table3 Hl Hp Hj Hh).
Defined.

(** In [table4] key 5 has the values 50 (slot 5) and 51 (slot 6). *)
Lemma Remove_keeps_later_entry_witness :
  LPHT.has_bucket IntTable.SLOTS IntTable.hash IntTable.table4 5%Z 2%Z IntTable.bucket4 ∧
  LPHT.offset_of IntTable.SLOTS IntTable.hash 5%Z ≤ 5 ∧ 5 < 6 ∧ 6 < IntTable.SLOTS ∧
  LPHT.holds IntTable.SLOTS IntTable.IntComparator IntTable.bucket4 5 5%Z 50%Z ∧
  LPHT.holds IntTable.SLOTS IntTable.IntComparator IntTable.bucket4 6 5%Z 51%Z ∧
  (∃ res tr, IntTable.GetValue IntTable.table4 5%Z [] = Some (res, true, tr) ∧ 51%Z ∈ res) ∧
  ∃ t' tr bucket',
    IntTable.Remove IntTable.table4 5%Z 50%Z = Some (t', true, tr) ∧
    LPHT.has_bucket IntTable.SLOTS IntTable.hash t' 5%Z 2%Z bucket' ∧
    (∀ s, Block.IsOccupied IntTable.SLOTS bucket' s
          = Block.IsOccupied IntTable.SLOTS IntTable.bucket4 s) ∧
    LPHT.holds IntTable.SLOTS IntTable.IntComparator bucket' 6 5%Z 51%Z ∧
    ∃ res tr', IntTable.GetValue t' 5%Z [] = Some (res, true, tr') ∧ 51%Z ∈ res.
Proof.
  assert (Hb : LPHT.has_bucket IntTable.SLOTS IntTable.hash IntTable.table4
                 5%Z 2%Z IntTable.bucket4).
  { split; [vm_compute; discriminate|vm_compute; reflexivity|vm_compute; discriminate
            |vm_compute; reflexivity|split; reflexivity]. }
  assert (Ho : LPHT.offset_of IntTable.SLOTS IntTable.hash 5%Z ≤ 5)
    by (vm_compute; lia).
  assert (Hij : 5 < 6) by lia.
  assert (Hj : 6 < IntTable.SLOTS) by (unfold IntTable.SLOTS; lia).
  assert (H5 : LPHT.holds IntTable.SLOTS IntTable.IntComparator IntTable.bucket4 5 5%Z 50%Z).
  { split; [vm_compute; reflexivity|]. exists 5%Z. split; vm_compute; reflexivity. }
  assert (H6 : LPHT.holds IntTable.SLOTS IntTable.IntComparator IntTable.bucket4 6 5%Z 51%Z).
  { split; [vm_compute; reflexivity|]. exists 5%Z. split; vm_compute; reflexivity. }
  split; [exact Hb|]. split; [exact Ho|]. split; [exact Hij|]. split; [exact Hj|].
  split; [exact H5|]. split; [exact H6|].
  exact (Remove_keeps_later_entry IntTable.SLOTS IntTable.IntComparator IntTable.hash
           IntTable.table4 5%Z 50%Z 51%Z 2%Z IntTable.bucket4 5 6 Hb Ho Hij Hj H5 H6).
Defined.

(** The table of scenario S5 is looked up under key 5. *)
Lemma GetValue_reports_stored_witness :
  LPHT.reachable IntTable.SLOTS IntTable.zero_entry IntTable.IntComparator IntTable.hash
    IntTable.table3 ∧
  ∃ res rtn tr,
    IntTable.GetValue IntTable.table3 5%Z [] = Some (res, rtn, tr) ∧
    (∀ v, v ∈ res ↔
          LPHT.stored IntTable.SLOTS IntTable.IntComparator IntTable.hash IntTable.table3 5%Z v) ∧
    NoDup res ∧ (rtn = true ↔ res ≠ []).
Proof.
  split; [exact reachable_table3|].
  exact (GetValue_reports_stored IntTable.SLOTS IntTable.zero_entry IntTable.IntComparator
           IntTable.hash IntComparator_spec IntTable.table3 5%Z reachable_table3).
Defined.

(** The pair [(9, 90)] is removed from the table of scenario S5. *)
Lemma Remove_deletes_the_pair_witness :
  LPHT.reachable IntTable.SLOTS IntTable.zero_entry IntTable.IntComparator IntTable.hash
    IntTable.table3 ∧
  ∃ t' r tr,
    IntTable.Remove IntTable.table3 9%Z 90%Z = Some (t', r, tr) ∧
    (r = true ↔
     LPHT.stored IntTable.SLOTS IntTable.IntComparator IntTable.hash IntTable.table3 9%Z 90%Z) ∧
    header t' = header IntTable.table3 ∧
    ∀ k' v',
      LPHT.stored IntTable.SLOTS IntTable.IntComparator IntTable.hash t' k' v' ↔
      LPHT.stored IntTable.SLOTS IntTable.IntComparator IntTable.hash IntTable.table3 k' v' ∧
      ¬ (k' = 9%Z ∧ v' = 90%Z).
Proof.
  split; [exact reachable_table3|].
  exact (Remove_deletes_the_pair IntTable.SLOTS IntTable.zero_entry IntTable.IntComparator
           IntTable.hash IntComparator_spec IntTable.table3 9%Z 90%Z reachable_table3).
Defined.

(** A second value is inserted under key 5 into the table of scenario S5. *)
Lemma Insert_adds_the_pair_witness :
  LPHT.reachable IntTable.SLOTS IntTable.zero_entry IntTable.IntComparator IntTable.hash
    IntTable.table3 ∧
  ∃ t' r tr,
    IntTable.Insert IntTable.table3 5%Z 51%Z = Some (t', r, tr) ∧
    ∀ k' v',
      LPHT.stored IntTable.SLOTS IntTable.IntComparator IntTable.hash t' k' v' ↔
      LPHT.stored IntTable.SLOTS IntTable.IntComparator IntTable.hash IntTable.table3 k' v' ∨
      (r = true ∧ k' = 5%Z ∧ v' = 51%Z).
Proof.
  split; [exact reachable_table3|].
  exact (Insert_adds_the_pair IntTable.SLOTS IntTable.zero_entry IntTable.IntComparator
           IntTable.hash IntComparator_spec IntTable.table3 5%Z 51%Z reachable_table3).
Defined.

(** The pair [(5, 50)] is inserted a second time into the table of
    scenario S5. *)
Lemma Insert_fails_iff_witness :
  0 < IntTable.SLOTS ∧
  LPHT.reachable IntTable.SLOTS IntTable.zero_entry IntTable.IntComparator IntTable.hash
    IntTable.table3 ∧
  IntTable.Insert IntTable.table3 5%Z 50%Z =
    Some (IntTable.table3, false, IntTable.trace_of (IntTable.Insert IntTable.table3 5 50)%Z) ∧
  (false = false ↔
   LPHT.stored IntTable.SLOTS IntTable.IntComparator IntTable.hash IntTable.table3 5%Z 50%Z ∨
   LPHT.region_full IntTable.SLOTS IntTable.hash IntTable.table3 5%Z).
Proof.
  assert (Hpos : 0 < IntTable.SLOTS) by (unfold IntTable.SLOTS; lia).
  assert (Hins : IntTable.Insert IntTable.table3 5%Z 50%Z =
                 Some (IntTable.table3, false,
                       IntTable.trace_of (IntTable.Insert IntTable.table3 5 50)%Z))
    by (vm_compute; reflexivity).
  split; [exact Hpos|]. split; [exact reachable_table3|]. split; [exact Hins|].
  exact (Insert_fails_iff IntTable.SLOTS IntTable.zero_entry IntTable.IntComparator
           IntTable.hash IntComparator_spec IntTable.table3 IntTable.table3 5%Z 50%Z false
           (IntTable.trace_of (IntTable.Insert IntTable.table3 5 50)%Z)
           Hpos reachable_table3 Hins).
Defined.

(** Key 14 is the first key of its group: its insertion into [table2]
    registers block page 1 for group 0, behind block page 2. *)
Lemma Insert_creates_missing_blocks_witness :
  LPHT.reachable IntTable.SLOTS IntTable.zero_entry IntTable.IntComparator IntTable.hash
    IntTable.table2 ∧
  IntTable.Insert IntTable.table2 14%Z 140%Z =
    Some (IntTable.table3, true, IntTable.trace_of (IntTable.Insert IntTable.table2 14 140)%Z) ∧
  (LPHT.GetSize IntTable.table3).1 =
    (LPHT.GetSize IntTable.table2).1 `max`
      (IntTable.hash 14%Z mod size_ (header IntTable.table2) + 1) ∧
  size_ (header IntTable.table3) = size_ (header IntTable.table2) ∧
  header_page_id_ IntTable.table3 = header_page_id_ IntTable.table2 ∧
  (∀ idx bid, block_page_ids_ (header IntTable.table2) !! idx = Some bid →
              block_page_ids_ (header IntTable.table3) !! idx = Some bid) ∧
  ∃ bid b, LPHT.has_bucket IntTable.SLOTS IntTable.hash IntTable.table3 14%Z bid b.
Proof.
  assert (Hins : IntTable.Insert IntTable.table2 14%Z 140%Z =
                 Some (IntTable.table3, true,
                       IntTable.trace_of (IntTable.Insert IntTable.table2 14 140)%Z))
    by (vm_compute; reflexivity).
  split; [exact reachable_table2|]. split; [exact Hins|].
  exact (Insert_creates_missing_blocks IntTable.SLOTS IntTable.zero_entry
           IntTable.IntComparator IntTable.hash IntComparator_spec
           IntTable.table2 IntTable.table3 14%Z 140%Z true
           (IntTable.trace_of (IntTable.Insert IntTable.table2 14 140)%Z)
           reachable_table2 Hins).
Defined.

(** C3 at a failing input.  On a freshly constructed table the header lists
    no block, [GetBlockPageId] answers [INVALID_PAGE_ID], and [Remove]
    returns [false] right after its two [FetchPage] calls: the header page
    (page 0) has been pinned once and is never unpinned, so the calls of
    this operation do not pair up. *)
Theorem Remove_without_bucket_leaks_pins :
  IntTable.Remove IntTable.fresh 5%Z 50%Z =
    Some (IntTable.fresh, false, [FetchPage 0; FetchPage BPM.INVALID_PAGE_ID]) ∧
  pins_taken 0 [FetchPage 0; FetchPage BPM.INVALID_PAGE_ID] = 1 ∧
  pins_released 0 [FetchPage 0; FetchPage BPM.INVALID_PAGE_ID] = 0 ∧
  ¬ balanced [FetchPage 0; FetchPage BPM.INVALID_PAGE_ID].
Proof.
  split; [vm_compute; reflexivity|]. split; [reflexivity|]. split; [reflexivity|].
  intros Hbal. specialize (Hbal 0%Z). vm_compute in Hbal. discriminate.
Qed.

End LPHTProps.
